(** * Register and breakpoint codecs of gdbserver's RISC-V/Linux target

    A shallow embedding of [gdbserver/linux-riscv-low.cc]: the regset fill
    and store callbacks, the regset table, the program-counter accessors and
    the software-breakpoint routines, with the properties its specification
    states about them. *)

From Stdlib Require Import ZArith Lia List String.
From Stdlib.Strings Require Import Byte.
From stdpp Require Import base list strings.

Local Open Scope string_scope.
Local Open Scope list_scope.
Local Open Scope Z_scope.

Definition byte : Type := Byte.byte.

(** ** Byte arrays

    Both [regcache->registers] and a transfer buffer are plain byte arrays.
    An access outside the array is undefined behaviour in C; here it yields
    [None]. *)

Definition mem_read (off len : Z) (m : list byte) : option (list byte) :=
  if decide (0 <= off ∧ 0 <= len ∧ off + len <= Z.of_nat (length m))
  then Some (take (Z.to_nat len) (drop (Z.to_nat off) m))
  else None.

Definition mem_write (off : Z) (bs m : list byte) : option (list byte) :=
  if decide (0 <= off ∧ off + Z.of_nat (length bs) <= Z.of_nat (length m))
  then Some (take (Z.to_nat off) m ++ bs ++ drop (Z.to_nat off + length bs) m)
  else None.

Definition zero_bytes (len : Z) : list byte := replicate (Z.to_nat len) Byte.x00.

(** ** Target descriptions *)

Inductive bank := GeneralPurpose | FloatingPoint | Capability.

(** Modelled from the spec: the register descriptor of [tdesc.h], an ordered
    list of [{name, bank, width}] entries, the width in bytes, together with
    the names of the features the description contains. *)
Record reg := { name : string; reg_bank : bank; width : Z }.

Record target_desc := { reg_defs : list reg; features : list string }.

(** Modelled from the spec: [tdesc_contains_feature], whether the probed
    feature set has the named extension. *)
Definition tdesc_contains_feature (tdesc : target_desc) (feature : string) : bool :=
  existsb (String.eqb feature) (features tdesc).

(** Modelled from the spec: [find_register_by_number] of [regcache.cc],
    entry [n] of the descriptor. A number outside the descriptor is an
    access outside its array. *)
Definition find_register_by_number (tdesc : target_desc) (n : Z) : option reg :=
  if decide (0 <= n) then reg_defs tdesc !! Z.to_nat n else None.

(** Modelled from the spec: the place of register [n] in the cache, as
    [init_target_desc] lays the registers out: one after the other, in
    descriptor order. *)
Definition reg_offset (tdesc : target_desc) (n : Z) : Z :=
  foldr Z.add 0 (width <$> take (Z.to_nat n) (reg_defs tdesc)).

(** Modelled from the spec: the size of the cache's register array. *)
Definition registers_size (tdesc : target_desc) : Z :=
  foldr Z.add 0 (width <$> reg_defs tdesc).

(** ** Errors and the state the callbacks run on *)

Inductive error :=
| UnknownRegister (nm : string)   (* internal_error of find_regno: fatal *)
| UndefinedBehaviour.             (* access outside an array *)

Inductive result (A : Type) :=
| Ok (a : A)
| Err (e : error).
Arguments Ok {A} a.
Arguments Err {A} e.

(** The register accesses of a call are recorded as they happen, one entry
    per access, in program order. *)
Inductive access :=
| Collect (regno off : Z)   (* collect_register: cache to buffer + off *)
| Supply (regno off : Z)    (* supply_register: buffer + off to cache *)
| Zeroed (regno : Z).       (* supply_register_zeroed *)

Definition access_regno (a : access) : Z :=
  match a with Collect n _ | Supply n _ | Zeroed n => n end.

(** What a callback reads and writes: the register array of the cache it
    is handed, the transfer buffer it is handed, and the record of its
    register accesses. The descriptor of the cache is constant and is passed
    along as an argument. *)
Record world := {
  registers : list byte;   (* regcache->registers *)
  buf : list byte;         (* the transfer buffer *)
  trace : list access
}.

(** A call runs on a world and either returns a value and the world it
    leaves, or fails. *)

Definition M (A : Type) : Type := world -> result (A * world).

Definition ret {A} (a : A) : M A := fun w => Ok (a, w).

Definition bind {A B} (m : M A) (k : A -> M B) : M B :=
  fun w => match m w with
           | Ok (a, w') => k a w'
           | Err e => Err e
           end.

Definition lift {A} (r : result A) : M A :=
  fun w => match r with Ok a => Ok (a, w) | Err e => Err e end.

Notation "'let*' x ':=' m 'in' k" := (bind m (fun x => k))
  (at level 10, x name, m at level 100, k at level 200).

(** [for (i = lo; i < hi; i++) body (i)] *)
Fixpoint iterate (n : nat) (i : Z) (body : Z -> M unit) : M unit :=
  match n with
  | O => ret tt
  | S k => let* _ := body i in iterate k (i + 1) body
  end.

Definition for_loop (lo hi : Z) (body : Z -> M unit) : M unit :=
  iterate (Z.to_nat (hi - lo)) lo body.

(** ** The register cache interface

    The accessors of [regcache.cc] that the callbacks consume. *)

(** Modelled from the spec: the loop of [find_regno], over the registers
    from number [i] on. *)
Fixpoint find_regno_from (i : Z) (defs : list reg) (nm : string) : result Z :=
  match defs with
  | [] => Err (UnknownRegister nm)
  | r :: defs' => if String.eqb nm (name r) then Ok i
                  else find_regno_from (i + 1) defs' nm
  end.

(** Modelled from the spec: [find_regno], the number of the first register
    of the descriptor with the name; a name that the descriptor does not
    resolve is a fatal error. *)
Definition find_regno (tdesc : target_desc) (nm : string) : result Z :=
  find_regno_from 0 (reg_defs tdesc) nm.

(** Modelled from the spec: [register_size], the width of register [n] in
    bytes. *)
Definition register_size (tdesc : target_desc) (n : Z) : result Z :=
  match find_register_by_number tdesc n with
  | Some r => Ok (width r)
  | None => Err UndefinedBehaviour
  end.

(** Modelled from the spec: the raw bytes the cache holds for register
    [n], [register_size] bytes from [register_data] on. *)
Definition raw_register (tdesc : target_desc) (n : Z) (regs : list byte)
  : option (list byte) :=
  match find_register_by_number tdesc n with
  | Some r => mem_read (reg_offset tdesc n) (width r) regs
  | None => None
  end.

(** Modelled from the spec: [collect_register], which copies the bytes of
    register [n] from the cache to the buffer at offset [off]. *)
Definition collect_register (tdesc : target_desc) (n off : Z) : M unit :=
  fun w =>
    match raw_register tdesc n (registers w) with
    | Some data =>
        match mem_write off data (buf w) with
        | Some b => Ok (tt, {| registers := registers w; buf := b;
                               trace := trace w ++ [Collect n off] |})
        | None => Err UndefinedBehaviour
        end
    | None => Err UndefinedBehaviour
    end.

(** Modelled from the spec: [supply_register], the inverse copy, from the
    buffer at offset [off] to register [n] of the cache. *)
Definition supply_register (tdesc : target_desc) (n off : Z) : M unit :=
  fun w =>
    match find_register_by_number tdesc n with
    | Some r =>
        match mem_read off (width r) (buf w) with
        | Some data =>
            match mem_write (reg_offset tdesc n) data (registers w) with
            | Some rs => Ok (tt, {| registers := rs; buf := buf w;
                                    trace := trace w ++ [Supply n off] |})
            | None => Err UndefinedBehaviour
            end
        | None => Err UndefinedBehaviour
        end
    | None => Err UndefinedBehaviour
    end.

(** Modelled from the spec: [supply_register_zeroed], which clears
    register [n] of the cache. *)
Definition supply_register_zeroed (tdesc : target_desc) (n : Z) : M unit :=
  fun w =>
    match find_register_by_number tdesc n with
    | Some r =>
        if decide (0 <= width r) then
          match mem_write (reg_offset tdesc n) (zero_bytes (width r)) (registers w) with
          | Some rs => Ok (tt, {| registers := rs; buf := buf w;
                                  trace := trace w ++ [Zeroed n] |})
          | None => Err UndefinedBehaviour
          end
        else Err UndefinedBehaviour
    | None => Err UndefinedBehaviour
    end.

(** Modelled from the spec: the accessors by name, which resolve the name
    and go on by number. *)
Definition collect_register_by_name (tdesc : target_desc) (nm : string) (off : Z)
  : M unit :=
  let* n := lift (find_regno tdesc nm) in collect_register tdesc n off.

Definition supply_register_by_name (tdesc : target_desc) (nm : string) (off : Z)
  : M unit :=
  let* n := lift (find_regno tdesc nm) in supply_register tdesc n off.

(** ** The regset callbacks

    Register numbers, widths and buffer offsets stay far below the range of
    [int]; they are taken in [Z]. *)

(** [NFPREG] is 33, and the C library's [ELF_NFPREG] is [NFPREG]. *)
Definition ELF_NFPREG : Z := 33.

(** Collect GPRs from the cache into the buffer. *)
Definition riscv_fill_gregset (tdesc : target_desc) : M unit :=
  let* regsize :=
    if tdesc_contains_feature tdesc "org.gnu.gdb.riscv.cheri" then
      let* regno_null := lift (find_regno tdesc "cnull") in
      let* regno_pc := lift (find_regno tdesc "pcc") in
      let* regsize := lift (register_size tdesc regno_pc) in
      let* _ := collect_register tdesc regno_pc 0 in
      let* _ := collect_register_by_name tdesc "ddc"
                  ((regno_pc - regno_null) * regsize) in
      let* _ := for_loop 1 (regno_pc - regno_null)
                  (fun i => collect_register tdesc (regno_null + i) (i * regsize)) in
      ret regsize
    else
      let* regno := lift (find_regno tdesc "pc") in
      lift (register_size tdesc regno)
  in
  let* regno_null := lift (find_regno tdesc "zero") in
  let* regno_pc := lift (find_regno tdesc "pc") in
  let* _ := collect_register tdesc regno_pc 0 in
  for_loop 1 (regno_pc - regno_null)
    (fun i => collect_register tdesc (regno_null + i) (i * regsize)).

(** Supply GPRs from the buffer into the cache. *)
Definition riscv_store_gregset (tdesc : target_desc) : M unit :=
  let* regsize :=
    if tdesc_contains_feature tdesc "org.gnu.gdb.riscv.cheri" then
      let* regno_null := lift (find_regno tdesc "cnull") in
      let* regno_pc := lift (find_regno tdesc "pcc") in
      let* regsize := lift (register_size tdesc regno_pc) in
      let* _ := supply_register tdesc regno_pc 0 in
      let* _ := supply_register_zeroed tdesc regno_null in
      let* _ := supply_register_by_name tdesc "ddc"
                  ((regno_pc - regno_null) * regsize) in
      let* _ := for_loop 1 (regno_pc - regno_null)
                  (fun i => supply_register tdesc (regno_null + i) (i * regsize)) in
      ret regsize
    else
      let* regno := lift (find_regno tdesc "pc") in
      lift (register_size tdesc regno)
  in
  let* regno_null := lift (find_regno tdesc "zero") in
  let* regno_pc := lift (find_regno tdesc "pc") in
  let* _ := supply_register tdesc regno_pc 0 in
  let* _ := supply_register_zeroed tdesc regno_null in
  for_loop 1 (regno_pc - regno_null)
    (fun i => supply_register tdesc (regno_null + i) (i * regsize)).

(** Collect FPRs from the cache into the buffer. The C loop advances
    [regbuf] by [flen] each round, so round [i] writes at [i * flen] and
    [fcsr] lands right after the last data register. *)
Definition riscv_fill_fpregset (tdesc : target_desc) : M unit :=
  let* regno := lift (find_regno tdesc "ft0") in
  let* flen := lift (register_size tdesc regno) in
  let* _ := for_loop 0 (ELF_NFPREG - 1)
              (fun i => collect_register tdesc (regno + i) (i * flen)) in
  collect_register_by_name tdesc "fcsr" ((ELF_NFPREG - 1) * flen).

(** Supply FPRs from the buffer into the cache. *)
Definition riscv_store_fpregset (tdesc : target_desc) : M unit :=
  let* regno := lift (find_regno tdesc "ft0") in
  let* flen := lift (register_size tdesc regno) in
  let* _ := for_loop 0 (ELF_NFPREG - 1)
              (fun i => supply_register tdesc (regno + i) (i * flen)) in
  supply_register_by_name tdesc "fcsr" ((ELF_NFPREG - 1) * flen).

(** Maximum regset size is defined by 33 CHERI registers of 16 byte each. *)
Definition MAX_REGSET_SIZE : Z := 33 * 16.

(** ** The regset table *)

(** Modelled from the spec: the category of a row, [enum regset_type] of
    [linux-low.h]. *)
Inductive regset_type := GENERAL_REGS | FP_REGS | EXTENDED_REGS | OPTIONAL_REGS.

Global Instance regset_type_eq_dec : EqDecision regset_type.
Proof. solve_decision. Defined.

(** Modelled from the spec: a row of the transfer layout, [struct
    regset_info] of [linux-low.h], [{osGetCommand, osSetCommand, noteKind,
    maxBufferSize, category, fillFn, storeFn}]. A null callback is [None]. *)
Record regset_info := {
  get_request : Z;
  set_request : Z;
  nt_type : Z;
  size : Z;
  type : regset_type;
  fill_function : option (target_desc -> M unit);
  store_function : option (target_desc -> M unit)
}.

(** The ptrace requests and ELF note types of the Linux headers. *)
Definition PTRACE_GETREGSET : Z := 0x4204.
Definition PTRACE_SETREGSET : Z := 0x4205.
Definition NT_PRSTATUS : Z := 1.
Definition NT_FPREGSET : Z := 2.

Section regsets.
(** The sizes of the C library's floating-point context structures for the
    Q, D and F extensions, [sizeof (struct __riscv_mc_q_ext_state)] and so
    on, are taken as given. *)
Context (sizeof_q_ext_state sizeof_d_ext_state sizeof_f_ext_state : Z).

(** RISC-V/Linux regsets. The list ends where the C array has its
    [NULL_REGSET] terminator. *)
Definition riscv_regsets : list regset_info :=
  [ {| get_request := PTRACE_GETREGSET; set_request := PTRACE_SETREGSET;
       nt_type := NT_PRSTATUS;
       size := MAX_REGSET_SIZE; type := GENERAL_REGS;
       fill_function := None; store_function := Some riscv_store_gregset |};
    {| get_request := PTRACE_GETREGSET; set_request := PTRACE_SETREGSET;
       nt_type := NT_FPREGSET;
       size := sizeof_q_ext_state; type := OPTIONAL_REGS;
       fill_function := Some riscv_fill_fpregset;
       store_function := Some riscv_store_fpregset |};
    {| get_request := PTRACE_GETREGSET; set_request := PTRACE_SETREGSET;
       nt_type := NT_FPREGSET;
       size := sizeof_d_ext_state; type := OPTIONAL_REGS;
       fill_function := Some riscv_fill_fpregset;
       store_function := Some riscv_store_fpregset |};
    {| get_request := PTRACE_GETREGSET; set_request := PTRACE_SETREGSET;
       nt_type := NT_FPREGSET;
       size := sizeof_f_ext_state; type := OPTIONAL_REGS;
       fill_function := Some riscv_fill_fpregset;
       store_function := Some riscv_store_fpregset |} ].
End regsets.

(** Modelled from the spec: the floating-point candidates of a table, in
    table order, and the selection the generic transfer loop makes among
    them, the first candidate whose declared size matches the size reported
    by the transfer call. *)
Definition fp_candidates (regsets : list regset_info) : list regset_info :=
  filter (fun r => nt_type r = NT_FPREGSET) regsets.

Definition select_regset (reported : Z) (candidates : list regset_info)
  : option (nat * regset_info) :=
  list_find (fun r => size r = reported) candidates.

(** Modelled from the spec: the generic transfer loop serializes the cache
    into the kernel-bound buffer by invoking the row's fill callback; for a
    row without one there is nothing to invoke. *)
Definition regset_fill (r : regset_info) (tdesc : target_desc) : M unit :=
  match fill_function r with
  | Some fill => fill tdesc
  | None => ret tt
  end.

(** ** Single registers and the program counter *)

(** Implementation of linux target ops method "low_fetch_register". The
    second lookup happens only when the first comparison holds. *)
Definition low_fetch_register (tdesc : target_desc) (regno : Z) : M bool :=
  let* zero := lift (find_regno tdesc "zero") in
  if decide (regno <> zero) then
    let* cnull := lift (find_regno tdesc "cnull") in
    if decide (regno <> cnull) then ret false
    else let* _ := supply_register_zeroed tdesc regno in ret true
  else let* _ := supply_register_zeroed tdesc regno in ret true.

Section pc_accessors.
(** The width-specific accessors of [linux-low.cc]. *)
Context (linux_get_pc_64bit linux_get_pc_32bit : target_desc -> M Z).
Context (linux_set_pc_64bit linux_set_pc_32bit : target_desc -> Z -> M unit).

(** Implementation of linux target ops method "low_get_pc". *)
Definition low_get_pc (tdesc : target_desc) : M Z :=
  let* regno := lift (find_regno tdesc "pc") in
  let* regsize := lift (register_size tdesc regno) in
  if decide (regsize = 8) then linux_get_pc_64bit tdesc
  else linux_get_pc_32bit tdesc.

(** Implementation of linux target ops method "low_set_pc". *)
Definition low_set_pc (tdesc : target_desc) (newpc : Z) : M unit :=
  let* regno := lift (find_regno tdesc "pc") in
  let* regsize := lift (register_size tdesc regno) in
  if decide (regsize = 8) then linux_set_pc_64bit tdesc newpc
  else linux_set_pc_32bit tdesc newpc.
End pc_accessors.

Definition byte_value (b : byte) : Z := Z.of_N (Byte.to_N b).

Definition byte_of_Z (v : Z) : byte := default Byte.x00 (Byte.of_N (Z.to_N v)).

(** A value and its bytes in little-endian order. *)
Definition le_value (bs : list byte) : Z :=
  foldr (fun b acc => byte_value b + 256 * acc) 0 bs.

Fixpoint le_bytes (len : nat) (v : Z) : list byte :=
  match len with
  | O => []
  | S k => byte_of_Z (v mod 256) :: le_bytes k (v / 256)
  end.

(** Modelled from the spec: the accessor of the underlying cache that reads
    a program counter of [len] bytes ([linux_get_pc_64bit] for 8,
    [linux_get_pc_32bit] for 4): the bytes of [pc] are copied to a variable
    of [len] bytes, whose value is the answer. *)
Definition cache_get_pc (len : Z) (tdesc : target_desc) : M Z :=
  let* regno := lift (find_regno tdesc "pc") in
  fun w =>
    match raw_register tdesc regno (registers w) with
    | Some data =>
        if decide (Z.of_nat (length data) = len) then Ok (le_value data, w)
        else Err UndefinedBehaviour
    | None => Err UndefinedBehaviour
    end.

(** Modelled from the spec: the accessor that writes one
    ([linux_set_pc_64bit], [linux_set_pc_32bit]): the new value is put in
    a variable of [len] bytes, whose bytes are copied to [pc]. *)
Definition cache_set_pc (len : Z) (tdesc : target_desc) (newpc : Z) : M unit :=
  let* regno := lift (find_regno tdesc "pc") in
  let* regsize := lift (register_size tdesc regno) in
  fun w =>
    if decide (regsize = len) then
      match mem_write (reg_offset tdesc regno) (le_bytes (Z.to_nat len) newpc)
              (registers w) with
      | Some rs => Ok (tt, {| registers := rs; buf := buf w; trace := trace w |})
      | None => Err UndefinedBehaviour
      end
    else Err UndefinedBehaviour.

(** ** Software breakpoints *)

Inductive byte_order := LittleEndian | BigEndian.

(** The [uint16_t] member of the union over the two bytes read, in the
    byte order of the host. *)
Definition uint16_of_bytes (bo : byte_order) (bytes : list byte) : Z :=
  match bytes with
  | [b0; b1] =>
      match bo with
      | LittleEndian => byte_value b0 + 256 * byte_value b1
      | BigEndian => 256 * byte_value b0 + byte_value b1
      end
  | _ => 0
  end.

(** The bytes of a [uint16_t] object. *)
Definition bytes_of_uint16 (bo : byte_order) (v : Z) : list byte :=
  match bo with
  | LittleEndian => [byte_of_Z (v mod 256); byte_of_Z (v / 256 mod 256)]
  | BigEndian => [byte_of_Z (v / 256 mod 256); byte_of_Z (v mod 256)]
  end.

(** Modelled from the spec: the process memory read primitive,
    [(address, length) -> bytes or failure]. The memory of the stopped
    process maps each readable address to its byte. *)
Definition memory : Type := Z -> option byte.

Fixpoint read_bytes (mem : memory) (addr : Z) (len : nat) : option (list byte) :=
  match len with
  | O => Some []
  | S k =>
      match mem addr, read_bytes mem (addr + 1) k with
      | Some b, Some bs => Some (b :: bs)
      | _, _ => None
      end
  end.

Definition target_read_memory (mem : memory) (memaddr len : Z) : option (list byte) :=
  read_bytes mem memaddr (Z.to_nat len).

(** [CORE_ADDR] arithmetic is unsigned 64-bit. *)
Definition core_addr (a : Z) : Z := a mod 2 ^ 64.

(** Modelled from the spec: [riscv_insn_length] of [opcode/riscv.h], the
    length in bytes that the low bits of an instruction encode: compact
    (2 bytes) unless the two low bits are both set, else standard (4 bytes)
    unless the five low bits are all set. *)
Definition riscv_insn_length (insn : Z) : Z :=
  if decide (Z.land insn 0x3 <> 0x3) then 2
  else if decide (Z.land insn 0x1f <> 0x1f) then 4
  else if decide (Z.land insn 0x3f = 0x1f) then 6
  else if decide (Z.land insn 0x7f = 0x3f) then 8
  else 2.

(** Correct in either endianness. *)
Definition riscv_ibreakpoint : list Z := [0x0073; 0x0010].
Definition riscv_cbreakpoint : Z := 0x9002.

Definition sizeof_riscv_ibreakpoint : Z := 4.
Definition sizeof_riscv_cbreakpoint : Z := 2.
Definition sizeof_insn : Z := 2.

(** Implementation of target ops method "breakpoint_kind_from_pc". The
    argument of [riscv_insn_length] is the value of the comparison
    [buf.insn == sizeof (riscv_ibreakpoint)], 1 or 0. *)
Definition breakpoint_kind_from_pc (bo : byte_order) (mem : memory) (pc : Z) : Z :=
  match target_read_memory mem pc sizeof_insn with
  | Some bytes =>
      let insn := uint16_of_bytes bo bytes in
      if decide (riscv_insn_length
                   (if decide (insn = sizeof_riscv_ibreakpoint) then 1 else 0) <> 0)
      then sizeof_riscv_ibreakpoint
      else sizeof_riscv_cbreakpoint
  | None => sizeof_riscv_cbreakpoint
  end.

(** Implementation of target ops method "sw_breakpoint_from_kind": the
    bytes of the object the returned pointer points to, and [*size]. *)
Definition sw_breakpoint_from_kind (bo : byte_order) (kind : Z) : list byte * Z :=
  let size := kind in
  if decide (kind = sizeof_riscv_ibreakpoint)
  then (concat (bytes_of_uint16 bo <$> riscv_ibreakpoint), size)
  else (bytes_of_uint16 bo riscv_cbreakpoint, size).

(** Implementation of linux target ops method "low_breakpoint_at": the
    answer, and the memory reads performed, each an address and a
    length. *)
Definition low_breakpoint_at (bo : byte_order) (mem : memory) (pc : Z)
  : bool * list (Z * Z) :=
  match target_read_memory mem pc sizeof_insn with
  | Some bytes =>
      if decide (uint16_of_bytes bo bytes = riscv_cbreakpoint)
      then (true, [(pc, sizeof_insn)])
      else if decide (uint16_of_bytes bo bytes = riscv_ibreakpoint !!! 0%nat)
      then
        match target_read_memory mem (core_addr (pc + sizeof_insn)) sizeof_insn with
        | Some bytes' =>
            (bool_decide (uint16_of_bytes bo bytes' = riscv_ibreakpoint !!! 1%nat),
             [(pc, sizeof_insn); (core_addr (pc + sizeof_insn), sizeof_insn)])
        | None =>
            (false, [(pc, sizeof_insn); (core_addr (pc + sizeof_insn), sizeof_insn)])
        end
      else (false, [(pc, sizeof_insn)])
  | None => (false, [(pc, sizeof_insn)])
  end.

(** ** Concrete descriptors

    The descriptors of a 64-bit hart with the D extension, of a 32-bit hart
    with the F extension, and of a 64-bit hart with the capability
    extension: the general-purpose bank, then the floating-point bank, then
    the capability bank. *)

Definition bank_regs (b : bank) (w : Z) (names : list string) : list reg :=
  (fun nm => {| name := nm; reg_bank := b; width := w |}) <$> names.

Definition cpu_names : list string :=
  ["zero"; "ra"; "sp"; "gp"; "tp"; "t0"; "t1"; "t2"; "fp"; "s1";
   "a0"; "a1"; "a2"; "a3"; "a4"; "a5"; "a6"; "a7";
   "s2"; "s3"; "s4"; "s5"; "s6"; "s7"; "s8"; "s9"; "s10"; "s11";
   "t3"; "t4"; "t5"; "t6"; "pc"].

Definition fpu_names : list string :=
  ["ft0"; "ft1"; "ft2"; "ft3"; "ft4"; "ft5"; "ft6"; "ft7"; "fs0"; "fs1";
   "fa0"; "fa1"; "fa2"; "fa3"; "fa4"; "fa5"; "fa6"; "fa7";
   "fs2"; "fs3"; "fs4"; "fs5"; "fs6"; "fs7"; "fs8"; "fs9"; "fs10"; "fs11";
   "ft8"; "ft9"; "ft10"; "ft11"].

Definition fcsr_names : list string := ["fflags"; "frm"; "fcsr"].

Definition cheri_names : list string :=
  ["cnull"; "cra"; "csp"; "cgp"; "ctp"; "ct0"; "ct1"; "ct2"; "cfp"; "cs1";
   "ca0"; "ca1"; "ca2"; "ca3"; "ca4"; "ca5"; "ca6"; "ca7";
   "cs2"; "cs3"; "cs4"; "cs5"; "cs6"; "cs7"; "cs8"; "cs9"; "cs10"; "cs11";
   "ct3"; "ct4"; "ct5"; "ct6"; "pcc"; "ddc"].

Definition riscv_tdesc (xlen flen : Z) (cheri : bool) : target_desc :=
  {| reg_defs :=
       bank_regs GeneralPurpose xlen cpu_names
       ++ bank_regs FloatingPoint flen fpu_names
       ++ bank_regs FloatingPoint 4 fcsr_names
       ++ (if cheri then bank_regs Capability (2 * xlen) cheri_names else []);
     features :=
       ["org.gnu.gdb.riscv.cpu"; "org.gnu.gdb.riscv.fpu"]
       ++ (if cheri then ["org.gnu.gdb.riscv.cheri"] else []) |}.

Definition rv64_tdesc : target_desc := riscv_tdesc 8 8 false.
Definition rv32_tdesc : target_desc := riscv_tdesc 4 4 false.
Definition cheri_tdesc : target_desc := riscv_tdesc 8 8 true.

(** A cache whose byte at position [i] is [i mod 256], and a cleared
    transfer buffer of the maximum regset size. *)
Definition sample_registers (tdesc : target_desc) : list byte :=
  (fun i => default Byte.x00 (Byte.of_N (Z.to_N (i mod 256))))
    <$> seqZ 0 (registers_size tdesc).

Definition sample_world (tdesc : target_desc) : world :=
  {| registers := sample_registers tdesc;
     buf := zero_bytes MAX_REGSET_SIZE;
     trace := [] |}.

(** * Vocabulary of the properties *)

Definition sum_widths (defs : list reg) : Z := foldr Z.add 0 (width <$> defs).

(** Every register of the descriptor has a non-negative width. *)
Definition tdesc_wf (tdesc : target_desc) : Prop :=
  Forall (fun r => 0 <= width r) (reg_defs tdesc).

(** Register [n] exists and is [w] bytes wide. *)
Definition has_width (tdesc : target_desc) (w n : Z) : Prop :=
  exists r, find_register_by_number tdesc n = Some r /\ width r = w.

Global Instance has_width_dec tdesc w n : Decision (has_width tdesc w n).
Proof.
  unfold has_width. destruct (find_register_by_number tdesc n) as [r|].
  - destruct (decide (width r = w)) as [E|E].
    + left. eauto.
    + right. intros (r' & [= <-] & ?). done.
  - right. intros (r' & [=] & _).
Defined.

(** The registers numbered [first .. first + count - 1] all are [w] bytes
    wide. *)
Definition bank_width (tdesc : target_desc) (w first count : Z) : Prop :=
  Forall (has_width tdesc w) (seqZ first count).

(** The cache has the size the descriptor asks for. *)
Definition cache_wf (tdesc : target_desc) (w : world) : Prop :=
  Z.of_nat (length (registers w)) = registers_size tdesc.

Definition cheri_feature : string := "org.gnu.gdb.riscv.cheri".

(** Register [n] of the cache holds zero bytes only. *)
Definition register_is_zero (tdesc : target_desc) (n : Z) (regs : list byte) : Prop :=
  exists r, find_register_by_number tdesc n = Some r
            /\ raw_register tdesc n regs = Some (zero_bytes (width r)).

(** The accesses [t] go to pairwise distinct registers, [n] of them. *)
Definition touches (t : list access) (n : Z) : Prop :=
  NoDup (access_regno <$> t) /\ Z.of_nat (length t) = n.

(** The accesses of one pass over a bank: the program counter at offset 0,
    then register [null + i] at offset [i * stride]. *)
Definition collect_pass (null pc stride : Z) : list access :=
  Collect pc 0 :: ((fun i => Collect (null + i) (i * stride)) <$> seqZ 1 (pc - null - 1)).

Definition supply_pass (null pc stride : Z) : list access :=
  Supply pc 0 :: Zeroed null
    :: ((fun i => Supply (null + i) (i * stride)) <$> seqZ 1 (pc - null - 1)).

(** A descriptor without the capability extension whose general-purpose
    bank is numbered [zn .. pn], the registers after [zero] all [xlen] bytes
    wide. *)
Record plain_layout (tdesc : target_desc) (zn pn xlen : Z) : Prop := {
  plain_wf : tdesc_wf tdesc;
  plain_feature : tdesc_contains_feature tdesc cheri_feature = false;
  plain_zero : find_regno tdesc "zero" = Ok zn;
  plain_pc : find_regno tdesc "pc" = Ok pn;
  plain_order : zn < pn;
  plain_width : bank_width tdesc xlen (zn + 1) (pn - zn)
}.

(** A descriptor whose floating-point data registers are numbered
    [fn .. fn + 31], all [flen] bytes wide, with [fcsr], [wcs] bytes wide,
    numbered [cs] outside of them. *)
Record fp_layout (tdesc : target_desc) (fn cs flen wcs : Z) : Prop := {
  fp_wf : tdesc_wf tdesc;
  fp_ft0 : find_regno tdesc "ft0" = Ok fn;
  fp_fcsr : find_regno tdesc "fcsr" = Ok cs;
  fp_width : bank_width tdesc flen fn (ELF_NFPREG - 1);
  fp_fcsr_width : has_width tdesc wcs cs;
  fp_fcsr_outside : ~ (fn <= cs < fn + (ELF_NFPREG - 1))
}.

Definition fp_collect_pass (fn cs flen : Z) : list access :=
  ((fun i => Collect (fn + i) (i * flen)) <$> seqZ 0 (ELF_NFPREG - 1))
  ++ [Collect cs ((ELF_NFPREG - 1) * flen)].

Definition fp_supply_pass (fn cs flen : Z) : list access :=
  ((fun i => Supply (fn + i) (i * flen)) <$> seqZ 0 (ELF_NFPREG - 1))
  ++ [Supply cs ((ELF_NFPREG - 1) * flen)].

(** A descriptor with the capability extension: the capability bank is
    numbered [cn .. pcn], its registers after [cnull] and [ddc] (numbered
    [dn]) all [clen] bytes wide; the plain bank is numbered [zn .. pn], its
    registers after [zero] all [xlen] bytes wide; the banks do not
    interleave. *)
Record cheri_layout (tdesc : target_desc) (cn pcn dn zn pn clen xlen : Z) : Prop := {
  cheri_wf : tdesc_wf tdesc;
  cheri_present : tdesc_contains_feature tdesc cheri_feature = true;
  cheri_cnull : find_regno tdesc "cnull" = Ok cn;
  cheri_pcc : find_regno tdesc "pcc" = Ok pcn;
  cheri_ddc : find_regno tdesc "ddc" = Ok dn;
  cheri_zero : find_regno tdesc "zero" = Ok zn;
  cheri_pc : find_regno tdesc "pc" = Ok pn;
  cheri_cap_order : cn < pcn;
  cheri_plain_order : zn < pn;
  cheri_cap_width : bank_width tdesc clen (cn + 1) (pcn - cn);
  cheri_ddc_width : has_width tdesc clen dn;
  cheri_plain_width : bank_width tdesc xlen (zn + 1) (pn - zn);
  cheri_xlen_le : xlen <= clen;
  cheri_span : pn - zn <= pcn - cn;
  cheri_banks_apart : pn < cn \/ pcn < zn;
  cheri_ddc_apart : ~ (cn <= dn <= pcn) /\ ~ (zn <= dn <= pn)
}.

Definition cheri_collect_pass (cn pcn dn clen : Z) : list access :=
  [Collect pcn 0; Collect dn ((pcn - cn) * clen)]
  ++ ((fun i => Collect (cn + i) (i * clen)) <$> seqZ 1 (pcn - cn - 1)).

Definition cheri_supply_pass (cn pcn dn clen : Z) : list access :=
  [Supply pcn 0; Zeroed cn; Supply dn ((pcn - cn) * clen)]
  ++ ((fun i => Supply (cn + i) (i * clen)) <$> seqZ 1 (pcn - cn - 1)).


(** The world a call leaves, the world it started from when it fails. *)
Definition exec {A} (m : M A) (w : world) : world :=
  match m w with
  | Ok (_, w') => w'
  | Err _ => w
  end.

(** Collect into the buffer, then supply from it. *)
Definition gregset_round_trip (tdesc : target_desc) : M unit :=
  let* _ := riscv_fill_gregset tdesc in riscv_store_gregset tdesc.

Definition fpregset_round_trip (tdesc : target_desc) : M unit :=
  let* _ := riscv_fill_fpregset tdesc in riscv_store_fpregset tdesc.

(** The bytes [full] with its first [xlen] bytes replaced by [low]. *)
Definition overlay (xlen : Z) (low full : list byte) : list byte :=
  low ++ drop (Z.to_nat xlen) full.


(** The canonical trap patterns, as the encoder hands them out. *)
Definition compact_trap (bo : byte_order) : list byte :=
  fst (sw_breakpoint_from_kind bo sizeof_riscv_cbreakpoint).

Definition standard_trap (bo : byte_order) : list byte :=
  fst (sw_breakpoint_from_kind bo sizeof_riscv_ibreakpoint).

(** A process memory holding the bytes [bytes] from address [base] on and
    unreadable elsewhere. *)
Definition memory_of (base : Z) (bytes : list byte) : memory :=
  fun a => if decide (base <= a) then bytes !! Z.to_nat (a - base) else None.

(** A floating-point row of the regset table with declared size [sz]. *)
Definition fp_regset (sz : Z) : regset_info :=
  {| get_request := PTRACE_GETREGSET; set_request := PTRACE_SETREGSET;
     nt_type := NT_FPREGSET; size := sz; type := OPTIONAL_REGS;
     fill_function := Some riscv_fill_fpregset;
     store_function := Some riscv_store_fpregset |}.

(** The sample cache with a transfer buffer of [0xff] bytes. *)
Definition dirty_world (tdesc : target_desc) : world :=
  {| registers := sample_registers tdesc;
     buf := replicate (Z.to_nat MAX_REGSET_SIZE) Byte.xff;
     trace := [] |}.

(** What collecting and then supplying the general-purpose bank leaves,
    without the capability extension: the registers after [zero] up to
    [pc] as they were, [zero] cleared. *)
Definition plain_round_trip_ok (tdesc : target_desc) (zn pn : Z) (w : world) : Prop :=
  exists w',
    gregset_round_trip tdesc w = Ok (tt, w')
    /\ (forall n, zn < n <= pn ->
          raw_register tdesc n (registers w') = raw_register tdesc n (registers w))
    /\ register_is_zero tdesc zn (registers w').

(** The same for the floating-point bank: the 32 data registers and
    [fcsr] as they were. *)
Definition fp_round_trip_ok (tdesc : target_desc) (fn cs : Z) (w : world) : Prop :=
  exists w',
    fpregset_round_trip tdesc w = Ok (tt, w')
    /\ (forall n, fn <= n < fn + (ELF_NFPREG - 1) \/ n = cs ->
          raw_register tdesc n (registers w') = raw_register tdesc n (registers w)).

(** The same with the capability extension: the plain registers and [ddc]
    as they were, as are the capability registers beyond the plain bank's
    span; [zero] and [cnull] cleared; [pcc] and each capability register
    that shares its slot with a plain register keep their upper bytes and
    take the plain register's bytes as their low [xlen] bytes. *)
Definition cheri_round_trip_ok (tdesc : target_desc) (cn pcn dn zn pn xlen : Z)
    (w : world) : Prop :=
  exists w',
    gregset_round_trip tdesc w = Ok (tt, w')
    /\ (forall n, zn < n <= pn ->
          raw_register tdesc n (registers w') = raw_register tdesc n (registers w))
    /\ register_is_zero tdesc zn (registers w')
    /\ register_is_zero tdesc cn (registers w')
    /\ raw_register tdesc dn (registers w') = raw_register tdesc dn (registers w)
    /\ (forall i, pn - zn <= i < pcn - cn ->
          raw_register tdesc (cn + i) (registers w')
          = raw_register tdesc (cn + i) (registers w))
    /\ (forall i low full, 1 <= i < pn - zn ->
          raw_register tdesc (zn + i) (registers w) = Some low ->
          raw_register tdesc (cn + i) (registers w) = Some full ->
          raw_register tdesc (cn + i) (registers w') = Some (overlay xlen low full))
    /\ (forall low full,
          raw_register tdesc pn (registers w) = Some low ->
          raw_register tdesc pcn (registers w) = Some full ->
          raw_register tdesc pcn (registers w') = Some (overlay xlen low full)).

(** Supply from the buffer, then collect into it. *)
Definition gregset_supply_collect (tdesc : target_desc) : M unit :=
  let* _ := riscv_store_gregset tdesc in riscv_fill_gregset tdesc.

Definition fpregset_supply_collect (tdesc : target_desc) : M unit :=
  let* _ := riscv_store_fpregset tdesc in riscv_fill_fpregset tdesc.

Global Instance byte_eq_dec : EqDecision byte := Byte.byte_eq_dec.

(** The process memory [mem] with the bytes [bytes] stored from address
    [addr] on, as inserting a breakpoint stores its pattern. *)
Definition write_memory (mem : memory) (addr : Z) (bytes : list byte) : memory :=
  fun a =>
    if decide (addr <= a < addr + Z.of_nat (length bytes))
    then bytes !! Z.to_nat (a - addr)
    else mem a.

(** The cache and the size of the buffer are as before. *)
Definition keeps_cache (w w' : world) : Prop :=
  registers w' = registers w /\ length (buf w') = length (buf w).

(** The buffer and the size of the cache are as before. *)
Definition keeps_buffer (w w' : world) : Prop :=
  buf w' = buf w /\ length (registers w') = length (registers w).

(** The sample cache with a cleared transfer buffer of [len] bytes. *)
Definition sized_world (tdesc : target_desc) (len : nat) : world :=
  {| registers := sample_registers tdesc;
     buf := replicate len Byte.x00;
     trace := [] |}.

(** The accesses [t] take no buffer bytes for register [n]: none of them
    supplies it from the buffer. *)
Definition never_supplied (n : Z) (t : list access) : Prop :=
  forall off, Supply n off ∉ t.

(** The cache of [w], handed the transfer buffer [b]. *)
Definition with_buffer (b : list byte) (w : world) : world :=
  {| registers := registers w; buf := b; trace := trace w |}.

(** A decidable fact about concrete data, by evaluation. *)
Ltac by_computation := apply (bool_decide_unpack _); vm_compute; exact I.

(** * Properties *)

(** ** Byte arrays *)

Section mem.
Implicit Types (m bs : list byte) (o l : Z) (i : nat).

Lemma mem_read_Some o l m :
  0 <= o -> 0 <= l -> o + l <= Z.of_nat (length m) ->
  mem_read o l m = Some (take (Z.to_nat l) (drop (Z.to_nat o) m)).
Proof. intros. unfold mem_read. by rewrite decide_True by lia. Qed.

Lemma mem_read_inv o l m bs :
  mem_read o l m = Some bs ->
  0 <= o /\ 0 <= l /\ o + l <= Z.of_nat (length m)
  /\ bs = take (Z.to_nat l) (drop (Z.to_nat o) m).
Proof. unfold mem_read. case_decide; [|done]. intros [= <-]. tauto. Qed.

Lemma mem_read_length o l m bs :
  mem_read o l m = Some bs -> Z.of_nat (length bs) = l.
Proof.
  intros (? & ? & ? & ->)%mem_read_inv.
  rewrite length_take, length_drop. lia.
Qed.

Lemma mem_write_Some o bs m :
  0 <= o -> o + Z.of_nat (length bs) <= Z.of_nat (length m) ->
  mem_write o bs m
  = Some (take (Z.to_nat o) m ++ bs ++ drop (Z.to_nat o + length bs) m).
Proof. intros. unfold mem_write. by rewrite decide_True by lia. Qed.

Lemma mem_write_inv o bs m m' :
  mem_write o bs m = Some m' ->
  0 <= o /\ o + Z.of_nat (length bs) <= Z.of_nat (length m)
  /\ m' = take (Z.to_nat o) m ++ bs ++ drop (Z.to_nat o + length bs) m.
Proof. unfold mem_write. case_decide; [|done]. intros [= <-]. tauto. Qed.

Lemma mem_write_length o bs m m' :
  mem_write o bs m = Some m' -> length m' = length m.
Proof.
  intros (? & ? & ->)%mem_write_inv.
  rewrite !length_app, length_take, length_drop. lia.
Qed.

(** Byte [i] of an array after a write. *)
Lemma mem_write_lookup o bs m m' i :
  mem_write o bs m = Some m' ->
  m' !! i = if decide (o <= Z.of_nat i < o + Z.of_nat (length bs))
            then bs !! (i - Z.to_nat o)%nat else m !! i.
Proof.
  intros (? & ? & ->)%mem_write_inv.
  destruct (decide (Z.of_nat i < o)).
  - rewrite decide_False by lia.
    rewrite lookup_app_l by (rewrite length_take; lia).
    apply lookup_take_lt. lia.
  - rewrite lookup_app_r by (rewrite length_take; lia).
    rewrite length_take, Nat.min_l by lia.
    case_decide.
    + apply lookup_app_l. lia.
    + rewrite lookup_app_r by lia. rewrite lookup_drop. f_equal. lia.
Qed.

Lemma mem_read_write_same o bs m m' :
  mem_write o bs m = Some m' ->
  mem_read o (Z.of_nat (length bs)) m' = Some bs.
Proof.
  intros Hw. pose proof (mem_write_length _ _ _ _ Hw) as Hlen.
  pose proof (mem_write_inv _ _ _ _ Hw) as (? & ? & _).
  rewrite mem_read_Some by lia. f_equal.
  apply list_eq; intros i. rewrite Nat2Z.id.
  destruct (decide (i < length bs)%nat).
  - rewrite lookup_take_lt, lookup_drop by done.
    rewrite (mem_write_lookup _ _ _ _ _ Hw), decide_True by lia.
    f_equal. lia.
  - rewrite lookup_take_ge by lia. symmetry. apply lookup_ge_None. lia.
Qed.

Lemma mem_read_write_disjoint o bs m m' o' l :
  mem_write o bs m = Some m' ->
  o' + l <= o \/ o + Z.of_nat (length bs) <= o' ->
  mem_read o' l m' = mem_read o' l m.
Proof.
  intros Hw Hd. pose proof (mem_write_length _ _ _ _ Hw) as Hlen.
  unfold mem_read. rewrite Hlen. case_decide; [|done]. f_equal.
  apply list_eq; intros i.
  destruct (decide (i < Z.to_nat l)%nat).
  - rewrite !lookup_take_lt, !lookup_drop by done.
    rewrite (mem_write_lookup _ _ _ _ _ Hw), decide_False by lia. done.
  - by rewrite !lookup_take_ge by lia.
Qed.

(** A read splits into the reads of its two halves. *)
Lemma mem_read_app o a b m xs ys :
  mem_read o a m = Some xs -> mem_read (o + a) b m = Some ys ->
  mem_read o (a + b) m = Some (xs ++ ys).
Proof.
  intros (? & ? & ? & ->)%mem_read_inv (? & ? & ? & ->)%mem_read_inv.
  rewrite mem_read_Some by lia. f_equal.
  rewrite Z2Nat.inj_add by lia.
  rewrite <- take_take_drop. f_equal.
  rewrite drop_drop. do 2 f_equal. lia.
Qed.

Lemma mem_read_suffix o a b m xs :
  0 <= a <= b -> mem_read o b m = Some xs ->
  mem_read (o + a) (b - a) m = Some (drop (Z.to_nat a) xs).
Proof.
  intros ? (? & ? & ? & ->)%mem_read_inv.
  rewrite mem_read_Some by lia. f_equal.
  replace (Z.to_nat b) with (Z.to_nat a + Z.to_nat (b - a))%nat by lia.
  rewrite <- take_drop_commute, drop_drop. do 2 f_equal; lia.
Qed.
End mem.

(** ** Descriptors *)

Section descriptors.
Context (tdesc : target_desc).
Implicit Types (n m : Z) (r : reg).

Lemma sum_widths_app (l k : list reg) :
  sum_widths (l ++ k) = sum_widths l + sum_widths k.
Proof.
  unfold sum_widths. rewrite fmap_app.
  generalize (width <$> l) (width <$> k). intros a b.
  induction a as [|x a IH]; simpl; lia.
Qed.

Lemma sum_widths_nonneg (l : list reg) :
  Forall (fun r => 0 <= width r) l -> 0 <= sum_widths l.
Proof.
  unfold sum_widths. induction 1; csimpl; lia.
Qed.

Lemma find_register_by_number_Some n r :
  find_register_by_number tdesc n = Some r ->
  0 <= n /\ reg_defs tdesc !! Z.to_nat n = Some r.
Proof. unfold find_register_by_number. case_decide; [|done]. auto. Qed.

Lemma bank_width_elim w first count n :
  bank_width tdesc w first count -> first <= n < first + count ->
  has_width tdesc w n.
Proof.
  unfold bank_width. rewrite Forall_forall. intros H ?. apply H.
  apply elem_of_seqZ. lia.
Qed.

Lemma reg_offset_next n r :
  find_register_by_number tdesc n = Some r ->
  reg_offset tdesc (n + 1) = reg_offset tdesc n + width r.
Proof.
  intros [? Hr]%find_register_by_number_Some. unfold reg_offset.
  replace (Z.to_nat (n + 1)) with (S (Z.to_nat n)) by lia.
  rewrite (take_S_r _ _ _ Hr).
  change (sum_widths (take (Z.to_nat n) (reg_defs tdesc) ++ [r])
          = sum_widths (take (Z.to_nat n) (reg_defs tdesc)) + width r).
  rewrite sum_widths_app. unfold sum_widths at 2. simpl. lia.
Qed.

Context (Hwf : tdesc_wf tdesc).

Lemma reg_offset_mono n m :
  n <= m -> reg_offset tdesc n <= reg_offset tdesc m.
Proof.
  intros ?. unfold reg_offset.
  replace (Z.to_nat m) with (Z.to_nat n + (Z.to_nat m - Z.to_nat n))%nat by lia.
  rewrite <- take_take_drop.
  change (sum_widths (take (Z.to_nat n) (reg_defs tdesc))
          <= sum_widths (take (Z.to_nat n) (reg_defs tdesc)
                         ++ take (Z.to_nat m - Z.to_nat n)
                              (drop (Z.to_nat n) (reg_defs tdesc)))).
  rewrite sum_widths_app.
  assert (0 <= sum_widths (take (Z.to_nat m - Z.to_nat n)
                             (drop (Z.to_nat n) (reg_defs tdesc)))); [|lia].
  apply sum_widths_nonneg. by apply Forall_take, Forall_drop.
Qed.

Lemma reg_offset_nonneg n : 0 <= reg_offset tdesc n.
Proof.
  unfold reg_offset.
  apply (sum_widths_nonneg (take (Z.to_nat n) (reg_defs tdesc))).
  by apply Forall_take.
Qed.

Lemma reg_offset_bound n : reg_offset tdesc n <= registers_size tdesc.
Proof.
  unfold reg_offset, registers_size.
  rewrite <- (take_drop (Z.to_nat n) (reg_defs tdesc)) at 2.
  change (sum_widths (take (Z.to_nat n) (reg_defs tdesc))
          <= sum_widths (take (Z.to_nat n) (reg_defs tdesc)
                         ++ drop (Z.to_nat n) (reg_defs tdesc))).
  rewrite sum_widths_app.
  assert (0 <= sum_widths (drop (Z.to_nat n) (reg_defs tdesc))); [|lia].
  apply sum_widths_nonneg. by apply Forall_drop.
Qed.

Lemma reg_width_nonneg n r :
  find_register_by_number tdesc n = Some r -> 0 <= width r.
Proof.
  intros [? Hr]%find_register_by_number_Some.
  unfold tdesc_wf in Hwf. rewrite Forall_forall in Hwf.
  apply Hwf. by eapply list_elem_of_lookup_2.
Qed.

(** Distinct registers occupy disjoint parts of the cache. *)
Lemma reg_extent_before n m r :
  find_register_by_number tdesc n = Some r -> n < m ->
  reg_offset tdesc n + width r <= reg_offset tdesc m.
Proof.
  intros Hr ?. rewrite <- (reg_offset_next _ _ Hr).
  apply reg_offset_mono. lia.
Qed.

Lemma reg_extent_bound n r :
  find_register_by_number tdesc n = Some r ->
  reg_offset tdesc n + width r <= registers_size tdesc.
Proof.
  intros Hr. rewrite <- (reg_offset_next _ _ Hr). apply reg_offset_bound.
Qed.

Lemma raw_register_Some n r (regs : list byte) :
  find_register_by_number tdesc n = Some r ->
  Z.of_nat (length regs) = registers_size tdesc ->
  raw_register tdesc n regs
  = Some (take (Z.to_nat (width r)) (drop (Z.to_nat (reg_offset tdesc n)) regs)).
Proof.
  intros Hr Hlen. unfold raw_register. rewrite Hr.
  apply mem_read_Some.
  - apply reg_offset_nonneg.
  - by eapply reg_width_nonneg.
  - rewrite Hlen. by apply reg_extent_bound.
Qed.
End descriptors.

(** A name that resolves, resolves to a register carrying that name. *)
Lemma find_regno_from_Some defs nm : forall i n,
  find_regno_from i defs nm = Ok n ->
  i <= n /\ exists r, defs !! Z.to_nat (n - i) = Some r /\ name r = nm.
Proof.
  induction defs as [|r defs IH]; intros i n; simpl; [done|].
  destruct (String.eqb nm (name r)) eqn:E.
  - intros [= <-]. split; [lia|]. exists r.
    rewrite Z.sub_diag. split; [done|]. symmetry. by apply String.eqb_eq.
  - intros [? (r' & Hr' & ?)]%IH. split; [lia|]. exists r'. split; [|done].
    replace (Z.to_nat (n - i)) with (S (Z.to_nat (n - (i + 1)))) by lia. done.
Qed.

Lemma find_regno_Some tdesc nm n :
  find_regno tdesc nm = Ok n ->
  exists r, find_register_by_number tdesc n = Some r /\ name r = nm.
Proof.
  intros [? (r & Hr & ?)]%find_regno_from_Some. exists r. split; [|done].
  unfold find_register_by_number. rewrite decide_True by lia.
  by rewrite Z.sub_0_r in Hr.
Qed.

Lemma find_regno_ne tdesc nm nm' n n' :
  find_regno tdesc nm = Ok n -> find_regno tdesc nm' = Ok n' ->
  nm <> nm' -> n <> n'.
Proof.
  intros (r & Hr & ?)%find_regno_Some (r' & Hr' & ?)%find_regno_Some ? ->.
  congruence.
Qed.

(** ** Single register accesses *)

Lemma bind_Ok {A B} (m : M A) (k : A -> M B) w a w' :
  m w = Ok (a, w') -> bind m k w = k a w'.
Proof. unfold bind. by intros ->. Qed.

Lemma bind_lift_Ok {A B} (r : result A) (k : A -> M B) w a :
  r = Ok a -> bind (lift r) k w = k a w.
Proof. by intros ->. Qed.

Lemma collect_register_by_name_Ok tdesc nm off n :
  find_regno tdesc nm = Ok n ->
  collect_register_by_name tdesc nm off = collect_register tdesc n off.
Proof. intros H. unfold collect_register_by_name. by rewrite H. Qed.

Lemma supply_register_by_name_Ok tdesc nm off n :
  find_regno tdesc nm = Ok n ->
  supply_register_by_name tdesc nm off = supply_register tdesc n off.
Proof. intros H. unfold supply_register_by_name. by rewrite H. Qed.

Lemma slot_before i j W : 0 <= W -> i < j -> i * W + W <= j * W.
Proof. nia. Qed.

Lemma slot_nonneg i W : 0 <= W -> 0 <= i -> 0 <= i * W.
Proof. nia. Qed.

Section steps.
Context (tdesc : target_desc) (Hwf : tdesc_wf tdesc).
Implicit Types (n m off : Z) (w : world) (r : reg).

Lemma raw_register_length n regs data :
  raw_register tdesc n regs = Some data ->
  exists r, find_register_by_number tdesc n = Some r
            /\ Z.of_nat (length data) = width r.
Proof.
  unfold raw_register.
  destruct (find_register_by_number tdesc n) as [r|]; [|done].
  intros ?%mem_read_length. eauto.
Qed.

Lemma raw_register_is_Some n r w :
  find_register_by_number tdesc n = Some r -> cache_wf tdesc w ->
  exists data, raw_register tdesc n (registers w) = Some data
               /\ Z.of_nat (length data) = width r.
Proof.
  intros Hr Hc. pose proof (raw_register_Some _ Hwf _ _ _ Hr Hc) as E.
  eexists. split; [exact E|].
  unfold raw_register in E. rewrite Hr in E. by apply mem_read_length in E.
Qed.

Lemma collect_register_spec n off w r :
  find_register_by_number tdesc n = Some r -> cache_wf tdesc w ->
  0 <= off -> off + width r <= Z.of_nat (length (buf w)) ->
  exists b,
    collect_register tdesc n off w
    = Ok (tt, {| registers := registers w; buf := b;
                 trace := trace w ++ [Collect n off] |})
    /\ length b = length (buf w)
    /\ mem_read off (width r) b = raw_register tdesc n (registers w)
    /\ (forall o l, o + l <= off \/ off + width r <= o ->
                    mem_read o l b = mem_read o l (buf w)).
Proof.
  intros Hr Hc ? ?.
  destruct (raw_register_is_Some _ _ _ Hr Hc) as (data & Hdata & Hlen).
  unfold collect_register. rewrite Hdata.
  destruct (mem_write off data (buf w)) as [b|] eqn:Hw.
  2:{ rewrite mem_write_Some in Hw by lia. done. }
  exists b. split; [done|]. split; [by eapply mem_write_length|].
  split.
  - rewrite <- Hlen. by eapply mem_read_write_same.
  - intros o l ?. eapply mem_read_write_disjoint; [done|lia].
Qed.

(** Writing register [n] of the cache leaves every other register. *)
Lemma raw_register_write n r data regs regs' m :
  find_register_by_number tdesc n = Some r ->
  Z.of_nat (length data) = width r ->
  mem_write (reg_offset tdesc n) data regs = Some regs' ->
  m <> n ->
  raw_register tdesc m regs' = raw_register tdesc m regs.
Proof.
  intros Hr Hlen Hw Hne. unfold raw_register.
  destruct (find_register_by_number tdesc m) as [r'|] eqn:Hr'; [|done].
  eapply mem_read_write_disjoint; [done|].
  destruct (decide (m < n)).
  - left. by apply reg_extent_before.
  - right. rewrite Hlen. apply reg_extent_before; [done..|lia].
Qed.

Lemma supply_register_spec n off w r :
  find_register_by_number tdesc n = Some r -> cache_wf tdesc w ->
  0 <= off -> off + width r <= Z.of_nat (length (buf w)) ->
  exists rs,
    supply_register tdesc n off w
    = Ok (tt, {| registers := rs; buf := buf w;
                 trace := trace w ++ [Supply n off] |})
    /\ length rs = length (registers w)
    /\ raw_register tdesc n rs = mem_read off (width r) (buf w)
    /\ is_Some (raw_register tdesc n rs)
    /\ (forall m, m <> n ->
                  raw_register tdesc m rs = raw_register tdesc m (registers w)).
Proof.
  intros Hr Hc ? ?. pose proof (reg_width_nonneg _ Hwf _ _ Hr).
  unfold supply_register. rewrite Hr.
  rewrite mem_read_Some by lia.
  set (data := take _ _).
  assert (mem_read off (width r) (buf w) = Some data) as Hdata
    by (by apply mem_read_Some).
  pose proof (mem_read_length _ _ _ _ Hdata) as Hlen.
  pose proof (reg_offset_nonneg _ Hwf n).
  pose proof (reg_extent_bound _ Hwf _ _ Hr).
  destruct (mem_write (reg_offset tdesc n) data (registers w)) as [rs|] eqn:Hw.
  2:{ rewrite mem_write_Some in Hw; [done|lia|]. unfold cache_wf in Hc. lia. }
  exists rs. split; [done|]. split; [by eapply mem_write_length|].
  assert (raw_register tdesc n rs = Some data) as E.
  { unfold raw_register. rewrite Hr, <- Hlen. by eapply mem_read_write_same. }
  split; [done|]. split; [by rewrite E|].
  intros m ?. by eapply raw_register_write.
Qed.

Lemma supply_register_zeroed_spec n w r :
  find_register_by_number tdesc n = Some r -> cache_wf tdesc w ->
  exists rs,
    supply_register_zeroed tdesc n w
    = Ok (tt, {| registers := rs; buf := buf w;
                 trace := trace w ++ [Zeroed n] |})
    /\ length rs = length (registers w)
    /\ raw_register tdesc n rs = Some (zero_bytes (width r))
    /\ (forall m, m <> n ->
                  raw_register tdesc m rs = raw_register tdesc m (registers w)).
Proof.
  intros Hr Hc. pose proof (reg_width_nonneg _ Hwf _ _ Hr).
  unfold supply_register_zeroed. rewrite Hr, decide_True by done.
  assert (Z.of_nat (length (zero_bytes (width r))) = width r) as Hlen.
  { unfold zero_bytes. rewrite length_replicate. lia. }
  pose proof (reg_offset_nonneg _ Hwf n).
  pose proof (reg_extent_bound _ Hwf _ _ Hr).
  destruct (mem_write (reg_offset tdesc n) (zero_bytes (width r)) (registers w))
    as [rs|] eqn:Hw.
  2:{ rewrite mem_write_Some in Hw; [done|lia|]. unfold cache_wf in Hc. lia. }
  exists rs. split; [done|]. split; [by eapply mem_write_length|]. split.
  - unfold raw_register. rewrite Hr. rewrite <- Hlen at 1.
    by eapply mem_read_write_same.
  - intros m ?. by eapply raw_register_write.
Qed.
End steps.

(** ** The transfer loops

    Round [i] of a loop moves register [base + i], [wd] bytes wide, to or
    from offset [i * W] of the buffer. *)

Lemma slot_cases i j W :
  0 <= W -> (i < j /\ i * W + W <= j * W) \/ (j <= i /\ j * W <= i * W).
Proof. intros. destruct (decide (i < j)); [left|right]; split; nia. Qed.

Section loops.
Context (tdesc : target_desc) (Hwf : tdesc_wf tdesc).
Implicit Types (n m off lo : Z) (w : world) (r : reg) (k : nat).

Lemma collect_loop base W wd : forall k lo w,
  0 <= lo -> wd <= W -> cache_wf tdesc w ->
  (forall i, lo <= i < lo + Z.of_nat k -> has_width tdesc wd (base + i)) ->
  (lo + Z.of_nat k) * W <= Z.of_nat (length (buf w)) ->
  exists w',
    iterate k lo (fun i => collect_register tdesc (base + i) (i * W)) w = Ok (tt, w')
    /\ registers w' = registers w
    /\ length (buf w') = length (buf w)
    /\ trace w' = trace w ++ ((fun i => Collect (base + i) (i * W))
                                <$> seqZ lo (Z.of_nat k))
    /\ (forall i, lo <= i < lo + Z.of_nat k ->
          mem_read (i * W) wd (buf w')
          = raw_register tdesc (base + i) (registers w))
    /\ (forall o l,
          (forall i, lo <= i < lo + Z.of_nat k ->
             o + l <= i * W \/ i * W + wd <= o) ->
          mem_read o l (buf w') = mem_read o l (buf w)).
Proof.
  induction k as [|k IH]; intros lo w Hlo HW Hc Hregs Hbuf.
  - exists w. simpl. rewrite app_nil_r. repeat split; auto. intros; lia.
  - destruct (Hregs lo) as (r & Hr & Hw); [lia|].
    pose proof (reg_width_nonneg _ Hwf _ _ Hr).
    assert (0 <= W) as HW0 by lia.
    pose proof (slot_nonneg lo W HW0 Hlo).
    pose proof (slot_before lo (lo + Z.of_nat (S k)) W HW0 ltac:(lia)).
    destruct (collect_register_spec tdesc Hwf (base + lo) (lo * W) w r)
      as (b & Hstep & Hlenb & Hread & Hframe); [done|done|lia|lia|].
    rewrite Hw in *.
    set (w1 := {| registers := registers w; buf := b;
                  trace := trace w ++ [Collect (base + lo) (lo * W)] |}) in Hstep.
    destruct (IH (lo + 1) w1) as (w' & Hrun & Hregs' & Hlen' & Htr' & Hcont & Hfr).
    { lia. } { done. } { done. }
    { intros i ?. apply Hregs. lia. }
    { simpl. rewrite Hlenb. replace (lo + 1 + Z.of_nat k) with (lo + Z.of_nat (S k)) by lia.
      done. }
    exists w'. split.
    { simpl. by rewrite (bind_Ok _ _ _ _ _ Hstep). }
    split; [done|]. split; [by rewrite Hlen'|]. split.
    { rewrite Htr'. simpl. rewrite <- app_assoc. f_equal.
      rewrite (seqZ_cons lo) by lia. simpl. do 3 f_equal; lia. }
    split.
    + intros i Hi. destruct (decide (i = lo)) as [->|].
      * rewrite Hfr; [done|].
        intros j Hj. left.
        pose proof (slot_before lo j W HW0 ltac:(lia)). lia.
      * apply (Hcont i). lia.
    + intros o l Hd. rewrite Hfr.
      * apply Hframe. destruct (Hd lo); [lia|lia..].
      * intros j Hj. apply Hd. lia.
Qed.

Lemma supply_loop base W wd : forall k lo w,
  0 <= lo -> wd <= W -> cache_wf tdesc w ->
  (forall i, lo <= i < lo + Z.of_nat k -> has_width tdesc wd (base + i)) ->
  (lo + Z.of_nat k) * W <= Z.of_nat (length (buf w)) ->
  exists w',
    iterate k lo (fun i => supply_register tdesc (base + i) (i * W)) w = Ok (tt, w')
    /\ buf w' = buf w
    /\ length (registers w') = length (registers w)
    /\ trace w' = trace w ++ ((fun i => Supply (base + i) (i * W))
                                <$> seqZ lo (Z.of_nat k))
    /\ (forall i, lo <= i < lo + Z.of_nat k ->
          raw_register tdesc (base + i) (registers w')
          = mem_read (i * W) wd (buf w))
    /\ (forall m, ~ (lo <= m - base < lo + Z.of_nat k) ->
          raw_register tdesc m (registers w')
          = raw_register tdesc m (registers w)).
Proof.
  induction k as [|k IH]; intros lo w Hlo HW Hc Hregs Hbuf.
  - exists w. simpl. rewrite app_nil_r. repeat split; auto; intros; lia.
  - destruct (Hregs lo) as (r & Hr & Hw); [lia|].
    pose proof (reg_width_nonneg _ Hwf _ _ Hr).
    assert (0 <= W) as HW0 by lia.
    pose proof (slot_nonneg lo W HW0 Hlo).
    pose proof (slot_before lo (lo + Z.of_nat (S k)) W HW0 ltac:(lia)).
    destruct (supply_register_spec tdesc Hwf (base + lo) (lo * W) w r)
      as (rs & Hstep & Hlenrs & Hread & Hsome & Hframe); [done|done|lia|lia|].
    rewrite Hw in *.
    set (w1 := {| registers := rs; buf := buf w;
                  trace := trace w ++ [Supply (base + lo) (lo * W)] |}) in Hstep.
    destruct (IH (lo + 1) w1) as (w' & Hrun & Hbuf' & Hlen' & Htr' & Hcont & Hfr).
    { lia. } { done. }
    { unfold cache_wf in *. simpl. by rewrite Hlenrs. }
    { intros i ?. apply Hregs. lia. }
    { simpl. replace (lo + 1 + Z.of_nat k) with (lo + Z.of_nat (S k)) by lia.
      done. }
    exists w'. split.
    { simpl. by rewrite (bind_Ok _ _ _ _ _ Hstep). }
    split; [done|]. split; [by rewrite Hlen'|]. split.
    { rewrite Htr'. simpl. rewrite <- app_assoc. f_equal.
      rewrite (seqZ_cons lo) by lia. simpl. do 3 f_equal; lia. }
    split.
    + intros i Hi. destruct (decide (i = lo)) as [->|].
      * rewrite Hfr by lia. simpl. done.
      * apply (Hcont i). lia.
    + intros m Hm. rewrite Hfr by lia. simpl. apply Hframe. lia.
Qed.
End loops.

(** ** The general-purpose bank without the capability extension *)

Lemma collect_pass_touches null pc stride :
  null < pc -> touches (collect_pass null pc stride) (pc - null).
Proof.
  intros ?. unfold touches, collect_pass. split.
  - simpl. rewrite <- list_fmap_compose. apply NoDup_cons. split.
    + intros (i & -> & Hi%elem_of_seqZ)%list_elem_of_fmap. simpl in *. lia.
    + apply NoDup_fmap_2_strong; [|apply NoDup_seqZ].
      intros i j _ _. simpl. lia.
  - simpl. rewrite length_fmap, length_seqZ. lia.
Qed.

Lemma supply_pass_touches null pc stride :
  null < pc -> touches (supply_pass null pc stride) (pc - null + 1).
Proof.
  intros ?. unfold touches, supply_pass. split.
  - simpl. rewrite <- list_fmap_compose. apply NoDup_cons. split.
    + intros [?|(i & -> & Hi%elem_of_seqZ)%list_elem_of_fmap]%elem_of_cons;
        simpl in *; lia.
    + apply NoDup_cons. split.
      * intros (i & Heq & Hi%elem_of_seqZ)%list_elem_of_fmap. simpl in *. lia.
      * apply NoDup_fmap_2_strong; [|apply NoDup_seqZ].
        intros i j _ _. simpl. lia.
  - simpl. rewrite length_fmap, length_seqZ. lia.
Qed.

Section plain_gregset.
Context (tdesc : target_desc) (zn pn xlen : Z).
Context (L : plain_layout tdesc zn pn xlen).
Implicit Types (w : world).

Local Lemma plain_reg i :
  1 <= i <= pn - zn ->
  exists r, find_register_by_number tdesc (zn + i) = Some r /\ width r = xlen.
Proof.
  intros ?. apply (bank_width_elim tdesc xlen (zn + 1) (pn - zn)); [apply L|lia].
Qed.

Local Lemma plain_pc_reg :
  exists r, find_register_by_number tdesc pn = Some r /\ width r = xlen.
Proof.
  destruct L. replace pn with (zn + (pn - zn)) by lia. apply plain_reg. lia.
Qed.

Local Lemma plain_xlen_nonneg : 0 <= xlen.
Proof.
  destruct plain_pc_reg as (r & Hr & <-).
  eapply reg_width_nonneg; [apply L|done].
Qed.

Local Lemma plain_regsize w :
  (let* regno := lift (find_regno tdesc "pc") in lift (register_size tdesc regno)) w
  = Ok (xlen, w).
Proof.
  destruct plain_pc_reg as (r & Hr & <-).
  rewrite (bind_lift_Ok _ _ _ pn) by apply L.
  unfold register_size. by rewrite Hr.
Qed.

(** Collecting: the call returns, the cache is unchanged, and the buffer
    holds [pc] at offset 0 and register [zn + i] at offset [i * xlen]. *)
Lemma plain_fill_spec w :
  cache_wf tdesc w ->
  (pn - zn) * xlen <= Z.of_nat (length (buf w)) ->
  exists w',
    riscv_fill_gregset tdesc w = Ok (tt, w')
    /\ registers w' = registers w
    /\ length (buf w') = length (buf w)
    /\ trace w' = trace w ++ collect_pass zn pn xlen
    /\ mem_read 0 xlen (buf w') = raw_register tdesc pn (registers w)
    /\ (forall i, 1 <= i < pn - zn ->
          mem_read (i * xlen) xlen (buf w')
          = raw_register tdesc (zn + i) (registers w)).
Proof.
  intros Hc Hbuf. pose proof plain_xlen_nonneg as Hx.
  pose proof (plain_order _ _ _ _ L) as Ho.
  destruct plain_pc_reg as (rp & Hrp & Hwp).
  unfold riscv_fill_gregset.
  change "org.gnu.gdb.riscv.cheri" with cheri_feature.
  rewrite (plain_feature _ _ _ _ L).
  rewrite (bind_Ok _ _ _ _ _ (plain_regsize w)).
  rewrite (bind_lift_Ok _ _ _ zn) by apply L.
  rewrite (bind_lift_Ok _ _ _ pn) by apply L.
  pose proof (slot_before 0 (pn - zn) xlen Hx ltac:(lia)).
  destruct (collect_register_spec tdesc (plain_wf _ _ _ _ L) pn 0 w rp)
    as (b & Hstep & Hlenb & Hread & _); [done|done|lia|lia|].
  rewrite (bind_Ok _ _ _ _ _ Hstep). unfold for_loop.
  set (w1 := {| registers := registers w; buf := b;
                trace := trace w ++ [Collect pn 0] |}).
  destruct (collect_loop tdesc (plain_wf _ _ _ _ L) zn xlen xlen
              (Z.to_nat (pn - zn - 1)) 1 w1)
    as (w' & Hrun & Hregs & Hlen & Htr & Hcont & Hfr).
  { lia. } { done. } { done. }
  { intros i ?. apply plain_reg. lia. }
  { simpl. rewrite Hlenb. rewrite Z2Nat.id by lia.
    replace (1 + (pn - zn - 1)) with (pn - zn) by lia. done. }
  rewrite Z2Nat.id in * by lia.
  exists w'. split; [done|]. split; [done|]. split; [by rewrite Hlen|].
  split; [|split].
  - rewrite Htr. simpl. by rewrite <- app_assoc.
  - rewrite Hfr; [by rewrite <- Hwp|].
    intros i ?. left. pose proof (slot_before 0 i xlen Hx ltac:(lia)). lia.
  - intros i ?. apply Hcont. lia.
Qed.

(** Supplying: the call returns, the buffer is unchanged, [pc] and the
    registers [zn + i] hold the bytes found at their offsets, [zero] is
    cleared, and no other register changes. *)
Lemma plain_store_spec w :
  cache_wf tdesc w ->
  (pn - zn) * xlen <= Z.of_nat (length (buf w)) ->
  exists w',
    riscv_store_gregset tdesc w = Ok (tt, w')
    /\ buf w' = buf w
    /\ length (registers w') = length (registers w)
    /\ trace w' = trace w ++ supply_pass zn pn xlen
    /\ raw_register tdesc pn (registers w') = mem_read 0 xlen (buf w)
    /\ register_is_zero tdesc zn (registers w')
    /\ (forall i, 1 <= i < pn - zn ->
          raw_register tdesc (zn + i) (registers w')
          = mem_read (i * xlen) xlen (buf w))
    /\ (forall m, ~ (zn <= m <= pn) ->
          raw_register tdesc m (registers w')
          = raw_register tdesc m (registers w)).
Proof.
  intros Hc Hbuf. pose proof plain_xlen_nonneg as Hx.
  pose proof (plain_order _ _ _ _ L) as Ho.
  pose proof (plain_wf _ _ _ _ L) as Hwf.
  destruct plain_pc_reg as (rp & Hrp & Hwp).
  destruct (find_regno_Some _ _ _ (plain_zero _ _ _ _ L)) as (rz & Hrz & _).
  unfold riscv_store_gregset.
  change "org.gnu.gdb.riscv.cheri" with cheri_feature.
  rewrite (plain_feature _ _ _ _ L).
  rewrite (bind_Ok _ _ _ _ _ (plain_regsize w)).
  rewrite (bind_lift_Ok _ _ _ zn) by apply L.
  rewrite (bind_lift_Ok _ _ _ pn) by apply L.
  pose proof (slot_before 0 (pn - zn) xlen Hx ltac:(lia)).
  destruct (supply_register_spec tdesc Hwf pn 0 w rp)
    as (rs1 & Hstep1 & Hlen1 & Hread1 & _ & Hframe1); [done|done|lia|lia|].
  rewrite (bind_Ok _ _ _ _ _ Hstep1).
  set (w1 := {| registers := rs1; buf := buf w;
                trace := trace w ++ [Supply pn 0] |}).
  assert (cache_wf tdesc w1) as Hc1.
  { unfold cache_wf in *. simpl. by rewrite Hlen1. }
  destruct (supply_register_zeroed_spec tdesc Hwf zn w1 rz)
    as (rs2 & Hstep2 & Hlen2 & Hzero2 & Hframe2); [done|done|].
  rewrite (bind_Ok _ _ _ _ _ Hstep2). unfold for_loop.
  set (w2 := {| registers := rs2; buf := buf w1;
                trace := trace w1 ++ [Zeroed zn] |}).
  assert (cache_wf tdesc w2) as Hc2.
  { unfold cache_wf in *. simpl in *. by rewrite Hlen2. }
  destruct (supply_loop tdesc Hwf zn xlen xlen (Z.to_nat (pn - zn - 1)) 1 w2)
    as (w' & Hrun & Hbuf' & Hlen & Htr & Hcont & Hfr).
  { lia. } { done. } { done. }
  { intros i ?. apply plain_reg. lia. }
  { simpl. rewrite Z2Nat.id by lia.
    replace (1 + (pn - zn - 1)) with (pn - zn) by lia. done. }
  rewrite Z2Nat.id in * by lia. simpl in *.
  exists w'. split; [done|]. split; [done|].
  split; [by rewrite Hlen, Hlen2|].
  split; [|split; [|split; [|split]]].
  - rewrite Htr. unfold supply_pass. by rewrite <- !app_assoc.
  - rewrite Hfr by lia. rewrite Hframe2 by lia. by rewrite Hread1, Hwp.
  - exists rz. split; [done|]. by rewrite Hfr by lia.
  - intros i ?. apply Hcont. lia.
  - intros m ?. rewrite Hfr by lia. rewrite Hframe2 by lia.
    apply Hframe1. lia.
Qed.
End plain_gregset.

(** ** The floating-point bank *)

Section fpregset.
Context (tdesc : target_desc) (fn cs flen wcs : Z).
Context (L : fp_layout tdesc fn cs flen wcs).
Implicit Types (w : world).

Local Lemma fp_reg i :
  0 <= i < ELF_NFPREG - 1 ->
  exists r, find_register_by_number tdesc (fn + i) = Some r /\ width r = flen.
Proof.
  intros ?. apply (bank_width_elim tdesc flen fn (ELF_NFPREG - 1)); [apply L|lia].
Qed.

Local Lemma fp_flen_nonneg : 0 <= flen.
Proof.
  destruct (fp_reg 0) as (r & Hr & <-); [done|].
  eapply reg_width_nonneg; [apply L|done].
Qed.

Local Lemma fp_regsize : register_size tdesc fn = Ok flen.
Proof.
  destruct (fp_reg 0) as (r & Hr & <-); [done|].
  rewrite Z.add_0_r in Hr. unfold register_size. by rewrite Hr.
Qed.

Lemma fp_fill_spec w :
  cache_wf tdesc w ->
  (ELF_NFPREG - 1) * flen + wcs <= Z.of_nat (length (buf w)) ->
  exists w',
    riscv_fill_fpregset tdesc w = Ok (tt, w')
    /\ registers w' = registers w
    /\ length (buf w') = length (buf w)
    /\ trace w' = trace w ++ fp_collect_pass fn cs flen
    /\ (forall i, 0 <= i < ELF_NFPREG - 1 ->
          mem_read (i * flen) flen (buf w')
          = raw_register tdesc (fn + i) (registers w))
    /\ mem_read ((ELF_NFPREG - 1) * flen) wcs (buf w')
       = raw_register tdesc cs (registers w).
Proof.
  intros Hc Hbuf. pose proof fp_flen_nonneg as Hx.
  pose proof (fp_wf _ _ _ _ _ L) as Hwf.
  destruct (fp_fcsr_width _ _ _ _ _ L) as (rc & Hrc & Hwc).
  pose proof (reg_width_nonneg _ Hwf _ _ Hrc).
  unfold riscv_fill_fpregset.
  rewrite (bind_lift_Ok _ _ _ fn) by apply L.
  rewrite (bind_lift_Ok _ _ _ flen) by apply fp_regsize.
  unfold for_loop.
  destruct (collect_loop tdesc Hwf fn flen flen (Z.to_nat (ELF_NFPREG - 1 - 0)) 0 w)
    as (w1 & Hrun & Hregs & Hlen & Htr & Hcont & Hfr).
  { lia. } { done. } { done. }
  { intros i ?. apply fp_reg. unfold ELF_NFPREG in *. lia. }
  { unfold ELF_NFPREG in *. lia. }
  rewrite (bind_Ok _ _ _ _ _ Hrun).
  unfold collect_register_by_name.
  rewrite (bind_lift_Ok _ _ _ cs) by apply L.
  assert (cache_wf tdesc w1) as Hc1.
  { unfold cache_wf in *. by rewrite Hregs. }
  destruct (collect_register_spec tdesc Hwf cs ((ELF_NFPREG - 1) * flen) w1 rc)
    as (b & Hstep & Hlenb & Hread & Hframe); [done|done|unfold ELF_NFPREG; lia|lia|].
  eexists. split; [exact Hstep|]. simpl.
  split; [done|]. split; [by rewrite Hlenb|].
  split; [|split].
  - rewrite Htr. unfold fp_collect_pass. by rewrite <- app_assoc.
  - intros i ?. rewrite Hframe.
    + apply Hcont. unfold ELF_NFPREG in *. lia.
    + left. pose proof (slot_before i (ELF_NFPREG - 1) flen Hx ltac:(lia)). lia.
  - by rewrite <- Hwc, Hread, Hregs.
Qed.

Lemma fp_store_spec w :
  cache_wf tdesc w ->
  (ELF_NFPREG - 1) * flen + wcs <= Z.of_nat (length (buf w)) ->
  exists w',
    riscv_store_fpregset tdesc w = Ok (tt, w')
    /\ buf w' = buf w
    /\ length (registers w') = length (registers w)
    /\ trace w' = trace w ++ fp_supply_pass fn cs flen
    /\ (forall i, 0 <= i < ELF_NFPREG - 1 ->
          raw_register tdesc (fn + i) (registers w')
          = mem_read (i * flen) flen (buf w))
    /\ raw_register tdesc cs (registers w')
       = mem_read ((ELF_NFPREG - 1) * flen) wcs (buf w)
    /\ (forall m, ~ (fn <= m < fn + (ELF_NFPREG - 1)) -> m <> cs ->
          raw_register tdesc m (registers w')
          = raw_register tdesc m (registers w)).
Proof.
  intros Hc Hbuf. pose proof fp_flen_nonneg as Hx.
  pose proof (fp_wf _ _ _ _ _ L) as Hwf.
  pose proof (fp_fcsr_outside _ _ _ _ _ L) as Hout.
  destruct (fp_fcsr_width _ _ _ _ _ L) as (rc & Hrc & Hwc).
  pose proof (reg_width_nonneg _ Hwf _ _ Hrc).
  unfold riscv_store_fpregset.
  rewrite (bind_lift_Ok _ _ _ fn) by apply L.
  rewrite (bind_lift_Ok _ _ _ flen) by apply fp_regsize.
  unfold for_loop.
  destruct (supply_loop tdesc Hwf fn flen flen (Z.to_nat (ELF_NFPREG - 1 - 0)) 0 w)
    as (w1 & Hrun & Hbuf1 & Hlen & Htr & Hcont & Hfr).
  { lia. } { done. } { done. }
  { intros i ?. apply fp_reg. unfold ELF_NFPREG in *. lia. }
  { unfold ELF_NFPREG in *. lia. }
  rewrite (bind_Ok _ _ _ _ _ Hrun).
  unfold supply_register_by_name.
  rewrite (bind_lift_Ok _ _ _ cs) by apply L.
  assert (cache_wf tdesc w1) as Hc1.
  { unfold cache_wf in *. by rewrite Hlen. }
  destruct (supply_register_spec tdesc Hwf cs ((ELF_NFPREG - 1) * flen) w1 rc)
    as (rs & Hstep & Hlenrs & Hread & _ & Hframe);
    [done|done|unfold ELF_NFPREG; lia|rewrite Hbuf1; lia|].
  eexists. split; [exact Hstep|]. simpl.
  split; [done|]. split; [by rewrite Hlenrs|].
  split; [|split; [|split]].
  - rewrite Htr. unfold fp_supply_pass. by rewrite <- app_assoc.
  - intros i ?. rewrite Hframe by (unfold ELF_NFPREG in *; lia).
    apply Hcont. unfold ELF_NFPREG in *. lia.
  - by rewrite Hread, Hwc, Hbuf1.
  - intros m ? ?. rewrite Hframe by done. apply Hfr.
    unfold ELF_NFPREG in *. lia.
Qed.
End fpregset.

(** ** The general-purpose bank with the capability extension *)

Section cheri_gregset.
Context (tdesc : target_desc) (cn pcn dn zn pn clen xlen : Z).
Context (L : cheri_layout tdesc cn pcn dn zn pn clen xlen).
Implicit Types (w : world).

Local Lemma cap_reg i : 1 <= i <= pcn - cn -> has_width tdesc clen (cn + i).
Proof.
  intros ?. apply (bank_width_elim tdesc clen (cn + 1) (pcn - cn)); [apply L|lia].
Qed.

Local Lemma cheri_plain_reg i : 1 <= i <= pn - zn -> has_width tdesc xlen (zn + i).
Proof.
  intros ?. apply (bank_width_elim tdesc xlen (zn + 1) (pn - zn)); [apply L|lia].
Qed.

Local Lemma pcc_reg : has_width tdesc clen pcn.
Proof.
  destruct L. replace pcn with (cn + (pcn - cn)) by lia. apply cap_reg. lia.
Qed.

Local Lemma cheri_pc_reg : has_width tdesc xlen pn.
Proof.
  destruct L. replace pn with (zn + (pn - zn)) by lia. apply cheri_plain_reg. lia.
Qed.

Local Lemma cheri_xlen_nonneg : 0 <= xlen.
Proof.
  destruct cheri_pc_reg as (r & Hr & <-).
  eapply reg_width_nonneg; [apply L|done].
Qed.

(** The capability pass of the collect callback. *)
Local Lemma cheri_fill_pass1 w :
  cache_wf tdesc w ->
  (pcn - cn + 1) * clen <= Z.of_nat (length (buf w)) ->
  exists w',
    (let* regno_null := lift (find_regno tdesc "cnull") in
     let* regno_pc := lift (find_regno tdesc "pcc") in
     let* regsize := lift (register_size tdesc regno_pc) in
     let* _ := collect_register tdesc regno_pc 0 in
     let* _ := collect_register_by_name tdesc "ddc"
                 ((regno_pc - regno_null) * regsize) in
     let* _ := for_loop 1 (regno_pc - regno_null)
                 (fun i => collect_register tdesc (regno_null + i) (i * regsize)) in
     ret regsize) w = Ok (clen, w')
    /\ registers w' = registers w
    /\ length (buf w') = length (buf w)
    /\ trace w' = trace w ++ cheri_collect_pass cn pcn dn clen
    /\ mem_read 0 clen (buf w') = raw_register tdesc pcn (registers w)
    /\ mem_read ((pcn - cn) * clen) clen (buf w')
       = raw_register tdesc dn (registers w)
    /\ (forall i, 1 <= i < pcn - cn ->
          mem_read (i * clen) clen (buf w')
          = raw_register tdesc (cn + i) (registers w)).
Proof.
  intros Hc Hbuf. pose proof cheri_xlen_nonneg as Hx.
  pose proof (cheri_wf _ _ _ _ _ _ _ _ L) as Hwf.
  pose proof (cheri_cap_order _ _ _ _ _ _ _ _ L) as Ho.
  pose proof (cheri_xlen_le _ _ _ _ _ _ _ _ L) as Hle.
  destruct pcc_reg as (rp & Hrp & Hwp).
  destruct (cheri_ddc_width _ _ _ _ _ _ _ _ L) as (rd & Hrd & Hwd).
  rewrite (bind_lift_Ok _ _ _ cn) by apply L.
  rewrite (bind_lift_Ok _ _ _ pcn) by apply L.
  rewrite (bind_lift_Ok _ _ _ clen)
    by (unfold register_size; rewrite Hrp; by f_equal).
  destruct (collect_register_spec tdesc Hwf pcn 0 w rp)
    as (b1 & Hstep1 & Hlen1 & Hread1 & _); [done|done|lia|nia|].
  rewrite (bind_Ok _ _ _ _ _ Hstep1).
  set (w1 := {| registers := registers w; buf := b1;
                trace := trace w ++ [Collect pcn 0] |}).
  rewrite (collect_register_by_name_Ok _ _ _ dn) by apply L.
  destruct (collect_register_spec tdesc Hwf dn ((pcn - cn) * clen) w1 rd)
    as (b2 & Hstep2 & Hlen2 & Hread2 & Hframe2); [done|done|nia|simpl; nia|].
  rewrite (bind_Ok _ _ _ _ _ Hstep2).
  set (w2 := {| registers := registers w1; buf := b2;
                trace := trace w1 ++ [Collect dn ((pcn - cn) * clen)] |}).
  unfold for_loop.
  destruct (collect_loop tdesc Hwf cn clen clen (Z.to_nat (pcn - cn - 1)) 1 w2)
    as (w3 & Hrun & Hregs & Hlen & Htr & Hcont & Hfr).
  { lia. } { lia. } { done. }
  { intros i ?. apply cap_reg. lia. }
  { simpl. simpl in Hlen2. rewrite Hlen2, Hlen1. nia. }
  rewrite (bind_Ok _ _ _ _ _ Hrun).
  rewrite Z2Nat.id in * by lia. simpl in *. rewrite Hwp, Hwd in *.
  exists w3. split; [done|]. split; [done|].
  split; [by rewrite Hlen, Hlen2, Hlen1|].
  split; [|split; [|split]].
  - rewrite Htr. unfold cheri_collect_pass. by rewrite <- !app_assoc.
  - rewrite Hfr by (intros; nia). rewrite Hframe2 by nia. done.
  - rewrite Hfr by (intros; nia). done.
  - intros i ?. apply Hcont. lia.
Qed.

(** Collecting: the capability pass fills the slots, then the plain pass
    overlays the low [xlen] bytes of the first slots. *)
Lemma cheri_fill_spec w :
  cache_wf tdesc w ->
  (pcn - cn + 1) * clen <= Z.of_nat (length (buf w)) ->
  exists w',
    riscv_fill_gregset tdesc w = Ok (tt, w')
    /\ registers w' = registers w
    /\ length (buf w') = length (buf w)
    /\ trace w' = trace w ++ cheri_collect_pass cn pcn dn clen
                          ++ collect_pass zn pn clen
    /\ mem_read 0 xlen (buf w') = raw_register tdesc pn (registers w)
    /\ mem_read xlen (clen - xlen) (buf w')
       = drop (Z.to_nat xlen) <$> raw_register tdesc pcn (registers w)
    /\ (forall i, 1 <= i < pn - zn ->
          mem_read (i * clen) xlen (buf w')
          = raw_register tdesc (zn + i) (registers w))
    /\ (forall i, 1 <= i < pn - zn ->
          mem_read (i * clen + xlen) (clen - xlen) (buf w')
          = drop (Z.to_nat xlen) <$> raw_register tdesc (cn + i) (registers w))
    /\ (forall i, pn - zn <= i < pcn - cn ->
          mem_read (i * clen) clen (buf w')
          = raw_register tdesc (cn + i) (registers w))
    /\ mem_read ((pcn - cn) * clen) clen (buf w')
       = raw_register tdesc dn (registers w).
Proof.
  intros Hc Hbuf. pose proof cheri_xlen_nonneg as Hx.
  pose proof (cheri_wf _ _ _ _ _ _ _ _ L) as Hwf.
  pose proof (cheri_cap_order _ _ _ _ _ _ _ _ L) as Ho.
  pose proof (cheri_plain_order _ _ _ _ _ _ _ _ L) as Ho'.
  pose proof (cheri_xlen_le _ _ _ _ _ _ _ _ L) as Hle.
  pose proof (cheri_span _ _ _ _ _ _ _ _ L) as Hspan.
  destruct cheri_pc_reg as (rp & Hrp & Hwp).
  unfold riscv_fill_gregset.
  change "org.gnu.gdb.riscv.cheri" with cheri_feature.
  rewrite (cheri_present _ _ _ _ _ _ _ _ L).
  destruct (cheri_fill_pass1 w Hc Hbuf)
    as (w3 & Hp1 & Hregs3 & Hlen3 & Htr3 & Hpcc & Hddc & Hcap).
  rewrite (bind_Ok _ _ _ _ _ Hp1).
  rewrite (bind_lift_Ok _ _ _ zn) by apply L.
  rewrite (bind_lift_Ok _ _ _ pn) by apply L.
  assert (cache_wf tdesc w3) as Hc3.
  { unfold cache_wf in *. by rewrite Hregs3. }
  destruct (collect_register_spec tdesc Hwf pn 0 w3 rp)
    as (b4 & Hstep4 & Hlen4 & Hread4 & Hframe4); [done|done|lia|nia|].
  rewrite (bind_Ok _ _ _ _ _ Hstep4).
  set (w4 := {| registers := registers w3; buf := b4;
                trace := trace w3 ++ [Collect pn 0] |}).
  unfold for_loop.
  destruct (collect_loop tdesc Hwf zn clen xlen (Z.to_nat (pn - zn - 1)) 1 w4)
    as (w' & Hrun & Hregs & Hlen & Htr & Hcont & Hfr).
  { lia. } { lia. } { done. }
  { intros i ?. apply cheri_plain_reg. lia. }
  { simpl. rewrite Hlen4, Hlen3. nia. }
  rewrite Z2Nat.id in * by lia. simpl in *. rewrite Hwp in *.
  exists w'. split; [done|]. split; [by rewrite Hregs|].
  split; [by rewrite Hlen, Hlen4|].
  assert (forall n, is_Some (raw_register tdesc n (registers w)) \/
                    raw_register tdesc n (registers w) = None) as Hcase.
  { intros n. destruct (raw_register tdesc n (registers w)); eauto. }
  split; [|split; [|split; [|split; [|split; [|split]]]]].
  - rewrite Htr, Htr3. unfold collect_pass. simpl.
    rewrite <- !app_assoc. done.
  - rewrite Hfr by (intros; nia). by rewrite Hread4, Hregs3.
  - rewrite Hfr by (intros; nia). rewrite Hframe4 by lia.
    destruct pcc_reg as (rc & Hrc & Hwc).
    destruct (raw_register_is_Some tdesc Hwf pcn rc w Hrc Hc) as (data & Hd & _).
    rewrite Hd in *. simpl.
    apply (mem_read_suffix 0 xlen clen); [lia|done].
  - intros i ?. rewrite Hcont by lia. by rewrite Hregs3.
  - intros i ?. rewrite Hfr.
    2:{ intros j ?. destruct (slot_cases i j clen) as [[? ?]|[? ?]]; lia. }
    rewrite Hframe4 by nia.
    destruct (cap_reg i) as (rc & Hrc & Hwc); [lia|].
    destruct (raw_register_is_Some tdesc Hwf (cn + i) rc w Hrc Hc) as (data & Hd & _).
    specialize (Hcap i ltac:(lia)). rewrite Hd in *. simpl.
    by apply mem_read_suffix.
  - intros i ?. rewrite Hfr by (intros; nia). rewrite Hframe4 by nia.
    apply Hcap. lia.
  - rewrite Hfr by (intros; nia). rewrite Hframe4 by nia. done.
Qed.

(** The capability pass of the supply callback. *)
Local Lemma cheri_store_pass1 w :
  cache_wf tdesc w ->
  (pcn - cn + 1) * clen <= Z.of_nat (length (buf w)) ->
  exists w',
    (let* regno_null := lift (find_regno tdesc "cnull") in
     let* regno_pc := lift (find_regno tdesc "pcc") in
     let* regsize := lift (register_size tdesc regno_pc) in
     let* _ := supply_register tdesc regno_pc 0 in
     let* _ := supply_register_zeroed tdesc regno_null in
     let* _ := supply_register_by_name tdesc "ddc"
                 ((regno_pc - regno_null) * regsize) in
     let* _ := for_loop 1 (regno_pc - regno_null)
                 (fun i => supply_register tdesc (regno_null + i) (i * regsize)) in
     ret regsize) w = Ok (clen, w')
    /\ buf w' = buf w
    /\ length (registers w') = length (registers w)
    /\ trace w' = trace w ++ cheri_supply_pass cn pcn dn clen
    /\ raw_register tdesc pcn (registers w') = mem_read 0 clen (buf w)
    /\ register_is_zero tdesc cn (registers w')
    /\ raw_register tdesc dn (registers w')
       = mem_read ((pcn - cn) * clen) clen (buf w)
    /\ (forall i, 1 <= i < pcn - cn ->
          raw_register tdesc (cn + i) (registers w')
          = mem_read (i * clen) clen (buf w))
    /\ (forall m, ~ (cn <= m <= pcn) -> m <> dn ->
          raw_register tdesc m (registers w')
          = raw_register tdesc m (registers w)).
Proof.
  intros Hc Hbuf. pose proof cheri_xlen_nonneg as Hx.
  pose proof (cheri_wf _ _ _ _ _ _ _ _ L) as Hwf.
  pose proof (cheri_cap_order _ _ _ _ _ _ _ _ L) as Ho.
  pose proof (cheri_xlen_le _ _ _ _ _ _ _ _ L) as Hle.
  destruct (cheri_ddc_apart _ _ _ _ _ _ _ _ L) as [Hd1 Hd2].
  destruct pcc_reg as (rp & Hrp & Hwp).
  destruct (cheri_ddc_width _ _ _ _ _ _ _ _ L) as (rd & Hrd & Hwd).
  destruct (find_regno_Some _ _ _ (cheri_cnull _ _ _ _ _ _ _ _ L)) as (rn & Hrn & _).
  rewrite (bind_lift_Ok _ _ _ cn) by apply L.
  rewrite (bind_lift_Ok _ _ _ pcn) by apply L.
  rewrite (bind_lift_Ok _ _ _ clen)
    by (unfold register_size; rewrite Hrp; by f_equal).
  destruct (supply_register_spec tdesc Hwf pcn 0 w rp)
    as (rs1 & Hstep1 & Hlen1 & Hread1 & _ & Hframe1); [done|done|lia|nia|].
  rewrite (bind_Ok _ _ _ _ _ Hstep1).
  set (w1 := {| registers := rs1; buf := buf w;
                trace := trace w ++ [Supply pcn 0] |}).
  assert (cache_wf tdesc w1) as Hc1.
  { unfold cache_wf in *. simpl. by rewrite Hlen1. }
  destruct (supply_register_zeroed_spec tdesc Hwf cn w1 rn)
    as (rs2 & Hstep2 & Hlen2 & Hzero2 & Hframe2); [done|done|].
  rewrite (bind_Ok _ _ _ _ _ Hstep2).
  set (w2 := {| registers := rs2; buf := buf w1;
                trace := trace w1 ++ [Zeroed cn] |}).
  assert (cache_wf tdesc w2) as Hc2.
  { unfold cache_wf in *. simpl in *. by rewrite Hlen2. }
  rewrite (supply_register_by_name_Ok _ _ _ dn) by apply L.
  destruct (supply_register_spec tdesc Hwf dn ((pcn - cn) * clen) w2 rd)
    as (rs3 & Hstep3 & Hlen3 & Hread3 & _ & Hframe3); [done|done|nia|simpl; nia|].
  rewrite (bind_Ok _ _ _ _ _ Hstep3).
  set (w3 := {| registers := rs3; buf := buf w2;
                trace := trace w2 ++ [Supply dn ((pcn - cn) * clen)] |}).
  assert (cache_wf tdesc w3) as Hc3.
  { unfold cache_wf in *. simpl in *. by rewrite Hlen3. }
  unfold for_loop.
  destruct (supply_loop tdesc Hwf cn clen clen (Z.to_nat (pcn - cn - 1)) 1 w3)
    as (w4 & Hrun & Hbuf4 & Hlen4 & Htr & Hcont & Hfr).
  { lia. } { lia. } { done. }
  { intros i ?. apply cap_reg. lia. }
  { simpl. nia. }
  rewrite (bind_Ok _ _ _ _ _ Hrun).
  rewrite Z2Nat.id in * by lia. simpl in *. rewrite Hwp, Hwd in *.
  exists w4. split; [done|]. split; [done|].
  split; [by rewrite Hlen4, Hlen3, Hlen2|].
  split; [|split; [|split; [|split; [|split]]]].
  - rewrite Htr. unfold cheri_supply_pass. by rewrite <- !app_assoc.
  - rewrite Hfr, Hframe3, Hframe2 by lia. done.
  - exists rn. split; [done|]. rewrite Hfr, Hframe3 by lia. done.
  - rewrite Hfr by lia. done.
  - intros i ?. apply Hcont. lia.
  - intros m ? ?. rewrite Hfr, Hframe3, Hframe2 by lia. apply Hframe1. lia.
Qed.

(** Supplying: both passes read the same buffer, the capability pass
    whole slots, the plain pass their low [xlen] bytes; [cnull] and
    [zero] are cleared. *)
Lemma cheri_store_spec w :
  cache_wf tdesc w ->
  (pcn - cn + 1) * clen <= Z.of_nat (length (buf w)) ->
  exists w',
    riscv_store_gregset tdesc w = Ok (tt, w')
    /\ buf w' = buf w
    /\ length (registers w') = length (registers w)
    /\ trace w' = trace w ++ cheri_supply_pass cn pcn dn clen
                          ++ supply_pass zn pn clen
    /\ raw_register tdesc pcn (registers w') = mem_read 0 clen (buf w)
    /\ register_is_zero tdesc cn (registers w')
    /\ raw_register tdesc dn (registers w')
       = mem_read ((pcn - cn) * clen) clen (buf w)
    /\ (forall i, 1 <= i < pcn - cn ->
          raw_register tdesc (cn + i) (registers w')
          = mem_read (i * clen) clen (buf w))
    /\ raw_register tdesc pn (registers w') = mem_read 0 xlen (buf w)
    /\ register_is_zero tdesc zn (registers w')
    /\ (forall i, 1 <= i < pn - zn ->
          raw_register tdesc (zn + i) (registers w')
          = mem_read (i * clen) xlen (buf w))
    /\ (forall m, ~ (cn <= m <= pcn) -> m <> dn -> ~ (zn <= m <= pn) ->
          raw_register tdesc m (registers w')
          = raw_register tdesc m (registers w)).
Proof.
  intros Hc Hbuf. pose proof cheri_xlen_nonneg as Hx.
  pose proof (cheri_wf _ _ _ _ _ _ _ _ L) as Hwf.
  pose proof (cheri_cap_order _ _ _ _ _ _ _ _ L) as Ho.
  pose proof (cheri_plain_order _ _ _ _ _ _ _ _ L) as Ho'.
  pose proof (cheri_xlen_le _ _ _ _ _ _ _ _ L) as Hle.
  pose proof (cheri_span _ _ _ _ _ _ _ _ L) as Hspan.
  pose proof (cheri_banks_apart _ _ _ _ _ _ _ _ L) as Hapart.
  destruct (cheri_ddc_apart _ _ _ _ _ _ _ _ L) as [Hd1 Hd2].
  destruct cheri_pc_reg as (rp & Hrp & Hwp).
  destruct (find_regno_Some _ _ _ (cheri_zero _ _ _ _ _ _ _ _ L)) as (rz & Hrz & _).
  unfold riscv_store_gregset.
  change "org.gnu.gdb.riscv.cheri" with cheri_feature.
  rewrite (cheri_present _ _ _ _ _ _ _ _ L).
  destruct (cheri_store_pass1 w Hc Hbuf)
    as (w4 & Hp1 & Hbuf4 & Hlen4 & Htr4 & Hpcc & Hcn & Hddc & Hcap & Hfr4).
  rewrite (bind_Ok _ _ _ _ _ Hp1).
  rewrite (bind_lift_Ok _ _ _ zn) by apply L.
  rewrite (bind_lift_Ok _ _ _ pn) by apply L.
  assert (cache_wf tdesc w4) as Hc4.
  { unfold cache_wf in *. by rewrite Hlen4. }
  destruct (supply_register_spec tdesc Hwf pn 0 w4 rp)
    as (rs5 & Hstep5 & Hlen5 & Hread5 & _ & Hframe5);
    [done|done|lia|rewrite Hbuf4; nia|].
  rewrite (bind_Ok _ _ _ _ _ Hstep5).
  set (w5 := {| registers := rs5; buf := buf w4;
                trace := trace w4 ++ [Supply pn 0] |}).
  assert (cache_wf tdesc w5) as Hc5.
  { unfold cache_wf in *. simpl. by rewrite Hlen5. }
  destruct (supply_register_zeroed_spec tdesc Hwf zn w5 rz)
    as (rs6 & Hstep6 & Hlen6 & Hzero6 & Hframe6); [done|done|].
  rewrite (bind_Ok _ _ _ _ _ Hstep6).
  set (w6 := {| registers := rs6; buf := buf w5;
                trace := trace w5 ++ [Zeroed zn] |}).
  assert (cache_wf tdesc w6) as Hc6.
  { unfold cache_wf in *. simpl in *. by rewrite Hlen6. }
  unfold for_loop.
  destruct (supply_loop tdesc Hwf zn clen xlen (Z.to_nat (pn - zn - 1)) 1 w6)
    as (w' & Hrun & Hbuf' & Hlen & Htr & Hcont & Hfr).
  { lia. } { lia. } { done. }
  { intros i ?. apply cheri_plain_reg. lia. }
  { simpl. rewrite Hbuf4. nia. }
  rewrite Z2Nat.id in * by lia. simpl in *. rewrite Hwp in *.
  exists w'. split; [done|]. split; [by rewrite Hbuf'|].
  split; [by rewrite Hlen, Hlen6, Hlen5|].
  split; [|split; [|split; [|split; [|split; [|split; [|split; [|split]]]]]]].
  - rewrite Htr, Htr4. unfold supply_pass. simpl.
    rewrite <- !app_assoc. done.
  - rewrite Hfr, Hframe6, Hframe5 by lia. done.
  - destruct Hcn as (rn & Hrn & Hzn). exists rn. split; [done|].
    rewrite Hfr, Hframe6, Hframe5 by lia. done.
  - rewrite Hfr, Hframe6, Hframe5 by lia. done.
  - intros i ?. rewrite Hfr, Hframe6, Hframe5 by lia. by apply Hcap.
  - rewrite Hfr, Hframe6 by lia. by rewrite Hread5, Hbuf4.
  - exists rz. split; [done|]. by rewrite Hfr by lia.
  - intros i ?. rewrite Hcont by lia. by rewrite Hbuf4.
  - intros m ? ? ?. rewrite Hfr, Hframe6, Hframe5 by lia. by apply Hfr4.
Qed.
End cheri_gregset.

(** ** Collecting, then supplying *)

Lemma plain_round_trip tdesc zn pn xlen w :
  plain_layout tdesc zn pn xlen ->
  cache_wf tdesc w ->
  (pn - zn) * xlen <= Z.of_nat (length (buf w)) ->
  exists w',
    gregset_round_trip tdesc w = Ok (tt, w')
    /\ (forall n, zn < n <= pn ->
          raw_register tdesc n (registers w') = raw_register tdesc n (registers w))
    /\ register_is_zero tdesc zn (registers w')
    /\ (forall m, ~ (zn <= m <= pn) ->
          raw_register tdesc m (registers w') = raw_register tdesc m (registers w)).
Proof.
  intros L Hc Hbuf.
  destruct (plain_fill_spec tdesc zn pn xlen L w Hc Hbuf)
    as (w1 & Hfill & Hregs1 & Hlen1 & _ & Hpc1 & Hx1).
  destruct (plain_store_spec tdesc zn pn xlen L w1)
    as (w' & Hstore & _ & _ & _ & Hpc & Hzero & Hx & Hfr).
  { unfold cache_wf in *. by rewrite Hregs1. }
  { by rewrite Hlen1. }
  exists w'. split.
  { unfold gregset_round_trip. by rewrite (bind_Ok _ _ _ _ _ Hfill). }
  split; [|split; [done|]].
  - intros n ?. destruct (decide (n = pn)) as [->|].
    + by rewrite Hpc, Hpc1.
    + replace n with (zn + (n - zn)) by lia.
      rewrite Hx, Hx1 by lia. done.
  - intros m ?. rewrite Hfr by done. by rewrite Hregs1.
Qed.

Lemma fp_round_trip tdesc fn cs flen wcs w :
  fp_layout tdesc fn cs flen wcs ->
  cache_wf tdesc w ->
  (ELF_NFPREG - 1) * flen + wcs <= Z.of_nat (length (buf w)) ->
  exists w',
    fpregset_round_trip tdesc w = Ok (tt, w')
    /\ (forall n, fn <= n < fn + (ELF_NFPREG - 1) \/ n = cs ->
          raw_register tdesc n (registers w') = raw_register tdesc n (registers w))
    /\ (forall m, ~ (fn <= m < fn + (ELF_NFPREG - 1)) -> m <> cs ->
          raw_register tdesc m (registers w') = raw_register tdesc m (registers w)).
Proof.
  intros L Hc Hbuf.
  destruct (fp_fill_spec tdesc fn cs flen wcs L w Hc Hbuf)
    as (w1 & Hfill & Hregs1 & Hlen1 & _ & Hf1 & Hcs1).
  destruct (fp_store_spec tdesc fn cs flen wcs L w1)
    as (w' & Hstore & _ & _ & _ & Hf & Hcs & Hfr).
  { unfold cache_wf in *. by rewrite Hregs1. }
  { by rewrite Hlen1. }
  exists w'. split.
  { unfold fpregset_round_trip. by rewrite (bind_Ok _ _ _ _ _ Hfill). }
  split.
  - intros n [?| ->].
    + replace n with (fn + (n - fn)) by lia.
      rewrite Hf, Hf1 by lia. done.
    + by rewrite Hcs, Hcs1.
  - intros m ? ?. rewrite Hfr by done. by rewrite Hregs1.
Qed.

Lemma cheri_round_trip tdesc cn pcn dn zn pn clen xlen w :
  cheri_layout tdesc cn pcn dn zn pn clen xlen ->
  cache_wf tdesc w ->
  (pcn - cn + 1) * clen <= Z.of_nat (length (buf w)) ->
  exists w',
    gregset_round_trip tdesc w = Ok (tt, w')
    /\ (forall n, zn < n <= pn ->
          raw_register tdesc n (registers w') = raw_register tdesc n (registers w))
    /\ register_is_zero tdesc zn (registers w')
    /\ register_is_zero tdesc cn (registers w')
    /\ raw_register tdesc dn (registers w') = raw_register tdesc dn (registers w)
    /\ (forall i, pn - zn <= i < pcn - cn ->
          raw_register tdesc (cn + i) (registers w')
          = raw_register tdesc (cn + i) (registers w))
    /\ (forall i low full, 1 <= i < pn - zn ->
          raw_register tdesc (zn + i) (registers w) = Some low ->
          raw_register tdesc (cn + i) (registers w) = Some full ->
          raw_register tdesc (cn + i) (registers w') = Some (overlay xlen low full))
    /\ (forall low full,
          raw_register tdesc pn (registers w) = Some low ->
          raw_register tdesc pcn (registers w) = Some full ->
          raw_register tdesc pcn (registers w') = Some (overlay xlen low full)).
Proof.
  intros L Hc Hbuf.
  pose proof (cheri_xlen_le _ _ _ _ _ _ _ _ L) as Hle.
  assert (0 <= xlen) as Hx0 by (by eapply cheri_xlen_nonneg).
  destruct (cheri_fill_spec tdesc cn pcn dn zn pn clen xlen L w Hc Hbuf)
    as (w1 & Hfill & Hregs1 & Hlen1 & _ & Hpc1 & Hpcc1 & Hx1 & Hc1 & Hr1 & Hd1).
  destruct (cheri_store_spec tdesc cn pcn dn zn pn clen xlen L w1)
    as (w' & Hstore & _ & _ & _ & Hpcc & Hcn & Hd & Hcap & Hpc & Hzn & Hx & Hfr).
  { unfold cache_wf in *. by rewrite Hregs1. }
  { by rewrite Hlen1. }
  exists w'. split.
  { unfold gregset_round_trip. by rewrite (bind_Ok _ _ _ _ _ Hfill). }
  split; [|split; [done|split; [done|split; [|split; [|split]]]]].
  - intros n ?. destruct (decide (n = pn)) as [->|].
    + by rewrite Hpc, Hpc1.
    + replace n with (zn + (n - zn)) by lia.
      rewrite Hx, Hx1 by lia. done.
  - by rewrite Hd, Hd1.
  - intros i ?. pose proof (cheri_span _ _ _ _ _ _ _ _ L).
    pose proof (cheri_plain_order _ _ _ _ _ _ _ _ L).
    rewrite Hcap, Hr1 by lia. done.
  - intros i low full ? Hlow Hfull. rewrite Hcap by
      (pose proof (cheri_span _ _ _ _ _ _ _ _ L); lia).
    specialize (Hx1 i ltac:(lia)). specialize (Hc1 i ltac:(lia)).
    rewrite Hlow in Hx1. rewrite Hfull in Hc1. simpl in Hc1.
    replace clen with (xlen + (clen - xlen)) at 2 by lia.
    by apply mem_read_app.
  - intros low full Hlow Hfull. rewrite Hpcc.
    rewrite Hlow in Hpc1. rewrite Hfull in Hpcc1. simpl in Hpcc1.
    replace clen with (xlen + (clen - xlen)) by lia.
    by apply mem_read_app.
Qed.

(** ** What a returned call has done *)

Lemma bind_inv {A B} (m : M A) (k : A -> M B) w b w' :
  bind m k w = Ok (b, w') ->
  exists a w1, m w = Ok (a, w1) /\ k a w1 = Ok (b, w').
Proof.
  unfold bind. destruct (m w) as [[a w1]|e]; [|done]. eauto.
Qed.

Lemma lift_inv {A} (r : result A) w a w' :
  lift r w = Ok (a, w') -> r = Ok a /\ w' = w.
Proof. unfold lift. destruct r; [|done]. by intros [= -> ->]. Qed.

Lemma ret_inv {A} (a b : A) w w' : ret a w = Ok (b, w') -> b = a /\ w' = w.
Proof. by intros [= -> ->]. Qed.

Section returned.
Context (tdesc : target_desc) (Hwf : tdesc_wf tdesc).
Implicit Types (n m off lo : Z) (w : world) (k : nat).

Lemma supply_register_inv n off w u w' :
  supply_register tdesc n off w = Ok (u, w') ->
  forall m, m <> n ->
    raw_register tdesc m (registers w') = raw_register tdesc m (registers w).
Proof.
  unfold supply_register.
  destruct (find_register_by_number tdesc n) as [r|] eqn:Hr; [|done].
  destruct (mem_read off (width r) (buf w)) as [data|] eqn:Hd; [|done].
  destruct (mem_write _ data _) as [rs|] eqn:Hw; [|done].
  intros [= _ <-] m ?. simpl.
  eapply raw_register_write; [done..| |done|done].
  by eapply mem_read_length.
Qed.

Lemma supply_register_zeroed_inv n w u w' :
  supply_register_zeroed tdesc n w = Ok (u, w') ->
  register_is_zero tdesc n (registers w')
  /\ forall m, m <> n ->
       raw_register tdesc m (registers w') = raw_register tdesc m (registers w).
Proof.
  unfold supply_register_zeroed.
  destruct (find_register_by_number tdesc n) as [r|] eqn:Hr; [|done].
  case_decide; [|done].
  destruct (mem_write _ _ _) as [rs|] eqn:Hw; [|done].
  intros [= _ <-]. simpl.
  assert (Z.of_nat (length (zero_bytes (width r))) = width r) as Hlen.
  { unfold zero_bytes. rewrite length_replicate. lia. }
  split.
  - exists r. split; [done|]. unfold raw_register. rewrite Hr.
    rewrite <- Hlen at 1. by eapply mem_read_write_same.
  - intros m ?. by eapply raw_register_write.
Qed.

Lemma supply_iterate_inv base (off : Z -> Z) : forall k lo w u w',
  iterate k lo (fun i => supply_register tdesc (base + i) (off i)) w = Ok (u, w') ->
  forall m, ~ (lo <= m - base < lo + Z.of_nat k) ->
    raw_register tdesc m (registers w') = raw_register tdesc m (registers w).
Proof.
  induction k as [|k IH]; intros lo w u w'; simpl.
  - by intros [= _ <-].
  - intros (a & w1 & Hstep & Hrest)%bind_inv m ?.
    rewrite (IH _ _ _ _ Hrest) by lia.
    eapply supply_register_inv; [done|lia].
Qed.

Lemma register_is_zero_frame n regs regs' :
  raw_register tdesc n regs' = raw_register tdesc n regs ->
  register_is_zero tdesc n regs -> register_is_zero tdesc n regs'.
Proof. intros E (r & ? & ?). exists r. by rewrite E. Qed.

(** However the supply callback got there, once it returns [zero] holds
    zero bytes only. *)
Lemma store_gregset_zero w u w' zn :
  riscv_store_gregset tdesc w = Ok (u, w') ->
  find_regno tdesc "zero" = Ok zn ->
  register_is_zero tdesc zn (registers w').
Proof.
  unfold riscv_store_gregset. intros H Hzn.
  apply bind_inv in H as (regsize & w1 & _ & H).
  rewrite (bind_lift_Ok _ _ _ zn) in H by done.
  apply bind_inv in H as (pn & w2 & [_ ->]%lift_inv & H).
  apply bind_inv in H as (? & w3 & _ & H).
  apply bind_inv in H as (? & w4 & [Hz _]%supply_register_zeroed_inv & H).
  eapply register_is_zero_frame; [|done].
  unfold for_loop in H. eapply supply_iterate_inv; [exact H|lia].
Qed.

(** With the capability extension, [cnull] holds zero bytes only as well,
    unless it is numbered inside the plain bank. *)
Lemma store_gregset_cnull w u w' cn zn pn :
  riscv_store_gregset tdesc w = Ok (u, w') ->
  tdesc_contains_feature tdesc cheri_feature = true ->
  find_regno tdesc "cnull" = Ok cn ->
  find_regno tdesc "zero" = Ok zn ->
  find_regno tdesc "pc" = Ok pn ->
  ~ (zn < cn < pn) ->
  register_is_zero tdesc cn (registers w').
Proof.
  unfold riscv_store_gregset. intros H Hf Hcn Hzn Hpn Hout.
  change "org.gnu.gdb.riscv.cheri" with cheri_feature in H. rewrite Hf in H.
  apply bind_inv in H as (regsize & w1 & H1 & H).
  (* the capability pass *)
  rewrite (bind_lift_Ok _ _ _ cn) in H1 by done.
  apply bind_inv in H1 as (pcn & wa & [_ ->]%lift_inv & H1).
  apply bind_inv in H1 as (clen & wb & [_ ->]%lift_inv & H1).
  apply bind_inv in H1 as (? & wc & _ & H1).
  apply bind_inv in H1 as (? & wd & [Hz _]%supply_register_zeroed_inv & H1).
  apply bind_inv in H1 as (? & we & Hddc & H1).
  apply bind_inv in H1 as (? & wf & Hloop & [_ ->]%ret_inv).
  unfold supply_register_by_name in Hddc.
  apply bind_inv in Hddc as (dn & wg & [Hdn ->]%lift_inv & Hddc).
  assert (dn <> cn) by (by eapply find_regno_ne).
  apply (register_is_zero_frame _ _ _ (supply_register_inv _ _ _ _ _ Hddc cn ltac:(done)))
    in Hz.
  unfold for_loop in Hloop.
  apply (register_is_zero_frame _ _ _
           (supply_iterate_inv _ _ _ _ _ _ _ Hloop cn ltac:(lia))) in Hz.
  (* the plain pass *)
  rewrite (bind_lift_Ok _ _ _ zn) in H by done.
  rewrite (bind_lift_Ok _ _ _ pn) in H by done.
  apply bind_inv in H as (? & w3 & Hpc & H).
  apply bind_inv in H as (? & w4 & [_ Hfr]%supply_register_zeroed_inv & H).
  assert (pn <> cn) by (by eapply find_regno_ne).
  assert (zn <> cn) by (by eapply find_regno_ne).
  apply (register_is_zero_frame _ _ _ (supply_register_inv _ _ _ _ _ Hpc cn ltac:(done)))
    in Hz.
  apply (register_is_zero_frame _ _ _ (Hfr cn ltac:(done))) in Hz.
  unfold for_loop in H.
  eapply register_is_zero_frame; [|exact Hz].
  eapply supply_iterate_inv; [exact H|lia].
Qed.

(** A single-register fetch of [zero] or [cnull] supplies zero. *)
Lemma fetch_register_zero regno w b w' :
  low_fetch_register tdesc regno w = Ok (b, w') ->
  find_regno tdesc "zero" = Ok regno \/ find_regno tdesc "cnull" = Ok regno ->
  b = true /\ register_is_zero tdesc regno (registers w').
Proof.
  unfold low_fetch_register. intros H Hr.
  apply bind_inv in H as (zn & w1 & [Hzn ->]%lift_inv & H).
  destruct (decide (regno <> zn)) as [Hne|He].
  - apply bind_inv in H as (cn & w2 & [Hcn ->]%lift_inv & H).
    destruct Hr as [Hr|Hr]; [congruence|].
    assert (cn = regno) as -> by congruence.
    rewrite decide_False in H by (intros ?; done).
    apply bind_inv in H as (? & w3 & [Hz _]%supply_register_zeroed_inv & [-> ->]%ret_inv).
    done.
  - apply bind_inv in H as (? & w3 & [Hz _]%supply_register_zeroed_inv & [-> ->]%ret_inv).
    done.
Qed.

Lemma fetch_register_returns regno zn w :
    cache_wf tdesc w ->
    find_regno tdesc "zero" = Ok zn ->
    regno = zn \/ find_regno tdesc "cnull" = Ok regno ->
    exists w', low_fetch_register tdesc regno w = Ok (true, w').
Proof.
    intros Hc Hzn Hr. unfold low_fetch_register.
    rewrite (bind_lift_Ok _ _ _ zn) by done.
    assert (exists r, find_register_by_number tdesc regno = Some r) as [r Hreg].
    { destruct Hr as [->|Hr].
      - destruct (find_regno_Some _ _ _ Hzn) as (r & ? & _). eauto.
      - destruct (find_regno_Some _ _ _ Hr) as (r & ? & _). eauto. }
    destruct (supply_register_zeroed_spec tdesc Hwf regno w r Hreg Hc)
      as (rs & Hstep & _).
    destruct (decide (regno <> zn)) as [Hne|He].
    - destruct Hr as [->|Hr]; [done|].
      rewrite (bind_lift_Ok _ _ _ regno) by done.
      rewrite decide_False by (intros ?; done).
      rewrite (bind_Ok _ _ _ _ _ Hstep). eauto.
    - rewrite (bind_Ok _ _ _ _ _ Hstep). eauto.
Qed.
End returned.

(** ** Software breakpoints *)

Example low_breakpoint_at_ebreak :
  low_breakpoint_at LittleEndian
    (memory_of 0x10000 [Byte.x73; Byte.x00; Byte.x10; Byte.x00]) 0x10000
  = (true, [(0x10000, 2); (0x10002, 2)]).
Proof. reflexivity. Qed.

Example low_breakpoint_at_c_ebreak :
  low_breakpoint_at LittleEndian (memory_of 0x10000 [Byte.x02; Byte.x90]) 0x10000
  = (true, [(0x10000, 2)]).
Proof. reflexivity. Qed.

Example low_breakpoint_at_half_ebreak :
  low_breakpoint_at LittleEndian (memory_of 0x10000 [Byte.x73; Byte.x00]) 0x10000
  = (false, [(0x10000, 2); (0x10002, 2)]).
Proof. reflexivity. Qed.

Example low_breakpoint_at_unreadable :
  low_breakpoint_at LittleEndian (memory_of 0x10000 []) 0x10000
  = (false, [(0x10000, 2)]).
Proof. reflexivity. Qed.

Example breakpoint_kind_from_pc_unreadable :
  breakpoint_kind_from_pc LittleEndian (memory_of 0x10000 []) 0x10000 = 2.
Proof. reflexivity. Qed.

Lemma byte_value_range (b : byte) : 0 <= byte_value b < 256.
Proof.
  unfold byte_value. pose proof (Byte.to_N_bounded b). lia.
Qed.

Lemma byte_of_Z_value (b : byte) : byte_of_Z (byte_value b) = b.
Proof.
  unfold byte_of_Z, byte_value. rewrite N2Z.id. by rewrite Byte.of_to_N.
Qed.

Lemma uint16_of_bytes_inv bo b0 b1 v :
  uint16_of_bytes bo [b0; b1] = v -> [b0; b1] = bytes_of_uint16 bo v.
Proof.
  pose proof (byte_value_range b0). pose proof (byte_value_range b1).
  intros <-. destruct bo; simpl.
  - assert ((byte_value b0 + 256 * byte_value b1) mod 256 = byte_value b0) as ->
      by (Z.div_mod_to_equations; lia).
    assert ((byte_value b0 + 256 * byte_value b1) / 256 mod 256 = byte_value b1) as ->
      by (Z.div_mod_to_equations; lia).
    by rewrite !byte_of_Z_value.
  - assert ((256 * byte_value b0 + byte_value b1) mod 256 = byte_value b1) as ->
      by (Z.div_mod_to_equations; lia).
    assert ((256 * byte_value b0 + byte_value b1) / 256 mod 256 = byte_value b0) as ->
      by (Z.div_mod_to_equations; lia).
    by rewrite !byte_of_Z_value.
Qed.

Lemma read_bytes_length mem : forall len addr bytes,
  read_bytes mem addr len = Some bytes -> length bytes = len.
Proof.
  induction len as [|len IH]; intros addr bytes; simpl.
  - by intros [= <-].
  - destruct (mem addr); [|done].
    destruct (read_bytes mem (addr + 1) len) eqn:E; [|done].
    intros [= <-]. simpl. f_equal. by eapply IH.
Qed.

Lemma read_insn_bytes mem addr bytes :
  target_read_memory mem addr sizeof_insn = Some bytes ->
  exists b0 b1, bytes = [b0; b1].
Proof.
  intros H%read_bytes_length.
  destruct bytes as [|b0 [|b1 [|]]]; try done. eauto.
Qed.

(** Two bytes decode to a trap halfword exactly when they are the bytes of
    that halfword. *)
Lemma insn_is_pattern bo mem addr bytes v :
  target_read_memory mem addr sizeof_insn = Some bytes ->
  uint16_of_bytes bo (bytes_of_uint16 bo v) = v ->
  uint16_of_bytes bo bytes = v <-> bytes = bytes_of_uint16 bo v.
Proof.
  intros (b0 & b1 & ->)%read_insn_bytes Hv. split.
  - apply uint16_of_bytes_inv.
  - by intros ->.
Qed.

(** Whatever the two bytes read are, the classification answers 4. *)
Lemma breakpoint_kind_from_pc_read bo mem pc bytes :
  target_read_memory mem pc sizeof_insn = Some bytes ->
  breakpoint_kind_from_pc bo mem pc = sizeof_riscv_ibreakpoint.
Proof.
  intros H. unfold breakpoint_kind_from_pc. rewrite H. simpl.
  by destruct (decide (uint16_of_bytes bo bytes = sizeof_riscv_ibreakpoint)).
Qed.

Lemma breakpoint_kind_from_pc_failed bo mem pc :
  target_read_memory mem pc sizeof_insn = None ->
  breakpoint_kind_from_pc bo mem pc = sizeof_riscv_cbreakpoint.
Proof. intros H. unfold breakpoint_kind_from_pc. by rewrite H. Qed.

(** C1 (the code departs from the claim). The bytes [01 00] at address
    [0x10000] are the compact instruction [c.nop]: they are read
    successfully and their low bits decode to length 2, yet
    [breakpoint_kind_from_pc] answers 4, because it decodes the value of
    the comparison of the instruction with 4 in place of the
    instruction. *)
Theorem breakpoint_kind_from_pc_compact_insn :
  let mem := memory_of 0x10000 [Byte.x01; Byte.x00] in
  target_read_memory mem 0x10000 sizeof_insn = Some [Byte.x01; Byte.x00]
  /\ riscv_insn_length (uint16_of_bytes LittleEndian [Byte.x01; Byte.x00]) = 2
  /\ breakpoint_kind_from_pc LittleEndian mem 0x10000 = 4.
Proof. repeat split. Qed.

(** For the kinds 2 and 4, the two that [breakpoint_kind_from_pc] hands
    out, the pattern comes back with its own size. *)
Lemma sw_breakpoint_from_kind_2_4 bo :
  sw_breakpoint_from_kind bo 4
  = (bytes_of_uint16 bo 0x0073 ++ bytes_of_uint16 bo 0x0010, 4)
  /\ sw_breakpoint_from_kind bo 2 = (bytes_of_uint16 bo 0x9002, 2).
Proof. by destruct bo. Qed.

(** C2 (the code departs from the claim). For every kind other than 2 and
    4, [sw_breakpoint_from_kind] hands out the compact trap pattern, an
    object of 2 bytes, and reports the kind as its size: the reported size
    is not 2, as the claim has it, and it is not the size of the object
    returned. *)
Theorem sw_breakpoint_from_kind_size_mismatch bo kind :
  kind <> 2 -> kind <> 4 ->
  let bp := sw_breakpoint_from_kind bo kind in
  fst bp = bytes_of_uint16 bo 0x9002
  /\ length (fst bp) = 2%nat
  /\ snd bp = kind
  /\ snd bp <> 2
  /\ snd bp <> Z.of_nat (length (fst bp)).
Proof.
  intros H2 H4. unfold sw_breakpoint_from_kind, sizeof_riscv_ibreakpoint.
  rewrite decide_False by done. simpl.
  split; [done|]. split; [by destruct bo|]. split; [done|]. split; [done|].
  destruct bo; simpl; lia.
Qed.

Lemma sw_breakpoint_from_kind_size_mismatch_witness :
  (fst (sw_breakpoint_from_kind LittleEndian 3) = [Byte.x02; Byte.x90]
   /\ snd (sw_breakpoint_from_kind LittleEndian 3) = 3)
  /\ (fst (sw_breakpoint_from_kind BigEndian (-1)) = [Byte.x90; Byte.x02]
      /\ snd (sw_breakpoint_from_kind BigEndian (-1)) = -1).
Proof.
  split.
  - destruct (sw_breakpoint_from_kind_size_mismatch LittleEndian 3
                ltac:(lia) ltac:(lia)) as (Hp & _ & Hs & _).
    split; [exact Hp|exact Hs].
  - destruct (sw_breakpoint_from_kind_size_mismatch BigEndian (-1)
                ltac:(lia) ltac:(lia)) as (Hp & _ & Hs & _).
    split; [exact Hp|exact Hs].
Defined.

Lemma low_breakpoint_at_true bo mem pc :
  fst (low_breakpoint_at bo mem pc) = true <->
    target_read_memory mem pc 2 = Some (compact_trap bo)
    \/ (target_read_memory mem pc 2 = Some (take 2 (standard_trap bo))
        /\ target_read_memory mem (core_addr (pc + 2)) 2
           = Some (drop 2 (standard_trap bo))).
Proof.
  assert (compact_trap bo = bytes_of_uint16 bo riscv_cbreakpoint) as Hc
    by (by destruct bo).
  assert (take 2 (standard_trap bo) = bytes_of_uint16 bo 0x0073) as H0
    by (by destruct bo).
  assert (drop 2 (standard_trap bo) = bytes_of_uint16 bo 0x0010) as H1
    by (by destruct bo).
  rewrite Hc, H0, H1. unfold low_breakpoint_at. change sizeof_insn with 2.
  change (riscv_ibreakpoint !!! 0%nat) with 0x0073.
  change (riscv_ibreakpoint !!! 1%nat) with 0x0010.
  destruct (target_read_memory mem pc 2) as [bytes|] eqn:Hrd.
  2:{ simpl. split; [done|]. by intros [|[]]. }
  pose proof (insn_is_pattern bo mem pc bytes riscv_cbreakpoint Hrd
                ltac:(by destruct bo)) as Ec.
  pose proof (insn_is_pattern bo mem pc bytes 0x0073 Hrd
                ltac:(by destruct bo)) as E0.
  destruct (decide (uint16_of_bytes bo bytes = riscv_cbreakpoint)) as [Hcb|Hcb].
  { simpl. apply Ec in Hcb as ->. split; auto. }
  destruct (decide (uint16_of_bytes bo bytes = 0x0073)) as [Hib|Hib].
  2:{ simpl. split; [done|].
      intros [[= ?]|[[= ?] _]]; [destruct Hcb; by apply Ec|destruct Hib; by apply E0]. }
  destruct (target_read_memory mem (core_addr (pc + 2)) 2) as [bytes'|] eqn:Hrd'.
  2:{ simpl. split; [done|].
      intros [[= ?]|[_ [=]]]. destruct Hcb. by apply Ec. }
  pose proof (insn_is_pattern bo mem _ bytes' 0x0010 Hrd'
                ltac:(by destruct bo)) as E1.
  simpl. rewrite bool_decide_eq_true. split.
  - intros ?. right. split; f_equal; [by apply E0|by apply E1].
  - intros [[= ?]|[_ [= ?]]]; [destruct Hcb; by apply Ec|by apply E1].
Qed.

Lemma low_breakpoint_at_reads bo mem pc :
  (length (snd (low_breakpoint_at bo mem pc)) <= 2)%nat
  /\ Forall (fun rd => snd rd = sizeof_insn) (snd (low_breakpoint_at bo mem pc)).
Proof.
  unfold low_breakpoint_at.
  repeat (case_match; simpl); split; try lia; repeat constructor.
Qed.

(** C3. [low_breakpoint_at] answers true exactly when the two bytes at the
    address are read and are the compact trap pattern, or are the first
    half of the standard trap pattern with the next two bytes read and
    being its second half; in every other case, a failed read included, it
    answers false. Being a total function it always answers, and it
    performs at most two reads, each of two bytes. *)
Theorem low_breakpoint_at_spec bo mem pc :
  let present :=
    target_read_memory mem pc 2 = Some (compact_trap bo)
    \/ (target_read_memory mem pc 2 = Some (take 2 (standard_trap bo))
        /\ target_read_memory mem (core_addr (pc + 2)) 2
           = Some (drop 2 (standard_trap bo))) in
  (fst (low_breakpoint_at bo mem pc) = true <-> present)
  /\ (fst (low_breakpoint_at bo mem pc) = false <-> ~ present)
  /\ (length (snd (low_breakpoint_at bo mem pc)) <= 2)%nat
  /\ Forall (fun rd => snd rd = 2) (snd (low_breakpoint_at bo mem pc)).
Proof.
  intros present. pose proof (low_breakpoint_at_true bo mem pc) as Ht.
  fold present in Ht.
  split; [done|]. split; [|apply low_breakpoint_at_reads].
  rewrite <- Ht. destruct (fst (low_breakpoint_at bo mem pc)); split; done.
Qed.

(** ** The concrete descriptors *)

Lemma rv64_layout : plain_layout rv64_tdesc 0 32 8.
Proof. split; try reflexivity; try lia; by_computation. Qed.

Lemma rv32_layout : plain_layout rv32_tdesc 0 32 4.
Proof. split; try reflexivity; try lia; by_computation. Qed.

Lemma rv64_fp_layout : fp_layout rv64_tdesc 33 67 8 4.
Proof. split; try reflexivity; try (unfold ELF_NFPREG; lia); by_computation. Qed.

Lemma rv32_fp_layout : fp_layout rv32_tdesc 33 67 4 4.
Proof. split; try reflexivity; try (unfold ELF_NFPREG; lia); by_computation. Qed.

Lemma cheri_tdesc_layout : cheri_layout cheri_tdesc 68 100 101 0 32 16 8.
Proof. split; try reflexivity; try lia; by_computation. Qed.

(** ** The claims about the register codec *)

(** C4, as stated, fails with the capability extension: in the sample cache
    the low bytes of [cra] (register 69) differ from [ra], and collecting
    then supplying changes [cra]. *)
Lemma round_trip_changes_cra :
  let w := sample_world cheri_tdesc in
  let w' := exec (gregset_round_trip cheri_tdesc) w in
  gregset_round_trip cheri_tdesc w = Ok (tt, w')
  /\ find_regno cheri_tdesc "cra" = Ok 69
  /\ raw_register cheri_tdesc 69 (registers w')
     <> raw_register cheri_tdesc 69 (registers w).
Proof.
  split; [vm_compute; reflexivity|]. split; [reflexivity|].
  vm_compute. intros [=].
Qed.

(** C4 (amended). For a populated cache of the right size and a buffer
    that is large enough, collecting a bank into the buffer and supplying
    from it returns and leaves every register of the transfer with its
    original value and the zero register (with the capability extension
    also [cnull]) reading zero, except that with the capability extension
    [pcc] and each capability register sharing its buffer slot with a plain
    register come back with the plain register's bytes as their low bytes
    and only their remaining bytes as they were. *)
Theorem round_trip_registers :
  (forall tdesc zn pn xlen w,
     plain_layout tdesc zn pn xlen -> cache_wf tdesc w ->
     (pn - zn) * xlen <= Z.of_nat (length (buf w)) ->
     plain_round_trip_ok tdesc zn pn w)
  /\ (forall tdesc fn cs flen wcs w,
        fp_layout tdesc fn cs flen wcs -> cache_wf tdesc w ->
        (ELF_NFPREG - 1) * flen + wcs <= Z.of_nat (length (buf w)) ->
        fp_round_trip_ok tdesc fn cs w)
  /\ (forall tdesc cn pcn dn zn pn clen xlen w,
        cheri_layout tdesc cn pcn dn zn pn clen xlen -> cache_wf tdesc w ->
        (pcn - cn + 1) * clen <= Z.of_nat (length (buf w)) ->
        cheri_round_trip_ok tdesc cn pcn dn zn pn xlen w).
Proof.
  split; [|split].
  - intros tdesc zn pn xlen w L Hc Hbuf.
    destruct (plain_round_trip tdesc zn pn xlen w L Hc Hbuf) as (w' & ? & ? & ? & _).
    by exists w'.
  - intros tdesc fn cs flen wcs w L Hc Hbuf.
    destruct (fp_round_trip tdesc fn cs flen wcs w L Hc Hbuf) as (w' & ? & ? & _).
    by exists w'.
  - intros tdesc cn pcn dn zn pn clen xlen w L Hc Hbuf.
    apply (cheri_round_trip tdesc cn pcn dn zn pn clen xlen w L Hc Hbuf).
Qed.

Lemma round_trip_registers_witness :
  plain_round_trip_ok rv64_tdesc 0 32 (sample_world rv64_tdesc)
  /\ fp_round_trip_ok rv32_tdesc 33 67 (sample_world rv32_tdesc)
  /\ cheri_round_trip_ok cheri_tdesc 68 100 101 0 32 8 (sample_world cheri_tdesc).
Proof.
  destruct round_trip_registers as (Hplain & Hfp & Hcheri).
  split; [|split].
  - apply (Hplain rv64_tdesc 0 32 8).
    + split; try reflexivity; try lia; by_computation.
    + vm_compute; reflexivity.
    + vm_compute; discriminate.
  - apply (Hfp rv32_tdesc 33 67 4 4).
    + split; try reflexivity; try (unfold ELF_NFPREG; lia); by_computation.
    + vm_compute; reflexivity.
    + vm_compute; discriminate.
  - apply (Hcheri cheri_tdesc 68 100 101 0 32 16 8).
    + split; try reflexivity; try lia; by_computation.
    + vm_compute; reflexivity.
    + vm_compute; discriminate.
Defined.

(** The accesses of a supply pass over a bank take buffer bytes only for
    the registers after the first up to the program counter. *)
Lemma supply_pass_spares null pc stride n :
  null < pc -> ~ (null < n <= pc) -> never_supplied n (supply_pass null pc stride).
Proof.
  intros ? ? off. unfold supply_pass.
  rewrite !elem_of_cons, list_elem_of_fmap.
  intros [[= ? ?]|[[=]|(i & [= ? ?] & Hi%elem_of_seqZ)]]; lia.
Qed.

Lemma cheri_supply_pass_spares cn pcn dn clen n :
  cn < pcn -> n <> dn -> ~ (cn < n <= pcn) ->
  never_supplied n (cheri_supply_pass cn pcn dn clen).
Proof.
  intros ? ? ? off. unfold cheri_supply_pass.
  rewrite elem_of_app, !elem_of_cons, elem_of_nil, list_elem_of_fmap.
  intros [[[= ? ?]|[[=]|[[= ? ?]|[]]]]|(i & [= ? ?] & Hi%elem_of_seqZ)]; lia.
Qed.

Lemma never_supplied_app n (t t' : list access) :
  never_supplied n t -> never_supplied n t' -> never_supplied n (t ++ t').
Proof. intros H H' off [?|?]%elem_of_app; [by eapply H|by eapply H']. Qed.

Lemma supply_register_zeroed_trace tdesc n w u w' :
  supply_register_zeroed tdesc n w = Ok (u, w') ->
  trace w' = trace w ++ [Zeroed n].
Proof.
  unfold supply_register_zeroed.
  destruct (find_register_by_number tdesc n) as [r|]; [|done].
  case_decide; [|done].
  destruct (mem_write _ _ _) as [rs|]; [|done].
  by intros [= _ <-].
Qed.

(** A single-register fetch of [zero] or [cnull] performs one access, which
    clears the register. *)
Lemma fetch_register_trace tdesc regno w b w' :
  low_fetch_register tdesc regno w = Ok (b, w') ->
  find_regno tdesc "zero" = Ok regno \/ find_regno tdesc "cnull" = Ok regno ->
  trace w' = trace w ++ [Zeroed regno].
Proof.
  unfold low_fetch_register. intros H Hr.
  apply bind_inv in H as (zn & w1 & [Hzn ->]%lift_inv & H).
  destruct (decide (regno <> zn)) as [Hne|He].
  - apply bind_inv in H as (cn & w2 & [Hcn ->]%lift_inv & H).
    destruct Hr as [Hr|Hr]; [congruence|].
    assert (cn = regno) as -> by congruence.
    rewrite decide_False in H by (intros ?; done).
    apply bind_inv in H as (? & w3 & Hz & [-> ->]%ret_inv).
    by eapply supply_register_zeroed_trace.
  - apply bind_inv in H as (? & w3 & Hz & [-> ->]%ret_inv).
    by eapply supply_register_zeroed_trace.
Qed.

(** C5. Whenever the supply callback of the general-purpose bank returns,
    [zero] reads as zero whatever the buffer held, and so does [cnull] when
    the capability extension is present (its number lying outside the plain
    bank). A single-register fetch of either one answers true and supplies
    zero, its one access being the clearing of the register. The calls do
    return, the fetch on every cache of the descriptor's size and the
    supply callback on the descriptors with contiguous banks, and among
    the accesses [t] the supply callback performs there is the clearing of
    [zero] (with the capability extension also that of [cnull]) and no
    access that takes buffer bytes for it: the register is never read from
    the buffer. *)
Theorem zero_registers_read_zero tdesc :
  tdesc_wf tdesc ->
  (forall w u w' zn,
     riscv_store_gregset tdesc w = Ok (u, w') ->
     find_regno tdesc "zero" = Ok zn ->
     register_is_zero tdesc zn (registers w'))
  /\ (forall w u w' cn zn pn,
        riscv_store_gregset tdesc w = Ok (u, w') ->
        tdesc_contains_feature tdesc cheri_feature = true ->
        find_regno tdesc "cnull" = Ok cn ->
        find_regno tdesc "zero" = Ok zn ->
        find_regno tdesc "pc" = Ok pn ->
        ~ (zn < cn < pn) ->
        register_is_zero tdesc cn (registers w'))
  /\ (forall regno w b w',
        low_fetch_register tdesc regno w = Ok (b, w') ->
        find_regno tdesc "zero" = Ok regno \/ find_regno tdesc "cnull" = Ok regno ->
        b = true /\ register_is_zero tdesc regno (registers w')
        /\ trace w' = trace w ++ [Zeroed regno])
  /\ (forall regno zn w,
        cache_wf tdesc w ->
        find_regno tdesc "zero" = Ok zn ->
        regno = zn \/ find_regno tdesc "cnull" = Ok regno ->
        exists w', low_fetch_register tdesc regno w = Ok (true, w'))
  /\ (forall zn pn xlen w,
        plain_layout tdesc zn pn xlen -> cache_wf tdesc w ->
        (pn - zn) * xlen <= Z.of_nat (length (buf w)) ->
        exists w' t,
          riscv_store_gregset tdesc w = Ok (tt, w')
          /\ trace w' = trace w ++ t
          /\ Zeroed zn ∈ t
          /\ never_supplied zn t)
  /\ (forall cn pcn dn zn pn clen xlen w,
        cheri_layout tdesc cn pcn dn zn pn clen xlen -> cache_wf tdesc w ->
        (pcn - cn + 1) * clen <= Z.of_nat (length (buf w)) ->
        exists w' t,
          riscv_store_gregset tdesc w = Ok (tt, w')
          /\ trace w' = trace w ++ t
          /\ Zeroed zn ∈ t /\ never_supplied zn t
          /\ Zeroed cn ∈ t /\ never_supplied cn t).
Proof.
  intros Hwf. split; [|split; [|split; [|split; [|split]]]].
  - intros w u w' zn. by apply store_gregset_zero.
  - intros w u w' cn zn pn. by apply store_gregset_cnull.
  - intros regno w b w' H Hr.
    destruct (fetch_register_zero tdesc Hwf regno w b w' H Hr) as [-> ?].
    split; [done|]. split; [done|]. by eapply fetch_register_trace.
  - intros regno zn w. by apply fetch_register_returns.
  - intros zn pn xlen w L Hc Hbuf.
    pose proof (plain_order _ _ _ _ L) as Ho.
    destruct (plain_store_spec tdesc zn pn xlen L w Hc Hbuf)
      as (w' & Hst & _ & _ & Htr & _).
    exists w', (supply_pass zn pn xlen). split; [done|]. split; [done|]. split.
    + unfold supply_pass. rewrite !elem_of_cons. auto.
    + apply supply_pass_spares; lia.
  - intros cn pcn dn zn pn clen xlen w L Hc Hbuf.
    pose proof (cheri_cap_order _ _ _ _ _ _ _ _ L) as Ho.
    pose proof (cheri_plain_order _ _ _ _ _ _ _ _ L) as Ho'.
    pose proof (cheri_banks_apart _ _ _ _ _ _ _ _ L) as Hapart.
    destruct (cheri_ddc_apart _ _ _ _ _ _ _ _ L) as [Hd1 Hd2].
    destruct (cheri_store_spec tdesc cn pcn dn zn pn clen xlen L w Hc Hbuf)
      as (w' & Hst & _ & _ & Htr & _).
    exists w', (cheri_supply_pass cn pcn dn clen ++ supply_pass zn pn clen).
    split; [done|]. split; [done|]. split; [|split; [|split]].
    + apply elem_of_app. right. unfold supply_pass. rewrite !elem_of_cons. auto.
    + apply never_supplied_app;
        [apply cheri_supply_pass_spares|apply supply_pass_spares]; lia.
    + apply elem_of_app. left. unfold cheri_supply_pass.
      rewrite elem_of_app, !elem_of_cons. auto.
    + apply never_supplied_app;
        [apply cheri_supply_pass_spares|apply supply_pass_spares]; lia.
Qed.

Lemma zero_registers_read_zero_witness :
  let w' := exec (riscv_store_gregset cheri_tdesc) (dirty_world cheri_tdesc) in
  let w'' := exec (low_fetch_register cheri_tdesc 68) (dirty_world cheri_tdesc) in
  register_is_zero cheri_tdesc 0 (registers w')
  /\ register_is_zero cheri_tdesc 68 (registers w')
  /\ (register_is_zero cheri_tdesc 68 (registers w'') /\ trace w'' = [Zeroed 68])
  /\ (exists w1, low_fetch_register cheri_tdesc 0 (dirty_world cheri_tdesc)
                 = Ok (true, w1))
  /\ (exists w1, riscv_store_gregset rv64_tdesc (dirty_world rv64_tdesc)
                 = Ok (tt, w1)
                 /\ Zeroed 0 ∈ trace w1 /\ never_supplied 0 (trace w1))
  /\ (exists w1, riscv_store_gregset cheri_tdesc (dirty_world cheri_tdesc)
                 = Ok (tt, w1)
                 /\ Zeroed 0 ∈ trace w1 /\ never_supplied 0 (trace w1)
                 /\ Zeroed 68 ∈ trace w1 /\ never_supplied 68 (trace w1)).
Proof.
  intros w' w''.
  assert (tdesc_wf cheri_tdesc) as Hwf by by_computation.
  assert (tdesc_wf rv64_tdesc) as Hwf64 by by_computation.
  destruct (zero_registers_read_zero cheri_tdesc Hwf)
    as (Hzero & Hcnull & Hfetch & Hreturns & _ & Hstore).
  destruct (zero_registers_read_zero rv64_tdesc Hwf64)
    as (_ & _ & _ & _ & Hplain & _).
  split; [|split; [|split; [|split; [|split]]]].
  - apply (Hzero (dirty_world cheri_tdesc) tt w' 0).
    + vm_compute; reflexivity.
    + reflexivity.
  - apply (Hcnull (dirty_world cheri_tdesc) tt w' 68 0 32).
    + vm_compute; reflexivity.
    + reflexivity.
    + reflexivity.
    + reflexivity.
    + reflexivity.
    + lia.
  - apply (Hfetch 68 (dirty_world cheri_tdesc) true w'').
    + vm_compute; reflexivity.
    + right. reflexivity.
  - apply (Hreturns 0 0 (dirty_world cheri_tdesc)).
    + vm_compute; reflexivity.
    + reflexivity.
    + left. reflexivity.
  - destruct (Hplain 0 32 8 (dirty_world rv64_tdesc)) as (w1 & t & H & Ht & Hz).
    + split; try reflexivity; try lia; by_computation.
    + vm_compute; reflexivity.
    + vm_compute; discriminate.
    + exists w1. split; [exact H|]. rewrite Ht. exact Hz.
  - destruct (Hstore 68 100 101 0 32 16 8 (dirty_world cheri_tdesc))
      as (w1 & t & H & Ht & Hz).
    + split; try reflexivity; try lia; by_computation.
    + vm_compute; reflexivity.
    + vm_compute; discriminate.
    + exists w1. split; [exact H|]. rewrite Ht. exact Hz.
Defined.

(** C6, as stated, fails for the collect callback: on the 64-bit descriptor
    it accesses 32 registers, not [pc - zero + 1 = 33]; it never reads
    [zero]. *)
Lemma fill_gregset_skips_zero :
  let w := sample_world rv64_tdesc in
  let w' := exec (riscv_fill_gregset rv64_tdesc) w in
  riscv_fill_gregset rv64_tdesc w = Ok (tt, w')
  /\ find_regno rv64_tdesc "zero" = Ok 0
  /\ find_regno rv64_tdesc "pc" = Ok 32
  /\ ~ touches (trace w') (32 - 0 + 1)
  /\ ~ In 0 (access_regno <$> trace w').
Proof.
  split; [vm_compute; reflexivity|]. split; [reflexivity|]. split; [reflexivity|].
  split.
  - intros [_ H]. vm_compute in H. discriminate.
  - vm_compute. intros H.
    repeat (destruct H as [H|H]; [discriminate H|]). exact H.
Qed.

(** C6 (amended). Without the capability extension both callbacks return
    and put [pc] at buffer offset 0 and registers [zero + 1 .. pc - 1] at
    offsets [i * xlen] for [i] from 1 to [pc - zero - 1]. The supply
    callback accesses exactly [pc - zero + 1] registers, [zero] among them,
    which it clears; the collect callback accesses exactly [pc - zero]
    registers and never [zero]. *)
Theorem plain_gregset_layout tdesc zn pn xlen w :
  plain_layout tdesc zn pn xlen -> cache_wf tdesc w ->
  (pn - zn) * xlen <= Z.of_nat (length (buf w)) ->
  (exists w',
     riscv_fill_gregset tdesc w = Ok (tt, w')
     /\ trace w' = trace w ++ collect_pass zn pn xlen
     /\ touches (collect_pass zn pn xlen) (pn - zn)
     /\ mem_read 0 xlen (buf w') = raw_register tdesc pn (registers w)
     /\ (forall i, 1 <= i < pn - zn ->
           mem_read (i * xlen) xlen (buf w')
           = raw_register tdesc (zn + i) (registers w)))
  /\ (exists w',
        riscv_store_gregset tdesc w = Ok (tt, w')
        /\ trace w' = trace w ++ supply_pass zn pn xlen
        /\ touches (supply_pass zn pn xlen) (pn - zn + 1)
        /\ raw_register tdesc pn (registers w') = mem_read 0 xlen (buf w)
        /\ (forall i, 1 <= i < pn - zn ->
              raw_register tdesc (zn + i) (registers w')
              = mem_read (i * xlen) xlen (buf w))).
Proof.
  intros L Hc Hbuf. pose proof (plain_order _ _ _ _ L). split.
  - destruct (plain_fill_spec tdesc zn pn xlen L w Hc Hbuf)
      as (w' & ? & _ & _ & ? & ? & ?).
    exists w'. repeat split; try done; by apply collect_pass_touches.
  - destruct (plain_store_spec tdesc zn pn xlen L w Hc Hbuf)
      as (w' & ? & _ & _ & ? & ? & _ & ? & _).
    exists w'. repeat split; try done; by apply supply_pass_touches.
Qed.

Lemma plain_gregset_layout_witness :
  (exists w', riscv_fill_gregset rv64_tdesc (sample_world rv64_tdesc) = Ok (tt, w')
              /\ trace w' = collect_pass 0 32 8)
  /\ (exists w', riscv_store_gregset rv64_tdesc (sample_world rv64_tdesc) = Ok (tt, w')
                 /\ trace w' = supply_pass 0 32 8).
Proof.
  destruct (plain_gregset_layout rv64_tdesc 0 32 8 (sample_world rv64_tdesc))
    as [(w1 & H1 & T1 & _) (w2 & H2 & T2 & _)].
  - split; try reflexivity; try lia; by_computation.
  - vm_compute; reflexivity.
  - vm_compute; discriminate.
  - split; [exists w1|exists w2]; split; assumption.
Defined.

(** C7, as stated, fails in its last part: the second pass of the collect
    callback uses the plain [pc] and [zero] numbers but not the plain
    width as its stride. On the capability descriptor [pc] is 8 bytes wide
    and [ra] (register 1) is collected at offset 16, not at [1 * 8]. *)
Lemma fill_gregset_second_pass_stride :
  let w := sample_world cheri_tdesc in
  let w' := exec (riscv_fill_gregset cheri_tdesc) w in
  riscv_fill_gregset cheri_tdesc w = Ok (tt, w')
  /\ register_size cheri_tdesc 32 = Ok 8
  /\ trace w' = cheri_collect_pass 68 100 101 16 ++ collect_pass 0 32 16
  /\ trace w' <> cheri_collect_pass 68 100 101 16 ++ collect_pass 0 32 8.
Proof.
  split; [vm_compute; reflexivity|]. split; [reflexivity|].
  split; [vm_compute; reflexivity|].
  vm_compute. intros [=].
Qed.

(** C7 (amended). With the capability extension the collect callback
    returns, having written [pcc] at buffer offset 0, [ddc] at offset
    [(pcc - cnull) * clen], the capability registers between [cnull] and
    [pcc] in ascending order at offsets [i * clen], and then, in a second
    pass with the plain [pc] and [zero] numbers, [pc] at offset 0 and plain
    register [zero + i] at offset [i * clen]: each plain register is copied
    at its own width [xlen] but at the capability stride, so that it
    overlays the low bytes of the capability slot with the same index. *)
Theorem cheri_gregset_layout tdesc cn pcn dn zn pn clen xlen w :
  cheri_layout tdesc cn pcn dn zn pn clen xlen -> cache_wf tdesc w ->
  (pcn - cn + 1) * clen <= Z.of_nat (length (buf w)) ->
  exists w',
    riscv_fill_gregset tdesc w = Ok (tt, w')
    /\ trace w' = trace w
                  ++ [Collect pcn 0; Collect dn ((pcn - cn) * clen)]
                  ++ ((fun i => Collect (cn + i) (i * clen)) <$> seqZ 1 (pcn - cn - 1))
                  ++ [Collect pn 0]
                  ++ ((fun i => Collect (zn + i) (i * clen)) <$> seqZ 1 (pn - zn - 1))
    /\ mem_read 0 xlen (buf w') = raw_register tdesc pn (registers w)
    /\ mem_read xlen (clen - xlen) (buf w')
       = drop (Z.to_nat xlen) <$> raw_register tdesc pcn (registers w)
    /\ (forall i, 1 <= i < pn - zn ->
          mem_read (i * clen) xlen (buf w')
          = raw_register tdesc (zn + i) (registers w))
    /\ (forall i, 1 <= i < pn - zn ->
          mem_read (i * clen + xlen) (clen - xlen) (buf w')
          = drop (Z.to_nat xlen) <$> raw_register tdesc (cn + i) (registers w))
    /\ (forall i, pn - zn <= i < pcn - cn ->
          mem_read (i * clen) clen (buf w')
          = raw_register tdesc (cn + i) (registers w))
    /\ mem_read ((pcn - cn) * clen) clen (buf w')
       = raw_register tdesc dn (registers w).
Proof.
  intros L Hc Hbuf.
  destruct (cheri_fill_spec tdesc cn pcn dn zn pn clen xlen L w Hc Hbuf)
    as (w' & ? & _ & _ & Htr & ?).
  exists w'. split; [done|]. split; [|done].
  rewrite Htr. unfold cheri_collect_pass, collect_pass.
  by rewrite <- !app_assoc.
Qed.

Lemma cheri_gregset_layout_witness :
  exists w',
    riscv_fill_gregset cheri_tdesc (sample_world cheri_tdesc) = Ok (tt, w')
    /\ mem_read 16 8 (buf w')
       = raw_register cheri_tdesc 1 (registers (sample_world cheri_tdesc)).
Proof.
  destruct (cheri_gregset_layout cheri_tdesc 68 100 101 0 32 16 8
              (sample_world cheri_tdesc))
    as (w' & H & _ & _ & _ & Hx & _).
  - split; try reflexivity; try lia; by_computation.
  - vm_compute; reflexivity.
  - vm_compute; discriminate.
  - exists w'. split; [exact H|]. apply (Hx 1). lia.
Defined.

(** ** The claims about the regset table and the program counter *)

(** C8. The floating-point candidates of the table are three rows, for the
    Q, the D and the F context sizes in this order, equal in everything
    (the fill and store callbacks included) but the declared size; picking
    the first candidate whose declared size is the size of the Q layout
    yields the first of them, the Q row. *)
Theorem fp_regsets_selection q d f :
  fp_candidates (riscv_regsets q d f) = fp_regset <$> [q; d; f]
  /\ Forall (fun r => fill_function r = Some riscv_fill_fpregset
                      /\ store_function r = Some riscv_store_fpregset)
       (fp_candidates (riscv_regsets q d f))
  /\ size <$> fp_candidates (riscv_regsets q d f) = [q; d; f]
  /\ select_regset q (fp_candidates (riscv_regsets q d f))
     = Some (0%nat, fp_regset q).
Proof.
  assert (fp_candidates (riscv_regsets q d f) = fp_regset <$> [q; d; f]) as ->
    by reflexivity.
  split; [done|]. split; [by repeat constructor|]. split; [done|].
  unfold select_regset. simpl. by rewrite decide_True.
Qed.

(** C9. Both accessors look the width of [pc] up in the descriptor they
    are handed and go to the 64-bit accessor of the cache exactly when it
    is 8 bytes, to the 32-bit accessor for every other width. *)
Theorem low_pc_dispatch
    (get64 get32 : target_desc -> M Z) (set64 set32 : target_desc -> Z -> M unit)
    tdesc regno newpc w :
  find_regno tdesc "pc" = Ok regno ->
  exists regsize,
    register_size tdesc regno = Ok regsize
    /\ (regsize = 8 ->
        low_get_pc get64 get32 tdesc w = get64 tdesc w
        /\ low_set_pc set64 set32 tdesc newpc w = set64 tdesc newpc w)
    /\ (regsize <> 8 ->
        low_get_pc get64 get32 tdesc w = get32 tdesc w
        /\ low_set_pc set64 set32 tdesc newpc w = set32 tdesc newpc w).
Proof.
  intros Hpc. destruct (find_regno_Some _ _ _ Hpc) as (r & Hr & _).
  exists (width r).
  assert (register_size tdesc regno = Ok (width r)) as Hsz
    by (unfold register_size; by rewrite Hr).
  split; [done|].
  unfold low_get_pc, low_set_pc.
  rewrite (bind_lift_Ok _ _ _ regno), (bind_lift_Ok _ _ _ (width r)) by done.
  rewrite (bind_lift_Ok _ _ _ regno), (bind_lift_Ok _ _ _ (width r)) by done.
  split; intros ?.
  - by rewrite !decide_True.
  - by rewrite !decide_False.
Qed.

Lemma low_pc_dispatch_witness :
  (low_get_pc (cache_get_pc 8) (cache_get_pc 4) rv64_tdesc (sample_world rv64_tdesc)
   = cache_get_pc 8 rv64_tdesc (sample_world rv64_tdesc)
   /\ low_set_pc (cache_set_pc 8) (cache_set_pc 4) rv64_tdesc 0x10000
        (sample_world rv64_tdesc)
      = cache_set_pc 8 rv64_tdesc 0x10000 (sample_world rv64_tdesc))
  /\ (low_get_pc (cache_get_pc 8) (cache_get_pc 4) rv32_tdesc (sample_world rv32_tdesc)
      = cache_get_pc 4 rv32_tdesc (sample_world rv32_tdesc)
      /\ low_set_pc (cache_set_pc 8) (cache_set_pc 4) rv32_tdesc 0x10000
           (sample_world rv32_tdesc)
         = cache_set_pc 4 rv32_tdesc 0x10000 (sample_world rv32_tdesc)).
Proof.
  split.
  - destruct (low_pc_dispatch (cache_get_pc 8) (cache_get_pc 4)
                (cache_set_pc 8) (cache_set_pc 4)
                rv64_tdesc 32 0x10000 (sample_world rv64_tdesc))
      as (sz & Hsz & H64 & _); [reflexivity|].
    apply H64. vm_compute in Hsz. congruence.
  - destruct (low_pc_dispatch (cache_get_pc 8) (cache_get_pc 4)
                (cache_set_pc 8) (cache_set_pc 4)
                rv32_tdesc 32 0x10000 (sample_world rv32_tdesc))
      as (sz & Hsz & _ & H32); [reflexivity|].
    apply H32. vm_compute in Hsz. injection Hsz as <-. lia.
Defined.

(** C10. The table has one general-purpose row, its first; that row has the
    supply callback [riscv_store_gregset] and no fill callback, so a
    set-registers transfer of the bank has nothing to invoke and leaves the
    buffer as it is. No row of the table has [riscv_fill_gregset] as its
    fill callback, although the function is defined. *)
Theorem general_regset_has_no_fill q d f :
  exists general,
    riscv_regsets q d f !! 0%nat = Some general
    /\ filter (fun r => type r = GENERAL_REGS) (riscv_regsets q d f) = [general]
    /\ fill_function general = None
    /\ store_function general = Some riscv_store_gregset
    /\ (forall tdesc w, regset_fill general tdesc w = Ok (tt, w))
    /\ Forall (fun r => fill_function r = None
                        \/ fill_function r = Some riscv_fill_fpregset)
         (riscv_regsets q d f)
    /\ riscv_fill_fpregset <> riscv_fill_gregset.
Proof.
  eexists. split; [reflexivity|]. split; [reflexivity|].
  split; [reflexivity|]. split; [reflexivity|]. split; [done|].
  split; [repeat (apply Forall_cons; split; [simpl; auto|]); by apply Forall_nil|].
  intros E.
  apply (f_equal (fun fill => fill rv64_tdesc (sample_world rv64_tdesc))) in E.
  vm_compute in E. discriminate E.
Qed.


(** * Further properties of the code *)

(** ** What the callbacks leave alone *)

Lemma iterate_inv (R : world -> world -> Prop) (body : Z -> M unit) :
  (forall w, R w w) ->
  (forall w1 w2 w3, R w1 w2 -> R w2 w3 -> R w1 w3) ->
  (forall i w u w', body i w = Ok (u, w') -> R w w') ->
  forall k lo w u w', iterate k lo body w = Ok (u, w') -> R w w'.
Proof.
  intros Hrefl Htrans Hbody. induction k as [|k IH]; intros lo w u w'; simpl.
  - intros [= _ <-]. apply Hrefl.
  - intros (a & w1 & Hstep & Hrest)%bind_inv.
    eapply Htrans; [by eapply Hbody|by eapply IH].
Qed.

Lemma keeps_cache_refl w : keeps_cache w w.
Proof. by split. Qed.

Lemma keeps_cache_trans w1 w2 w3 :
  keeps_cache w1 w2 -> keeps_cache w2 w3 -> keeps_cache w1 w3.
Proof. unfold keeps_cache. intros [? ?] [? ?]. split; congruence. Qed.

Lemma keeps_buffer_refl w : keeps_buffer w w.
Proof. by split. Qed.

Lemma keeps_buffer_trans w1 w2 w3 :
  keeps_buffer w1 w2 -> keeps_buffer w2 w3 -> keeps_buffer w1 w3.
Proof. unfold keeps_buffer. intros [? ?] [? ?]. split; congruence. Qed.

Lemma collect_register_keeps tdesc n off w u w' :
  collect_register tdesc n off w = Ok (u, w') -> keeps_cache w w'.
Proof.
  unfold collect_register.
  destruct (raw_register tdesc n (registers w)) as [data|]; [|done].
  destruct (mem_write off data (buf w)) as [b|] eqn:Hw; [|done].
  intros [= _ <-]. split; [done|]. simpl. by eapply mem_write_length.
Qed.

Lemma collect_register_by_name_keeps tdesc nm off w u w' :
  collect_register_by_name tdesc nm off w = Ok (u, w') -> keeps_cache w w'.
Proof.
  unfold collect_register_by_name.
  intros (n & w1 & [_ ->]%lift_inv & H)%bind_inv.
  by eapply collect_register_keeps.
Qed.

Lemma collect_loop_keeps tdesc lo hi (regno off : Z -> Z) w u w' :
  for_loop lo hi (fun i => collect_register tdesc (regno i) (off i)) w = Ok (u, w') ->
  keeps_cache w w'.
Proof.
  unfold for_loop. apply iterate_inv.
  - apply keeps_cache_refl.
  - apply keeps_cache_trans.
  - intros i w0 u0 w0'. apply collect_register_keeps.
Qed.

Lemma supply_register_keeps tdesc n off w u w' :
  supply_register tdesc n off w = Ok (u, w') -> keeps_buffer w w'.
Proof.
  unfold supply_register.
  destruct (find_register_by_number tdesc n) as [r|]; [|done].
  destruct (mem_read off (width r) (buf w)) as [data|]; [|done].
  destruct (mem_write _ data _) as [rs|] eqn:Hw; [|done].
  intros [= _ <-]. split; [done|]. simpl. by eapply mem_write_length.
Qed.

Lemma supply_register_zeroed_keeps tdesc n w u w' :
  supply_register_zeroed tdesc n w = Ok (u, w') -> keeps_buffer w w'.
Proof.
  unfold supply_register_zeroed.
  destruct (find_register_by_number tdesc n) as [r|]; [|done].
  case_decide; [|done].
  destruct (mem_write _ _ _) as [rs|] eqn:Hw; [|done].
  intros [= _ <-]. split; [done|]. simpl. by eapply mem_write_length.
Qed.

Lemma supply_register_by_name_keeps tdesc nm off w u w' :
  supply_register_by_name tdesc nm off w = Ok (u, w') -> keeps_buffer w w'.
Proof.
  unfold supply_register_by_name.
  intros (n & w1 & [_ ->]%lift_inv & H)%bind_inv.
  by eapply supply_register_keeps.
Qed.

Lemma supply_loop_keeps tdesc lo hi (regno off : Z -> Z) w u w' :
  for_loop lo hi (fun i => supply_register tdesc (regno i) (off i)) w = Ok (u, w') ->
  keeps_buffer w w'.
Proof.
  unfold for_loop. apply iterate_inv.
  - apply keeps_buffer_refl.
  - apply keeps_buffer_trans.
  - intros i w0 u0 w0'. apply supply_register_keeps.
Qed.

(** Takes a returned call apart into the steps it made. *)
Ltac invert_run H :=
  repeat first
    [ apply bind_inv in H as (? & ? & ? & H)
    | apply ret_inv in H as [? ?] ];
  repeat match goal with
    | E : lift _ _ = Ok _ |- _ => apply lift_inv in E as [? ?]
    | E : ret _ _ = Ok _ |- _ => apply ret_inv in E as [? ?]
    | E : bind _ _ _ = Ok _ |- _ => apply bind_inv in E as (? & ? & ? & E)
    end;
  subst.

Ltac cache_kept :=
  repeat match goal with
    | E : collect_register _ _ _ _ = Ok _ |- _ =>
        apply collect_register_keeps in E
    | E : collect_register_by_name _ _ _ _ = Ok _ |- _ =>
        apply collect_register_by_name_keeps in E
    | E : for_loop _ _ _ _ = Ok _ |- _ =>
        apply (collect_loop_keeps _ _ _ (fun i => _ + i) (fun i => i * _)) in E
    end;
  unfold keeps_cache in *; destruct_and?; split; congruence.

Ltac buffer_kept :=
  repeat match goal with
    | E : supply_register _ _ _ _ = Ok _ |- _ =>
        apply supply_register_keeps in E
    | E : supply_register_zeroed _ _ _ = Ok _ |- _ =>
        apply supply_register_zeroed_keeps in E
    | E : supply_register_by_name _ _ _ _ = Ok _ |- _ =>
        apply supply_register_by_name_keeps in E
    | E : for_loop _ _ _ _ = Ok _ |- _ =>
        apply (supply_loop_keeps _ _ _ (fun i => _ + i) (fun i => i * _)) in E
    end;
  unfold keeps_buffer in *; destruct_and?; split; congruence.

Lemma fill_gregset_keeps tdesc w u w' :
  riscv_fill_gregset tdesc w = Ok (u, w') -> keeps_cache w w'.
Proof.
  unfold riscv_fill_gregset. intros H.
  destruct (tdesc_contains_feature tdesc "org.gnu.gdb.riscv.cheri");
    invert_run H; cache_kept.
Qed.

Lemma fill_fpregset_keeps tdesc w u w' :
  riscv_fill_fpregset tdesc w = Ok (u, w') -> keeps_cache w w'.
Proof.
  unfold riscv_fill_fpregset. intros H. invert_run H. cache_kept.
Qed.

Lemma store_gregset_keeps tdesc w u w' :
  riscv_store_gregset tdesc w = Ok (u, w') -> keeps_buffer w w'.
Proof.
  unfold riscv_store_gregset. intros H.
  destruct (tdesc_contains_feature tdesc "org.gnu.gdb.riscv.cheri");
    invert_run H; buffer_kept.
Qed.

Lemma store_fpregset_keeps tdesc w u w' :
  riscv_store_fpregset tdesc w = Ok (u, w') -> keeps_buffer w w'.
Proof.
  unfold riscv_store_fpregset. intros H. invert_run H. buffer_kept.
Qed.

(** X1. Whatever the descriptor, the cache and the buffer: when a collect
    callback returns, the cache holds the bytes it held before and the
    buffer has kept its size. *)
Theorem fill_callbacks_keep_cache tdesc w u w' :
  riscv_fill_gregset tdesc w = Ok (u, w')
  \/ riscv_fill_fpregset tdesc w = Ok (u, w') ->
  registers w' = registers w /\ length (buf w') = length (buf w).
Proof.
  intros [H|H]; [by apply fill_gregset_keeps in H|by apply fill_fpregset_keeps in H].
Qed.

Lemma fill_callbacks_keep_cache_witness :
  registers (exec (riscv_fill_gregset cheri_tdesc) (sample_world cheri_tdesc))
  = sample_registers cheri_tdesc
  /\ registers (exec (riscv_fill_fpregset rv64_tdesc) (sample_world rv64_tdesc))
     = sample_registers rv64_tdesc.
Proof.
  split.
  - apply (fill_callbacks_keep_cache cheri_tdesc (sample_world cheri_tdesc) tt).
    left. vm_compute; reflexivity.
  - apply (fill_callbacks_keep_cache rv64_tdesc (sample_world rv64_tdesc) tt).
    right. vm_compute; reflexivity.
Defined.

(** X2. Whatever the descriptor, the cache and the buffer: when a supply
    callback returns, the buffer holds the bytes it held before and the
    cache has kept its size. *)
Theorem store_callbacks_keep_buffer tdesc w u w' :
  riscv_store_gregset tdesc w = Ok (u, w')
  \/ riscv_store_fpregset tdesc w = Ok (u, w') ->
  buf w' = buf w /\ length (registers w') = length (registers w).
Proof.
  intros [H|H]; [by apply store_gregset_keeps in H|by apply store_fpregset_keeps in H].
Qed.

Lemma store_callbacks_keep_buffer_witness :
  buf (exec (riscv_store_gregset cheri_tdesc) (dirty_world cheri_tdesc))
  = buf (dirty_world cheri_tdesc)
  /\ buf (exec (riscv_store_fpregset rv64_tdesc) (dirty_world rv64_tdesc))
     = buf (dirty_world rv64_tdesc).
Proof.
  split.
  - apply (store_callbacks_keep_buffer cheri_tdesc (dirty_world cheri_tdesc) tt).
    left. vm_compute; reflexivity.
  - apply (store_callbacks_keep_buffer rv64_tdesc (dirty_world rv64_tdesc) tt).
    right. vm_compute; reflexivity.
Defined.

(** ** Breakpoints: classification, reads, and insertion *)

(** X3. The classification answers 4 exactly when the two bytes at the
    address can be read, whatever they are, and 2 exactly when they cannot. *)
Theorem breakpoint_kind_from_pc_readable bo mem pc :
  (breakpoint_kind_from_pc bo mem pc = 4
   <-> is_Some (target_read_memory mem pc 2))
  /\ (breakpoint_kind_from_pc bo mem pc = 2
      <-> target_read_memory mem pc 2 = None).
Proof.
  destruct (target_read_memory mem pc 2) as [bytes|] eqn:Hrd.
  - rewrite (breakpoint_kind_from_pc_read bo mem pc bytes Hrd).
    unfold sizeof_riscv_ibreakpoint. split; split; try done; by eexists.
  - rewrite (breakpoint_kind_from_pc_failed bo mem pc Hrd).
    unfold sizeof_riscv_cbreakpoint. split; split; try done; by intros [? ?].
Qed.

(** X4. [low_breakpoint_at] always reads the two bytes at the address, and
    it reads the two bytes after them exactly when the first two were read
    and are the first half of the standard trap pattern; it reads nothing
    else. *)
Theorem low_breakpoint_at_second_read bo mem pc :
  snd (low_breakpoint_at bo mem pc)
  = if decide (target_read_memory mem pc 2 = Some (take 2 (standard_trap bo)))
    then [(pc, 2); (core_addr (pc + 2), 2)]
    else [(pc, 2)].
Proof.
  assert (take 2 (standard_trap bo) = bytes_of_uint16 bo 0x0073) as H0
    by (by destruct bo).
  assert (bytes_of_uint16 bo riscv_cbreakpoint <> bytes_of_uint16 bo 0x0073) as Hne
    by (by destruct bo).
  rewrite H0. unfold low_breakpoint_at. change sizeof_insn with 2.
  change (riscv_ibreakpoint !!! 0%nat) with 0x0073.
  destruct (target_read_memory mem pc 2) as [bytes|] eqn:Hrd.
  2:{ by rewrite decide_False. }
  pose proof (insn_is_pattern bo mem pc bytes riscv_cbreakpoint Hrd
                ltac:(by destruct bo)) as Ec.
  pose proof (insn_is_pattern bo mem pc bytes 0x0073 Hrd
                ltac:(by destruct bo)) as E0.
  destruct (decide (uint16_of_bytes bo bytes = riscv_cbreakpoint)) as [Hcb|Hcb].
  { apply Ec in Hcb as ->. rewrite decide_False; [done|]. by intros [= ?]. }
  destruct (decide (uint16_of_bytes bo bytes = 0x0073)) as [Hib|Hib].
  - apply E0 in Hib as ->. rewrite decide_True by done.
    by destruct (target_read_memory mem (core_addr (pc + 2)) 2).
  - rewrite decide_False; [done|]. intros [= ?]. apply Hib. by apply E0.
Qed.

Lemma read_written_bytes mem addr bytes : forall len k,
  (k + len <= length bytes)%nat ->
  read_bytes (write_memory mem addr bytes) (addr + Z.of_nat k) len
  = Some (take len (drop k bytes)).
Proof.
  induction len as [|len IH]; intros k Hk; simpl; [done|].
  destruct (lookup_lt_is_Some_2 bytes k ltac:(lia)) as [b Hb].
  unfold write_memory at 1. rewrite decide_True by lia.
  replace (Z.to_nat (addr + Z.of_nat k - addr)) with k by lia. rewrite Hb.
  replace (addr + Z.of_nat k + 1) with (addr + Z.of_nat (S k)) by lia.
  rewrite IH by lia. by rewrite (drop_S _ _ _ Hb).
Qed.

(** X5. A breakpoint of kind 2 or 4 whose pattern, as
    [sw_breakpoint_from_kind] hands it out, is stored at an address is
    found there by [low_breakpoint_at], in either byte order and whatever
    the memory held. *)
Theorem inserted_breakpoint_is_detected bo mem pc kind :
  kind = 2 \/ kind = 4 ->
  0 <= pc -> pc + kind <= 2 ^ 64 ->
  fst (low_breakpoint_at bo
         (write_memory mem pc (fst (sw_breakpoint_from_kind bo kind))) pc) = true.
Proof.
  intros Hk Hpc Hend. apply low_breakpoint_at_true. destruct Hk as [->| ->].
  - left. change (fst (sw_breakpoint_from_kind bo 2)) with (compact_trap bo).
    unfold target_read_memory. change (Z.to_nat 2) with 2%nat.
    pose proof (read_written_bytes mem pc (compact_trap bo) 2 0) as H.
    change (Z.of_nat 0) with 0 in H. rewrite Z.add_0_r in H.
    rewrite H by (destruct bo; simpl; lia). by destruct bo.
  - right. change (fst (sw_breakpoint_from_kind bo 4)) with (standard_trap bo).
    unfold target_read_memory, core_addr. rewrite Z.mod_small by lia.
    change (Z.to_nat 2) with 2%nat.
    pose proof (read_written_bytes mem pc (standard_trap bo) 2 0) as H.
    change (Z.of_nat 0) with 0 in H. rewrite Z.add_0_r in H.
    rewrite H by (destruct bo; simpl; lia).
    pose proof (read_written_bytes mem pc (standard_trap bo) 2 2) as H2.
    change (Z.of_nat 2) with 2 in H2. rewrite H2 by (destruct bo; simpl; lia).
    by destruct bo.
Qed.

Lemma inserted_breakpoint_is_detected_witness :
  fst (low_breakpoint_at BigEndian
         (write_memory (memory_of 0x10000 [Byte.x01; Byte.x00]) 0x10000
            (fst (sw_breakpoint_from_kind BigEndian 4))) 0x10000) = true
  /\ fst (low_breakpoint_at LittleEndian
            (write_memory (memory_of 0x10000 [Byte.x01; Byte.x00]) 0x10000
               (fst (sw_breakpoint_from_kind LittleEndian 2))) 0x10000) = true.
Proof.
  split.
  - apply (inserted_breakpoint_is_detected BigEndian _ 0x10000 4); [right; reflexivity|lia|lia].
  - apply (inserted_breakpoint_is_detected LittleEndian _ 0x10000 2); [left; reflexivity|lia|lia].
Defined.

(** ** Fetching a single register *)

Lemma find_regno_from_Err defs nm : forall i e,
  find_regno_from i defs nm = Err e -> e = UnknownRegister nm.
Proof.
  induction defs as [|r defs IH]; intros i e; simpl.
  - by intros [= <-].
  - destruct (String.eqb nm (name r)); [done|]. apply IH.
Qed.

(** X6. For a register other than [zero], [low_fetch_register] goes on to
    look up [cnull]: where the descriptor has one and the register is not
    it, the answer is false and nothing is touched; where the descriptor
    has none, as without the capability extension, the lookup is a fatal
    error. *)
Theorem low_fetch_register_other tdesc regno zn w :
  find_regno tdesc "zero" = Ok zn -> regno <> zn ->
  (forall cn, find_regno tdesc "cnull" = Ok cn -> regno <> cn ->
     low_fetch_register tdesc regno w = Ok (false, w))
  /\ ((forall cn, find_regno tdesc "cnull" <> Ok cn) ->
      low_fetch_register tdesc regno w = Err (UnknownRegister "cnull")).
Proof.
  intros Hzn Hne. unfold low_fetch_register.
  rewrite (bind_lift_Ok _ _ _ zn) by done. rewrite decide_True by done.
  split.
  - intros cn Hcn ?. rewrite (bind_lift_Ok _ _ _ cn) by done.
    by rewrite decide_True.
  - intros Hnone. unfold bind, lift.
    destruct (find_regno tdesc "cnull") as [cn|e] eqn:E.
    + by destruct (Hnone cn).
    + by apply find_regno_from_Err in E as ->.
Qed.

Lemma low_fetch_register_other_witness :
  low_fetch_register cheri_tdesc 1 (sample_world cheri_tdesc)
  = Ok (false, sample_world cheri_tdesc)
  /\ low_fetch_register rv64_tdesc 1 (sample_world rv64_tdesc)
     = Err (UnknownRegister "cnull").
Proof.
  split.
  - apply (proj1 (low_fetch_register_other cheri_tdesc 1 0 (sample_world cheri_tdesc)
                    ltac:(reflexivity) ltac:(lia)) 68); [reflexivity|lia].
  - apply (proj2 (low_fetch_register_other rv64_tdesc 1 0 (sample_world rv64_tdesc)
                    ltac:(reflexivity) ltac:(lia))).
    intros cn. vm_compute. discriminate.
Defined.

(** ** The floating-point bank and the capability supply *)

Lemma fp_collect_pass_touches fn cs flen :
  ~ (fn <= cs < fn + (ELF_NFPREG - 1)) ->
  touches (fp_collect_pass fn cs flen) ELF_NFPREG.
Proof.
  intros Hout. unfold touches, fp_collect_pass. split.
  - rewrite fmap_app, <- list_fmap_compose. apply NoDup_app. split; [|split].
    + apply NoDup_fmap_2_strong; [|apply NoDup_seqZ].
      intros i j _ _. simpl. lia.
    + intros n (i & -> & Hi%elem_of_seqZ)%list_elem_of_fmap.
      simpl. intros Heq%list_elem_of_singleton. unfold ELF_NFPREG in *. lia.
    + simpl. apply NoDup_singleton.
  - rewrite length_app, length_fmap, length_seqZ. simpl. unfold ELF_NFPREG. lia.
Qed.

Lemma fp_supply_pass_touches fn cs flen :
  ~ (fn <= cs < fn + (ELF_NFPREG - 1)) ->
  touches (fp_supply_pass fn cs flen) ELF_NFPREG.
Proof.
  intros Hout. unfold touches, fp_supply_pass. split.
  - rewrite fmap_app, <- list_fmap_compose. apply NoDup_app. split; [|split].
    + apply NoDup_fmap_2_strong; [|apply NoDup_seqZ].
      intros i j _ _. simpl. lia.
    + intros n (i & -> & Hi%elem_of_seqZ)%list_elem_of_fmap.
      simpl. intros Heq%list_elem_of_singleton. unfold ELF_NFPREG in *. lia.
    + simpl. apply NoDup_singleton.
  - rewrite length_app, length_fmap, length_seqZ. simpl. unfold ELF_NFPREG. lia.
Qed.

(** X7. On a descriptor whose 32 floating-point data registers are numbered
    from [ft0] on and are [flen] bytes wide, both floating-point callbacks
    return when the buffer has [32 * flen] bytes and room for [fcsr] after
    them; data register [ft0 + i] goes to or comes from offset [i * flen]
    and [fcsr] offset [32 * flen], and each callback accesses exactly these
    33 registers, each once. *)
Theorem fpregset_layout tdesc fn cs flen wcs w :
  fp_layout tdesc fn cs flen wcs -> cache_wf tdesc w ->
  (ELF_NFPREG - 1) * flen + wcs <= Z.of_nat (length (buf w)) ->
  (exists w',
     riscv_fill_fpregset tdesc w = Ok (tt, w')
     /\ trace w' = trace w ++ fp_collect_pass fn cs flen
     /\ touches (fp_collect_pass fn cs flen) 33
     /\ (forall i, 0 <= i < 32 ->
           mem_read (i * flen) flen (buf w')
           = raw_register tdesc (fn + i) (registers w))
     /\ mem_read (32 * flen) wcs (buf w') = raw_register tdesc cs (registers w))
  /\ (exists w',
        riscv_store_fpregset tdesc w = Ok (tt, w')
        /\ trace w' = trace w ++ fp_supply_pass fn cs flen
        /\ touches (fp_supply_pass fn cs flen) 33
        /\ (forall i, 0 <= i < 32 ->
              raw_register tdesc (fn + i) (registers w')
              = mem_read (i * flen) flen (buf w))
        /\ raw_register tdesc cs (registers w') = mem_read (32 * flen) wcs (buf w)).
Proof.
  intros L Hc Hbuf. pose proof (fp_fcsr_outside _ _ _ _ _ L). split.
  - destruct (fp_fill_spec tdesc fn cs flen wcs L w Hc Hbuf)
      as (w' & ? & _ & _ & ? & ? & ?).
    exists w'. repeat split; try done; by apply fp_collect_pass_touches.
  - destruct (fp_store_spec tdesc fn cs flen wcs L w Hc Hbuf)
      as (w' & ? & _ & _ & ? & ? & ? & _).
    exists w'. repeat split; try done; by apply fp_supply_pass_touches.
Qed.

Lemma fpregset_layout_witness :
  (exists w', riscv_fill_fpregset rv32_tdesc (sample_world rv32_tdesc) = Ok (tt, w')
              /\ trace w' = fp_collect_pass 33 67 4)
  /\ (exists w', riscv_store_fpregset rv32_tdesc (sample_world rv32_tdesc) = Ok (tt, w')
                 /\ trace w' = fp_supply_pass 33 67 4).
Proof.
  destruct (fpregset_layout rv32_tdesc 33 67 4 4 (sample_world rv32_tdesc))
    as [(w1 & H1 & T1 & _) (w2 & H2 & T2 & _)].
  - split; try reflexivity; try (unfold ELF_NFPREG; lia); by_computation.
  - vm_compute; reflexivity.
  - vm_compute; discriminate.
  - split; [exists w1|exists w2]; split; assumption.
Defined.

(** X8. With the capability extension the supply callback returns and
    reads [pcc] from buffer offset 0, [ddc] from offset
    [(pcc - cnull) * clen] and capability register [cnull + i] from offset
    [i * clen], whole slots of [clen] bytes; then [pc] from the low [xlen]
    bytes at offset 0 and plain register [zero + i] from the low [xlen]
    bytes of slot [i]. It clears [cnull] and [zero], and a register of
    neither bank is left as it was. *)
Theorem cheri_supply_layout tdesc cn pcn dn zn pn clen xlen w :
  cheri_layout tdesc cn pcn dn zn pn clen xlen -> cache_wf tdesc w ->
  (pcn - cn + 1) * clen <= Z.of_nat (length (buf w)) ->
  exists w',
    riscv_store_gregset tdesc w = Ok (tt, w')
    /\ trace w' = trace w
                  ++ [Supply pcn 0; Zeroed cn; Supply dn ((pcn - cn) * clen)]
                  ++ ((fun i => Supply (cn + i) (i * clen)) <$> seqZ 1 (pcn - cn - 1))
                  ++ [Supply pn 0; Zeroed zn]
                  ++ ((fun i => Supply (zn + i) (i * clen)) <$> seqZ 1 (pn - zn - 1))
    /\ raw_register tdesc pcn (registers w') = mem_read 0 clen (buf w)
    /\ raw_register tdesc dn (registers w')
       = mem_read ((pcn - cn) * clen) clen (buf w)
    /\ (forall i, 1 <= i < pcn - cn ->
          raw_register tdesc (cn + i) (registers w')
          = mem_read (i * clen) clen (buf w))
    /\ raw_register tdesc pn (registers w') = mem_read 0 xlen (buf w)
    /\ (forall i, 1 <= i < pn - zn ->
          raw_register tdesc (zn + i) (registers w')
          = mem_read (i * clen) xlen (buf w))
    /\ register_is_zero tdesc cn (registers w')
    /\ register_is_zero tdesc zn (registers w')
    /\ (forall m, ~ (cn <= m <= pcn) -> m <> dn -> ~ (zn <= m <= pn) ->
          raw_register tdesc m (registers w')
          = raw_register tdesc m (registers w)).
Proof.
  intros L Hc Hbuf.
  destruct (cheri_store_spec tdesc cn pcn dn zn pn clen xlen L w Hc Hbuf)
    as (w' & ? & _ & _ & Htr & ? & ? & ? & ? & ? & ? & ? & ?).
  exists w'. split; [done|]. split; [|done].
  rewrite Htr. unfold cheri_supply_pass, supply_pass.
  rewrite <- !app_assoc. done.
Qed.

Lemma cheri_supply_layout_witness :
  exists w',
    riscv_store_gregset cheri_tdesc (dirty_world cheri_tdesc) = Ok (tt, w')
    /\ raw_register cheri_tdesc 69 (registers w')
       = mem_read 16 16 (buf (dirty_world cheri_tdesc))
    /\ raw_register cheri_tdesc 1 (registers w')
       = mem_read 16 8 (buf (dirty_world cheri_tdesc)).
Proof.
  destruct (cheri_supply_layout cheri_tdesc 68 100 101 0 32 16 8
              (dirty_world cheri_tdesc))
    as (w' & H & _ & _ & _ & Hcap & _ & Hx & _).
  - split; try reflexivity; try lia; by_computation.
  - vm_compute; reflexivity.
  - vm_compute; discriminate.
  - exists w'. split; [exact H|]. split; [apply (Hcap 1)|apply (Hx 1)]; lia.
Defined.

(** X9. Without the capability extension the general-purpose supply leaves
    every register outside [zero .. pc] as it was, the floating-point
    registers among them; the floating-point supply leaves every register
    other than its 32 data registers and [fcsr] as it was. *)
Theorem supply_leaves_other_registers tdesc w :
  cache_wf tdesc w ->
  (forall zn pn xlen,
     plain_layout tdesc zn pn xlen ->
     (pn - zn) * xlen <= Z.of_nat (length (buf w)) ->
     exists w',
       riscv_store_gregset tdesc w = Ok (tt, w')
       /\ forall m, ~ (zn <= m <= pn) ->
            raw_register tdesc m (registers w') = raw_register tdesc m (registers w))
  /\ (forall fn cs flen wcs,
        fp_layout tdesc fn cs flen wcs ->
        (ELF_NFPREG - 1) * flen + wcs <= Z.of_nat (length (buf w)) ->
        exists w',
          riscv_store_fpregset tdesc w = Ok (tt, w')
          /\ forall m, ~ (fn <= m < fn + 32) -> m <> cs ->
               raw_register tdesc m (registers w')
               = raw_register tdesc m (registers w)).
Proof.
  intros Hc. split.
  - intros zn pn xlen L Hbuf.
    destruct (plain_store_spec tdesc zn pn xlen L w Hc Hbuf)
      as (w' & ? & _ & _ & _ & _ & _ & _ & ?).
    by exists w'.
  - intros fn cs flen wcs L Hbuf.
    destruct (fp_store_spec tdesc fn cs flen wcs L w Hc Hbuf)
      as (w' & ? & _ & _ & _ & _ & _ & ?).
    by exists w'.
Qed.

Lemma supply_leaves_other_registers_witness :
  (exists w',
     riscv_store_gregset rv64_tdesc (dirty_world rv64_tdesc) = Ok (tt, w')
     /\ raw_register rv64_tdesc 33 (registers w')
        = raw_register rv64_tdesc 33 (registers (dirty_world rv64_tdesc)))
  /\ (exists w',
        riscv_store_fpregset rv64_tdesc (dirty_world rv64_tdesc) = Ok (tt, w')
        /\ raw_register rv64_tdesc 32 (registers w')
           = raw_register rv64_tdesc 32 (registers (dirty_world rv64_tdesc))).
Proof.
  destruct (supply_leaves_other_registers rv64_tdesc (dirty_world rv64_tdesc))
    as [Hg Hf]; [vm_compute; reflexivity|].
  split.
  - destruct (Hg 0 32 8) as (w' & H & Hfr).
    + split; try reflexivity; try lia; by_computation.
    + vm_compute; discriminate.
    + exists w'. split; [exact H|]. apply Hfr. lia.
  - destruct (Hf 33 67 8 4) as (w' & H & Hfr).
    + split; try reflexivity; try (unfold ELF_NFPREG; lia); by_computation.
    + vm_compute; discriminate.
    + exists w'. split; [exact H|]. apply Hfr; lia.
Defined.

(** ** Buffers that are too small *)

Lemma bind_Err {A B} (m : M A) (k : A -> M B) w e :
  m w = Err e -> bind m k w = Err e.
Proof. unfold bind. by intros ->. Qed.

Section overflow.
Context (tdesc : target_desc) (Hwf : tdesc_wf tdesc).
Implicit Types (n off lo : Z) (w : world) (r : reg) (k : nat).

Lemma collect_register_overflow n off w r :
  find_register_by_number tdesc n = Some r -> cache_wf tdesc w ->
  Z.of_nat (length (buf w)) < off + width r ->
  collect_register tdesc n off w = Err UndefinedBehaviour.
Proof.
  intros Hr Hc Hlen.
  destruct (raw_register_is_Some tdesc Hwf n r w Hr Hc) as (data & Hdata & Hd).
  unfold collect_register. rewrite Hdata.
  unfold mem_write. by rewrite decide_False by lia.
Qed.

Lemma supply_register_overflow n off w r :
  find_register_by_number tdesc n = Some r ->
  Z.of_nat (length (buf w)) < off + width r ->
  supply_register tdesc n off w = Err UndefinedBehaviour.
Proof.
  intros Hr Hlen. unfold supply_register. rewrite Hr.
  unfold mem_read. by rewrite decide_False by lia.
Qed.

Lemma collect_loop_overflow base W wd : forall k lo w,
  0 <= lo -> wd <= W -> cache_wf tdesc w ->
  (forall i, lo <= i < lo + Z.of_nat k -> has_width tdesc wd (base + i)) ->
  (0 < k)%nat ->
  Z.of_nat (length (buf w)) < (lo + Z.of_nat k - 1) * W + wd ->
  iterate k lo (fun i => collect_register tdesc (base + i) (i * W)) w
  = Err UndefinedBehaviour.
Proof.
  induction k as [|k IH]; intros lo w Hlo HW Hc Hregs Hk Hlen; [lia|].
  destruct (Hregs lo) as (r & Hr & Hw); [lia|].
  pose proof (reg_width_nonneg _ Hwf _ _ Hr).
  assert (0 <= W) as HW0 by lia.
  pose proof (slot_nonneg lo W HW0 Hlo).
  simpl. destruct (decide (Z.of_nat (length (buf w)) < lo * W + wd)) as [Hov|Hfit].
  - apply bind_Err. eapply collect_register_overflow; [done..|lia].
  - destruct (collect_register_spec tdesc Hwf (base + lo) (lo * W) w r)
      as (b & Hstep & Hlenb & _); [done|done|lia|lia|].
    rewrite (bind_Ok _ _ _ _ _ Hstep).
    destruct k as [|k'].
    { exfalso. replace (lo + Z.of_nat 1 - 1) with lo in Hlen by lia. lia. }
    apply IH; [lia|done|done| |lia|].
    + intros i ?. apply Hregs. lia.
    + simpl. rewrite Hlenb.
      replace (lo + 1 + Z.of_nat (S k') - 1) with (lo + Z.of_nat (S (S k')) - 1) by lia.
      done.
Qed.

Lemma supply_loop_overflow base W wd : forall k lo w,
  0 <= lo -> wd <= W -> cache_wf tdesc w ->
  (forall i, lo <= i < lo + Z.of_nat k -> has_width tdesc wd (base + i)) ->
  (0 < k)%nat ->
  Z.of_nat (length (buf w)) < (lo + Z.of_nat k - 1) * W + wd ->
  iterate k lo (fun i => supply_register tdesc (base + i) (i * W)) w
  = Err UndefinedBehaviour.
Proof.
  induction k as [|k IH]; intros lo w Hlo HW Hc Hregs Hk Hlen; [lia|].
  destruct (Hregs lo) as (r & Hr & Hw); [lia|].
  pose proof (reg_width_nonneg _ Hwf _ _ Hr).
  assert (0 <= W) as HW0 by lia.
  pose proof (slot_nonneg lo W HW0 Hlo).
  simpl. destruct (decide (Z.of_nat (length (buf w)) < lo * W + wd)) as [Hov|Hfit].
  - apply bind_Err. eapply supply_register_overflow; [done|lia].
  - destruct (supply_register_spec tdesc Hwf (base + lo) (lo * W) w r)
      as (rs & Hstep & Hlenrs & _); [done|done|lia|lia|].
    rewrite (bind_Ok _ _ _ _ _ Hstep).
    destruct k as [|k'].
    { exfalso. replace (lo + Z.of_nat 1 - 1) with lo in Hlen by lia. lia. }
    apply IH; [lia|done| | |lia|].
    + unfold cache_wf in *. simpl. by rewrite Hlenrs.
    + intros i ?. apply Hregs. lia.
    + simpl.
      replace (lo + 1 + Z.of_nat (S k') - 1) with (lo + Z.of_nat (S (S k')) - 1) by lia.
      done.
Qed.
End overflow.

Lemma plain_fill_overflow tdesc zn pn xlen w :
  plain_layout tdesc zn pn xlen -> cache_wf tdesc w ->
  Z.of_nat (length (buf w)) < (pn - zn) * xlen ->
  riscv_fill_gregset tdesc w = Err UndefinedBehaviour.
Proof.
  intros L Hc Hlen. pose proof (plain_wf _ _ _ _ L) as Hwf.
  pose proof (plain_order _ _ _ _ L) as Ho.
  pose proof (plain_xlen_nonneg _ _ _ _ L) as Hx.
  destruct (plain_pc_reg _ _ _ _ L) as (rp & Hrp & Hwp).
  unfold riscv_fill_gregset.
  change "org.gnu.gdb.riscv.cheri" with cheri_feature.
  rewrite (plain_feature _ _ _ _ L).
  rewrite (bind_Ok _ _ _ _ _ (plain_regsize _ _ _ _ L w)).
  rewrite (bind_lift_Ok _ _ _ zn) by apply L.
  rewrite (bind_lift_Ok _ _ _ pn) by apply L.
  destruct (decide (Z.of_nat (length (buf w)) < xlen)) as [Hov|Hfit].
  - apply bind_Err. eapply collect_register_overflow; [done..|lia].
  - destruct (collect_register_spec tdesc Hwf pn 0 w rp)
      as (b & Hstep & Hlenb & _); [done|done|lia|lia|].
    rewrite (bind_Ok _ _ _ _ _ Hstep). unfold for_loop.
    assert (2 <= pn - zn) by nia.
    apply (collect_loop_overflow tdesc Hwf zn xlen xlen); [lia|lia|done| |lia|].
    + intros i ?. apply (plain_reg _ _ _ _ L). lia.
    + simpl. rewrite Hlenb, Z2Nat.id by lia.
      replace (1 + (pn - zn - 1) - 1) with (pn - zn - 1) by lia. lia.
Qed.

Lemma plain_store_overflow tdesc zn pn xlen w :
  plain_layout tdesc zn pn xlen -> cache_wf tdesc w ->
  Z.of_nat (length (buf w)) < (pn - zn) * xlen ->
  riscv_store_gregset tdesc w = Err UndefinedBehaviour.
Proof.
  intros L Hc Hlen. pose proof (plain_wf _ _ _ _ L) as Hwf.
  pose proof (plain_order _ _ _ _ L) as Ho.
  pose proof (plain_xlen_nonneg _ _ _ _ L) as Hx.
  destruct (plain_pc_reg _ _ _ _ L) as (rp & Hrp & Hwp).
  destruct (find_regno_Some _ _ _ (plain_zero _ _ _ _ L)) as (rz & Hrz & _).
  unfold riscv_store_gregset.
  change "org.gnu.gdb.riscv.cheri" with cheri_feature.
  rewrite (plain_feature _ _ _ _ L).
  rewrite (bind_Ok _ _ _ _ _ (plain_regsize _ _ _ _ L w)).
  rewrite (bind_lift_Ok _ _ _ zn) by apply L.
  rewrite (bind_lift_Ok _ _ _ pn) by apply L.
  destruct (decide (Z.of_nat (length (buf w)) < xlen)) as [Hov|Hfit].
  - apply bind_Err. eapply supply_register_overflow; [done|lia].
  - destruct (supply_register_spec tdesc Hwf pn 0 w rp)
      as (rs1 & Hstep1 & Hlen1 & _); [done|done|lia|lia|].
    rewrite (bind_Ok _ _ _ _ _ Hstep1).
    set (w1 := {| registers := rs1; buf := buf w;
                  trace := trace w ++ [Supply pn 0] |}).
    assert (cache_wf tdesc w1) as Hc1.
    { unfold cache_wf in *. simpl. by rewrite Hlen1. }
    destruct (supply_register_zeroed_spec tdesc Hwf zn w1 rz)
      as (rs2 & Hstep2 & Hlen2 & _); [done|done|].
    rewrite (bind_Ok _ _ _ _ _ Hstep2). unfold for_loop.
    assert (2 <= pn - zn) by nia.
    apply (supply_loop_overflow tdesc Hwf zn xlen xlen); [lia|lia| | |lia|].
    + unfold cache_wf in *. simpl in *. by rewrite Hlen2.
    + intros i ?. apply (plain_reg _ _ _ _ L). lia.
    + simpl. rewrite Z2Nat.id by lia.
      replace (1 + (pn - zn - 1) - 1) with (pn - zn - 1) by lia. lia.
Qed.

Lemma cheri_fill_overflow tdesc cn pcn dn zn pn clen xlen w :
  cheri_layout tdesc cn pcn dn zn pn clen xlen -> cache_wf tdesc w ->
  Z.of_nat (length (buf w)) < (pcn - cn + 1) * clen ->
  riscv_fill_gregset tdesc w = Err UndefinedBehaviour.
Proof.
  intros L Hc Hlen. pose proof (cheri_wf _ _ _ _ _ _ _ _ L) as Hwf.
  pose proof (cheri_cap_order _ _ _ _ _ _ _ _ L) as Ho.
  destruct (pcc_reg _ _ _ _ _ _ _ _ L) as (rp & Hrp & Hwp).
  destruct (cheri_ddc_width _ _ _ _ _ _ _ _ L) as (rd & Hrd & Hwd).
  pose proof (reg_width_nonneg _ Hwf _ _ Hrp).
  unfold riscv_fill_gregset.
  change "org.gnu.gdb.riscv.cheri" with cheri_feature.
  rewrite (cheri_present _ _ _ _ _ _ _ _ L). apply bind_Err.
  rewrite (bind_lift_Ok _ _ _ cn) by apply L.
  rewrite (bind_lift_Ok _ _ _ pcn) by apply L.
  rewrite (bind_lift_Ok _ _ _ clen)
    by (unfold register_size; rewrite Hrp; by f_equal).
  destruct (decide (Z.of_nat (length (buf w)) < clen)) as [Hov|Hfit].
  - apply bind_Err. eapply collect_register_overflow; [done..|lia].
  - destruct (collect_register_spec tdesc Hwf pcn 0 w rp)
      as (b & Hstep & Hlenb & _); [done|done|lia|lia|].
    rewrite (bind_Ok _ _ _ _ _ Hstep). apply bind_Err.
    rewrite (collect_register_by_name_Ok _ _ _ dn) by apply L.
    eapply collect_register_overflow; [done..|]. simpl. rewrite Hlenb. lia.
Qed.

Lemma cheri_store_overflow tdesc cn pcn dn zn pn clen xlen w :
  cheri_layout tdesc cn pcn dn zn pn clen xlen -> cache_wf tdesc w ->
  Z.of_nat (length (buf w)) < (pcn - cn + 1) * clen ->
  riscv_store_gregset tdesc w = Err UndefinedBehaviour.
Proof.
  intros L Hc Hlen. pose proof (cheri_wf _ _ _ _ _ _ _ _ L) as Hwf.
  pose proof (cheri_cap_order _ _ _ _ _ _ _ _ L) as Ho.
  destruct (pcc_reg _ _ _ _ _ _ _ _ L) as (rp & Hrp & Hwp).
  destruct (cheri_ddc_width _ _ _ _ _ _ _ _ L) as (rd & Hrd & Hwd).
  destruct (find_regno_Some _ _ _ (cheri_cnull _ _ _ _ _ _ _ _ L)) as (rn & Hrn & _).
  pose proof (reg_width_nonneg _ Hwf _ _ Hrp).
  unfold riscv_store_gregset.
  change "org.gnu.gdb.riscv.cheri" with cheri_feature.
  rewrite (cheri_present _ _ _ _ _ _ _ _ L). apply bind_Err.
  rewrite (bind_lift_Ok _ _ _ cn) by apply L.
  rewrite (bind_lift_Ok _ _ _ pcn) by apply L.
  rewrite (bind_lift_Ok _ _ _ clen)
    by (unfold register_size; rewrite Hrp; by f_equal).
  destruct (decide (Z.of_nat (length (buf w)) < clen)) as [Hov|Hfit].
  - apply bind_Err. eapply supply_register_overflow; [done|lia].
  - destruct (supply_register_spec tdesc Hwf pcn 0 w rp)
      as (rs1 & Hstep1 & Hlen1 & _); [done|done|lia|lia|].
    rewrite (bind_Ok _ _ _ _ _ Hstep1).
    set (w1 := {| registers := rs1; buf := buf w;
                  trace := trace w ++ [Supply pcn 0] |}).
    assert (cache_wf tdesc w1) as Hc1.
    { unfold cache_wf in *. simpl. by rewrite Hlen1. }
    destruct (supply_register_zeroed_spec tdesc Hwf cn w1 rn)
      as (rs2 & Hstep2 & Hlen2 & _); [done|done|].
    rewrite (bind_Ok _ _ _ _ _ Hstep2). apply bind_Err.
    rewrite (supply_register_by_name_Ok _ _ _ dn) by apply L.
    eapply supply_register_overflow; [done|]. simpl. lia.
Qed.

(** X10. On a descriptor with contiguous banks both general-purpose
    callbacks return exactly when the buffer reaches to the end of the last
    slot they use: [(pc - zero) * xlen] bytes without the capability
    extension, [(pcc - cnull + 1) * clen] bytes with it. On a shorter
    buffer either callback runs into an access outside the buffer. *)
Theorem gregset_buffer_bound tdesc w :
  cache_wf tdesc w ->
  (forall zn pn xlen,
     plain_layout tdesc zn pn xlen ->
     ((pn - zn) * xlen <= Z.of_nat (length (buf w)) ->
      (exists w', riscv_fill_gregset tdesc w = Ok (tt, w'))
      /\ (exists w', riscv_store_gregset tdesc w = Ok (tt, w')))
     /\ (Z.of_nat (length (buf w)) < (pn - zn) * xlen ->
         riscv_fill_gregset tdesc w = Err UndefinedBehaviour
         /\ riscv_store_gregset tdesc w = Err UndefinedBehaviour))
  /\ (forall cn pcn dn zn pn clen xlen,
        cheri_layout tdesc cn pcn dn zn pn clen xlen ->
        ((pcn - cn + 1) * clen <= Z.of_nat (length (buf w)) ->
         (exists w', riscv_fill_gregset tdesc w = Ok (tt, w'))
         /\ (exists w', riscv_store_gregset tdesc w = Ok (tt, w')))
        /\ (Z.of_nat (length (buf w)) < (pcn - cn + 1) * clen ->
            riscv_fill_gregset tdesc w = Err UndefinedBehaviour
            /\ riscv_store_gregset tdesc w = Err UndefinedBehaviour)).
Proof.
  intros Hc. split.
  - intros zn pn xlen L. split; intros Hlen.
    + destruct (plain_fill_spec tdesc zn pn xlen L w Hc Hlen) as (w1 & ? & _).
      destruct (plain_store_spec tdesc zn pn xlen L w Hc Hlen) as (w2 & ? & _).
      eauto.
    + split; [by eapply plain_fill_overflow|by eapply plain_store_overflow].
  - intros cn pcn dn zn pn clen xlen L. split; intros Hlen.
    + destruct (cheri_fill_spec tdesc cn pcn dn zn pn clen xlen L w Hc Hlen)
        as (w1 & ? & _).
      destruct (cheri_store_spec tdesc cn pcn dn zn pn clen xlen L w Hc Hlen)
        as (w2 & ? & _).
      eauto.
    + split; [by eapply cheri_fill_overflow|by eapply cheri_store_overflow].
Qed.

Lemma gregset_buffer_bound_witness :
  (riscv_fill_gregset rv64_tdesc (sized_world rv64_tdesc 255) = Err UndefinedBehaviour
   /\ (exists w', riscv_store_gregset rv64_tdesc (sized_world rv64_tdesc 256)
                  = Ok (tt, w')))
  /\ (riscv_store_gregset cheri_tdesc (sized_world cheri_tdesc 527)
      = Err UndefinedBehaviour
      /\ (exists w', riscv_fill_gregset cheri_tdesc (sized_world cheri_tdesc 528)
                     = Ok (tt, w'))).
Proof.
  assert (plain_layout rv64_tdesc 0 32 8) as Lp
    by (split; try reflexivity; try lia; by_computation).
  assert (cheri_layout cheri_tdesc 68 100 101 0 32 16 8) as Lc
    by (split; try reflexivity; try lia; by_computation).
  split; split.
  - apply (proj1 (gregset_buffer_bound rv64_tdesc (sized_world rv64_tdesc 255)
                    ltac:(vm_compute; reflexivity)) 0 32 8 Lp).
    vm_compute; reflexivity.
  - apply (proj1 (gregset_buffer_bound rv64_tdesc (sized_world rv64_tdesc 256)
                    ltac:(vm_compute; reflexivity)) 0 32 8 Lp).
    vm_compute; discriminate.
  - apply (proj2 (gregset_buffer_bound cheri_tdesc (sized_world cheri_tdesc 527)
                    ltac:(vm_compute; reflexivity)) 68 100 101 0 32 16 8 Lc).
    vm_compute; reflexivity.
  - apply (proj2 (gregset_buffer_bound cheri_tdesc (sized_world cheri_tdesc 528)
                    ltac:(vm_compute; reflexivity)) 68 100 101 0 32 16 8 Lc).
    vm_compute; discriminate.
Defined.

Lemma fp_fill_overflow tdesc fn cs flen wcs w :
  fp_layout tdesc fn cs flen wcs -> cache_wf tdesc w ->
  Z.of_nat (length (buf w)) < (ELF_NFPREG - 1) * flen + wcs ->
  riscv_fill_fpregset tdesc w = Err UndefinedBehaviour.
Proof.
  intros L Hc Hlen. pose proof (fp_wf _ _ _ _ _ L) as Hwf.
  pose proof (fp_flen_nonneg _ _ _ _ _ L) as Hx.
  destruct (fp_fcsr_width _ _ _ _ _ L) as (rc & Hrc & Hwc).
  unfold riscv_fill_fpregset.
  rewrite (bind_lift_Ok _ _ _ fn) by apply L.
  rewrite (bind_lift_Ok _ _ _ flen) by (by eapply fp_regsize).
  unfold for_loop.
  destruct (decide (Z.of_nat (length (buf w)) < (ELF_NFPREG - 1) * flen)) as [Hov|Hfit].
  - apply bind_Err.
    apply (collect_loop_overflow tdesc Hwf fn flen flen); [lia|lia|done| | |].
    + intros i ?. apply (fp_reg _ _ _ _ _ L). unfold ELF_NFPREG in *. lia.
    + unfold ELF_NFPREG. lia.
    + unfold ELF_NFPREG in *. lia.
  - destruct (collect_loop tdesc Hwf fn flen flen (Z.to_nat (ELF_NFPREG - 1 - 0)) 0 w)
      as (w1 & Hrun & Hregs & Hlen1 & _).
    { lia. } { done. } { done. }
    { intros i ?. apply (fp_reg _ _ _ _ _ L). unfold ELF_NFPREG in *. lia. }
    { unfold ELF_NFPREG in *. lia. }
    rewrite (bind_Ok _ _ _ _ _ Hrun).
    rewrite (collect_register_by_name_Ok _ _ _ cs) by apply L.
    eapply collect_register_overflow; [done..| |].
    + unfold cache_wf in *. by rewrite Hregs.
    + rewrite Hlen1. lia.
Qed.

Lemma fp_store_overflow tdesc fn cs flen wcs w :
  fp_layout tdesc fn cs flen wcs -> cache_wf tdesc w ->
  Z.of_nat (length (buf w)) < (ELF_NFPREG - 1) * flen + wcs ->
  riscv_store_fpregset tdesc w = Err UndefinedBehaviour.
Proof.
  intros L Hc Hlen. pose proof (fp_wf _ _ _ _ _ L) as Hwf.
  pose proof (fp_flen_nonneg _ _ _ _ _ L) as Hx.
  destruct (fp_fcsr_width _ _ _ _ _ L) as (rc & Hrc & Hwc).
  unfold riscv_store_fpregset.
  rewrite (bind_lift_Ok _ _ _ fn) by apply L.
  rewrite (bind_lift_Ok _ _ _ flen) by (by eapply fp_regsize).
  unfold for_loop.
  destruct (decide (Z.of_nat (length (buf w)) < (ELF_NFPREG - 1) * flen)) as [Hov|Hfit].
  - apply bind_Err.
    apply (supply_loop_overflow tdesc Hwf fn flen flen); [lia|lia|done| | |].
    + intros i ?. apply (fp_reg _ _ _ _ _ L). unfold ELF_NFPREG in *. lia.
    + unfold ELF_NFPREG. lia.
    + unfold ELF_NFPREG in *. lia.
  - destruct (supply_loop tdesc Hwf fn flen flen (Z.to_nat (ELF_NFPREG - 1 - 0)) 0 w)
      as (w1 & Hrun & Hbuf1 & _).
    { lia. } { done. } { done. }
    { intros i ?. apply (fp_reg _ _ _ _ _ L). unfold ELF_NFPREG in *. lia. }
    { unfold ELF_NFPREG in *. lia. }
    rewrite (bind_Ok _ _ _ _ _ Hrun).
    rewrite (supply_register_by_name_Ok _ _ _ cs) by apply L.
    eapply supply_register_overflow; [done|]. rewrite Hbuf1. lia.
Qed.

(** X11. On a descriptor with 32 floating-point data registers of [flen]
    bytes and an [fcsr] of [wcs] bytes, both floating-point callbacks
    return exactly when the buffer has [32 * flen + wcs] bytes; on a
    shorter one either callback runs into an access outside the buffer. *)
Theorem fpregset_buffer_bound tdesc fn cs flen wcs w :
  fp_layout tdesc fn cs flen wcs -> cache_wf tdesc w ->
  (32 * flen + wcs <= Z.of_nat (length (buf w)) ->
   (exists w', riscv_fill_fpregset tdesc w = Ok (tt, w'))
   /\ (exists w', riscv_store_fpregset tdesc w = Ok (tt, w')))
  /\ (Z.of_nat (length (buf w)) < 32 * flen + wcs ->
      riscv_fill_fpregset tdesc w = Err UndefinedBehaviour
      /\ riscv_store_fpregset tdesc w = Err UndefinedBehaviour).
Proof.
  intros L Hc. split; intros Hlen.
  - destruct (fp_fill_spec tdesc fn cs flen wcs L w Hc Hlen) as (w1 & ? & _).
    destruct (fp_store_spec tdesc fn cs flen wcs L w Hc Hlen) as (w2 & ? & _).
    eauto.
  - split; [by eapply fp_fill_overflow|by eapply fp_store_overflow].
Qed.

Lemma fpregset_buffer_bound_witness :
  riscv_store_fpregset rv32_tdesc (sized_world rv32_tdesc 131) = Err UndefinedBehaviour
  /\ (exists w', riscv_store_fpregset rv32_tdesc (sized_world rv32_tdesc 132)
                 = Ok (tt, w'))
  /\ riscv_fill_fpregset rv64_tdesc (sized_world rv64_tdesc 259) = Err UndefinedBehaviour
  /\ (exists w', riscv_fill_fpregset rv64_tdesc (sized_world rv64_tdesc 260)
                 = Ok (tt, w')).
Proof.
  assert (fp_layout rv32_tdesc 33 67 4 4) as L32
    by (split; try reflexivity; try (unfold ELF_NFPREG; lia); by_computation).
  assert (fp_layout rv64_tdesc 33 67 8 4) as L64
    by (split; try reflexivity; try (unfold ELF_NFPREG; lia); by_computation).
  split; [|split; [|split]].
  - apply (fpregset_buffer_bound rv32_tdesc 33 67 4 4 (sized_world rv32_tdesc 131) L32
             ltac:(vm_compute; reflexivity)).
    vm_compute; reflexivity.
  - apply (fpregset_buffer_bound rv32_tdesc 33 67 4 4 (sized_world rv32_tdesc 132) L32
             ltac:(vm_compute; reflexivity)).
    vm_compute; discriminate.
  - apply (fpregset_buffer_bound rv64_tdesc 33 67 8 4 (sized_world rv64_tdesc 259) L64
             ltac:(vm_compute; reflexivity)).
    vm_compute; reflexivity.
  - apply (fpregset_buffer_bound rv64_tdesc 33 67 8 4 (sized_world rv64_tdesc 260) L64
             ltac:(vm_compute; reflexivity)).
    vm_compute; discriminate.
Defined.

(** ** A cache that a supply has populated *)

Lemma mem_read_prefix o a b (m xs : list byte) :
  0 <= a <= b -> mem_read o b m = Some xs ->
  mem_read o a m = Some (take (Z.to_nat a) xs).
Proof.
  intros ? (? & ? & ? & ->)%mem_read_inv.
  rewrite mem_read_Some by lia. f_equal.
  rewrite take_take. f_equal. lia.
Qed.

Lemma overlay_prefix xlen (full : list byte) :
  overlay xlen (take (Z.to_nat xlen) full) full = full.
Proof. unfold overlay. apply take_drop. Qed.

Lemma register_is_zero_eq tdesc n regs regs' :
  register_is_zero tdesc n regs -> register_is_zero tdesc n regs' ->
  raw_register tdesc n regs' = raw_register tdesc n regs.
Proof. intros (r & Hr & ->) (r' & Hr' & ->). congruence. Qed.

Lemma plain_populated_fixed tdesc zn pn xlen w :
  plain_layout tdesc zn pn xlen -> cache_wf tdesc w ->
  (pn - zn) * xlen <= Z.of_nat (length (buf w)) ->
  exists w1,
    riscv_store_gregset tdesc w = Ok (tt, w1)
    /\ forall b, (pn - zn) * xlen <= Z.of_nat (length b) ->
         exists w2,
           gregset_round_trip tdesc (with_buffer b w1) = Ok (tt, w2)
           /\ forall m, raw_register tdesc m (registers w2)
                        = raw_register tdesc m (registers w1).
Proof.
  intros L Hc Hbuf.
  destruct (plain_store_spec tdesc zn pn xlen L w Hc Hbuf)
    as (w1 & Hstore & Hbuf1 & Hlen1 & _ & _ & Hzero1 & _).
  exists w1. split; [done|]. intros b Hb.
  destruct (plain_round_trip tdesc zn pn xlen (with_buffer b w1) L)
    as (w2 & Hrt & Hsame & Hzero2 & Hfr).
  { unfold cache_wf in *. simpl. by rewrite Hlen1. }
  { done. }
  exists w2. split; [done|]. intros m.
  change (registers w1) with (registers (with_buffer b w1)).
  destruct (decide (zn < m <= pn)); [by apply Hsame|].
  destruct (decide (m = zn)) as [->|]; [by apply register_is_zero_eq|].
  apply Hfr. lia.
Qed.

Lemma cheri_populated_fixed tdesc cn pcn dn zn pn clen xlen w :
  cheri_layout tdesc cn pcn dn zn pn clen xlen -> cache_wf tdesc w ->
  (pcn - cn + 1) * clen <= Z.of_nat (length (buf w)) ->
  exists w1,
    riscv_store_gregset tdesc w = Ok (tt, w1)
    /\ forall b, (pcn - cn + 1) * clen <= Z.of_nat (length b) ->
         exists w2,
           gregset_round_trip tdesc (with_buffer b w1) = Ok (tt, w2)
           /\ forall m, raw_register tdesc m (registers w2)
                        = raw_register tdesc m (registers w1).
Proof.
  intros L Hc Hbuf.
  pose proof (cheri_wf _ _ _ _ _ _ _ _ L) as Hwf.
  pose proof (cheri_xlen_le _ _ _ _ _ _ _ _ L) as Hle.
  pose proof (cheri_span _ _ _ _ _ _ _ _ L) as Hspan.
  pose proof (cheri_cap_order _ _ _ _ _ _ _ _ L) as Ho.
  pose proof (cheri_plain_order _ _ _ _ _ _ _ _ L) as Ho'.
  pose proof (cheri_xlen_nonneg _ _ _ _ _ _ _ _ L) as Hx0.
  destruct (cheri_store_spec tdesc cn pcn dn zn pn clen xlen L w Hc Hbuf)
    as (w1 & Hstore & Hbuf1 & Hlen1 & _ & Hpcc1 & Hcn1 & _ & Hcap1
        & Hpc1 & Hzn1 & Hx1 & _).
  exists w1. split; [done|]. intros b Hb.
  set (wb := with_buffer b w1).
  assert (cache_wf tdesc wb) as Hc1
    by (unfold cache_wf in *; simpl; by rewrite Hlen1).
  assert ((pcn - cn + 1) * clen <= Z.of_nat (length (buf wb))) as Hb1 by done.
  destruct (cheri_round_trip tdesc cn pcn dn zn pn clen xlen wb L Hc1 Hb1)
    as (w2 & Hrt & Hplain & Hzn2 & Hcn2 & Hddc & Hrest & Hover & Hpcc).
  exists w2. split; [done|]. intros m.
  change (registers w1) with (registers wb) in *.
  destruct (decide (zn < m <= pn)); [by apply Hplain|].
  destruct (decide (m = zn)) as [->|]; [by apply register_is_zero_eq|].
  destruct (decide (m = cn)) as [->|]; [by apply register_is_zero_eq|].
  destruct (decide (m = dn)) as [->|]; [done|].
  destruct (decide (m = pcn)) as [->|].
  { destruct (pcc_reg _ _ _ _ _ _ _ _ L) as (rc & Hrc & Hwc).
    destruct (raw_register_is_Some tdesc Hwf pcn rc wb Hrc Hc1) as (full & Hfull & _).
    rewrite Hfull in Hpcc1. symmetry in Hpcc1.
    pose proof (mem_read_prefix 0 xlen clen _ _ ltac:(lia) Hpcc1) as Hlow.
    rewrite <- Hpc1 in Hlow.
    rewrite (Hpcc _ _ Hlow Hfull), Hfull. f_equal. apply overlay_prefix. }
  destruct (decide (cn < m < pcn)) as [Hin|Hout].
  - replace m with (cn + (m - cn)) by lia.
    destruct (decide (m - cn < pn - zn)); [|apply Hrest; lia].
    destruct (cap_reg _ _ _ _ _ _ _ _ L (m - cn)) as (rc & Hrc & Hwc); [lia|].
    destruct (raw_register_is_Some tdesc Hwf _ rc wb Hrc Hc1) as (full & Hfull & _).
    pose proof (Hcap1 (m - cn) ltac:(lia)) as Hslot.
    rewrite Hfull in Hslot. symmetry in Hslot.
    pose proof (mem_read_prefix _ xlen clen _ _ ltac:(lia) Hslot) as Hlow.
    rewrite <- Hx1 in Hlow by lia.
    rewrite (Hover (m - cn) _ _ ltac:(lia) Hlow Hfull), Hfull. f_equal.
    apply overlay_prefix.
  - unfold gregset_round_trip in Hrt.
    apply bind_inv in Hrt as (? & wa & Hfill & Hst).
    destruct (fill_gregset_keeps _ _ _ _ Hfill) as [Hra Hba].
    destruct (cheri_store_spec tdesc cn pcn dn zn pn clen xlen L wa)
      as (w2' & Hst' & _ & _ & _ & _ & _ & _ & _ & _ & _ & _ & Hfr).
    { unfold cache_wf in *. by rewrite Hra. }
    { by rewrite Hba. }
    assert (w2' = w2) as -> by congruence.
    rewrite Hfr by lia. by rewrite Hra.
Qed.

(** X12. A cache that the general-purpose supply callback has just
    populated is a fixed point of collecting and supplying: whatever
    buffer of sufficient size it is then collected into and supplied back
    from, every register comes back as it was. This holds with the
    capability extension as well, where the supply populates each
    capability register and the plain register sharing its slot from the
    same bytes. *)
Theorem populated_cache_round_trip tdesc w :
  cache_wf tdesc w ->
  (forall zn pn xlen,
     plain_layout tdesc zn pn xlen ->
     (pn - zn) * xlen <= Z.of_nat (length (buf w)) ->
     exists w1,
       riscv_store_gregset tdesc w = Ok (tt, w1)
       /\ forall b, (pn - zn) * xlen <= Z.of_nat (length b) ->
            exists w2,
              gregset_round_trip tdesc (with_buffer b w1) = Ok (tt, w2)
              /\ forall m, raw_register tdesc m (registers w2)
                           = raw_register tdesc m (registers w1))
  /\ (forall cn pcn dn zn pn clen xlen,
        cheri_layout tdesc cn pcn dn zn pn clen xlen ->
        (pcn - cn + 1) * clen <= Z.of_nat (length (buf w)) ->
        exists w1,
          riscv_store_gregset tdesc w = Ok (tt, w1)
          /\ forall b, (pcn - cn + 1) * clen <= Z.of_nat (length b) ->
               exists w2,
                 gregset_round_trip tdesc (with_buffer b w1) = Ok (tt, w2)
                 /\ forall m, raw_register tdesc m (registers w2)
                              = raw_register tdesc m (registers w1)).
Proof.
  intros Hc. split.
  - intros zn pn xlen L Hbuf. by eapply plain_populated_fixed.
  - intros cn pcn dn zn pn clen xlen L Hbuf. by eapply cheri_populated_fixed.
Qed.

Lemma populated_cache_round_trip_witness :
  (exists w1,
     riscv_store_gregset rv64_tdesc (dirty_world rv64_tdesc) = Ok (tt, w1)
     /\ exists w2,
          gregset_round_trip rv64_tdesc
            (with_buffer (zero_bytes MAX_REGSET_SIZE) w1) = Ok (tt, w2)
          /\ raw_register rv64_tdesc 1 (registers w2)
             = raw_register rv64_tdesc 1 (registers w1))
  /\ (exists w1,
        riscv_store_gregset cheri_tdesc (dirty_world cheri_tdesc) = Ok (tt, w1)
        /\ exists w2,
             gregset_round_trip cheri_tdesc
               (with_buffer (zero_bytes MAX_REGSET_SIZE) w1) = Ok (tt, w2)
             /\ raw_register cheri_tdesc 69 (registers w2)
                = raw_register cheri_tdesc 69 (registers w1)).
Proof.
  split.
  - destruct (populated_cache_round_trip rv64_tdesc (dirty_world rv64_tdesc))
      as [Hplain _]; [vm_compute; reflexivity|].
    destruct (Hplain 0 32 8) as (w1 & H1 & Hall).
    + split; try reflexivity; try lia; by_computation.
    + vm_compute; discriminate.
    + exists w1. split; [exact H1|].
      destruct (Hall (zero_bytes MAX_REGSET_SIZE)) as (w2 & H2 & Hsame);
        [vm_compute; discriminate|].
      exists w2. split; [exact H2|apply Hsame].
  - destruct (populated_cache_round_trip cheri_tdesc (dirty_world cheri_tdesc))
      as [_ Hcheri]; [vm_compute; reflexivity|].
    destruct (Hcheri 68 100 101 0 32 16 8) as (w1 & H1 & Hall).
    + split; try reflexivity; try lia; by_computation.
    + vm_compute; discriminate.
    + exists w1. split; [exact H1|].
      destruct (Hall (zero_bytes MAX_REGSET_SIZE)) as (w2 & H2 & Hsame);
        [vm_compute; discriminate|].
      exists w2. split; [exact H2|apply Hsame].
Defined.

(** ** Supplying, then collecting *)

Lemma mem_write_same o l (bs m : list byte) :
  mem_read o l m = Some bs -> mem_write o bs m = Some m.
Proof.
  intros Hr. pose proof (mem_read_length _ _ _ _ Hr) as Hlen.
  apply mem_read_inv in Hr as (? & ? & ? & Hbs).
  rewrite mem_write_Some by lia. f_equal.
  rewrite <- (take_drop (Z.to_nat o) m) at 3. f_equal.
  rewrite <- (take_drop (Z.to_nat l) (drop (Z.to_nat o) m)).
  rewrite <- Hbs, drop_drop. do 2 f_equal. lia.
Qed.

(** Collecting a register into a buffer that already holds its bytes at
    the offset changes nothing. *)
Lemma collect_register_agree tdesc n off l w u w' :
  mem_read off l (buf w) = raw_register tdesc n (registers w) ->
  collect_register tdesc n off w = Ok (u, w') ->
  buf w' = buf w /\ registers w' = registers w.
Proof.
  intros Hagree. unfold collect_register.
  destruct (raw_register tdesc n (registers w)) as [data|]; [|done].
  rewrite (mem_write_same _ _ _ _ Hagree). by intros [= _ <-].
Qed.

Lemma collect_iterate_agree tdesc base W wd : forall k lo w u w',
  (forall i, lo <= i < lo + Z.of_nat k ->
     mem_read (i * W) wd (buf w) = raw_register tdesc (base + i) (registers w)) ->
  iterate k lo (fun i => collect_register tdesc (base + i) (i * W)) w = Ok (u, w') ->
  buf w' = buf w /\ registers w' = registers w.
Proof.
  induction k as [|k IH]; intros lo w u w' Hall; simpl.
  - by intros [= _ <-].
  - intros (a & w1 & Hstep & Hrest)%bind_inv.
    destruct (collect_register_agree _ _ _ _ _ _ _ (Hall lo ltac:(lia)) Hstep)
      as [Hb1 Hr1].
    destruct (IH (lo + 1) w1 u w') as [Hb Hrr]; [|done|split; congruence].
    intros i ?. rewrite Hb1, Hr1. apply Hall. lia.
Qed.

Lemma plain_fill_agree tdesc zn pn xlen w u w' :
  plain_layout tdesc zn pn xlen ->
  mem_read 0 xlen (buf w) = raw_register tdesc pn (registers w) ->
  (forall i, 1 <= i < pn - zn ->
     mem_read (i * xlen) xlen (buf w) = raw_register tdesc (zn + i) (registers w)) ->
  riscv_fill_gregset tdesc w = Ok (u, w') ->
  buf w' = buf w.
Proof.
  intros L Hpc Hx. pose proof (plain_order _ _ _ _ L) as Ho.
  unfold riscv_fill_gregset.
  change "org.gnu.gdb.riscv.cheri" with cheri_feature.
  rewrite (plain_feature _ _ _ _ L).
  rewrite (bind_Ok _ _ _ _ _ (plain_regsize _ _ _ _ L w)).
  rewrite (bind_lift_Ok _ _ _ zn) by apply L.
  rewrite (bind_lift_Ok _ _ _ pn) by apply L.
  intros (? & w1 & Hstep & Hloop)%bind_inv.
  destruct (collect_register_agree _ _ _ _ _ _ _ Hpc Hstep) as [Hb1 Hr1].
  unfold for_loop in Hloop.
  apply (collect_iterate_agree tdesc zn xlen xlen) in Hloop as [Hb _]; [congruence|].
  intros i ?. rewrite Hb1, Hr1. apply Hx. lia.
Qed.

Lemma fp_fill_agree tdesc fn cs flen wcs w u w' :
  fp_layout tdesc fn cs flen wcs ->
  (forall i, 0 <= i < ELF_NFPREG - 1 ->
     mem_read (i * flen) flen (buf w) = raw_register tdesc (fn + i) (registers w)) ->
  mem_read ((ELF_NFPREG - 1) * flen) wcs (buf w)
  = raw_register tdesc cs (registers w) ->
  riscv_fill_fpregset tdesc w = Ok (u, w') ->
  buf w' = buf w.
Proof.
  intros L Hf Hcs.
  unfold riscv_fill_fpregset.
  rewrite (bind_lift_Ok _ _ _ fn) by apply L.
  rewrite (bind_lift_Ok _ _ _ flen) by (by eapply fp_regsize).
  intros (? & w1 & Hloop & Hstep)%bind_inv.
  unfold for_loop in Hloop.
  apply (collect_iterate_agree tdesc fn flen flen) in Hloop as [Hb1 Hr1]; cycle 1.
  { intros i ?. apply Hf. unfold ELF_NFPREG in *. lia. }
  rewrite (collect_register_by_name_Ok _ _ _ cs) in Hstep by apply L.
  rewrite <- Hb1, <- Hr1 in Hcs.
  destruct (collect_register_agree _ _ _ _ _ _ _ Hcs Hstep) as [Hb _].
  congruence.
Qed.

Lemma cheri_fill_agree tdesc cn pcn dn zn pn clen xlen w u w' :
  cheri_layout tdesc cn pcn dn zn pn clen xlen ->
  mem_read 0 clen (buf w) = raw_register tdesc pcn (registers w) ->
  mem_read ((pcn - cn) * clen) clen (buf w) = raw_register tdesc dn (registers w) ->
  (forall i, 1 <= i < pcn - cn ->
     mem_read (i * clen) clen (buf w) = raw_register tdesc (cn + i) (registers w)) ->
  mem_read 0 xlen (buf w) = raw_register tdesc pn (registers w) ->
  (forall i, 1 <= i < pn - zn ->
     mem_read (i * clen) xlen (buf w) = raw_register tdesc (zn + i) (registers w)) ->
  riscv_fill_gregset tdesc w = Ok (u, w') ->
  buf w' = buf w.
Proof.
  intros L Hpcc Hddc Hcap Hpc Hx.
  pose proof (cheri_cap_order _ _ _ _ _ _ _ _ L) as Ho.
  pose proof (cheri_plain_order _ _ _ _ _ _ _ _ L) as Ho'.
  destruct (pcc_reg _ _ _ _ _ _ _ _ L) as (rc & Hrc & Hwc).
  unfold riscv_fill_gregset.
  change "org.gnu.gdb.riscv.cheri" with cheri_feature.
  rewrite (cheri_present _ _ _ _ _ _ _ _ L).
  intros (regsize & w4 & Hpass1 & Hpass2)%bind_inv.
  (* the capability pass *)
  rewrite (bind_lift_Ok _ _ _ cn) in Hpass1 by apply L.
  rewrite (bind_lift_Ok _ _ _ pcn) in Hpass1 by apply L.
  rewrite (bind_lift_Ok _ _ _ clen) in Hpass1
    by (unfold register_size; rewrite Hrc; by f_equal).
  apply bind_inv in Hpass1 as (? & w1 & Hs1 & Hpass1).
  apply bind_inv in Hpass1 as (? & w2 & Hs2 & Hpass1).
  apply bind_inv in Hpass1 as (? & w3 & Hs3 & [-> ->]%ret_inv).
  destruct (collect_register_agree _ _ _ _ _ _ _ Hpcc Hs1) as [Hb1 Hr1].
  rewrite (collect_register_by_name_Ok _ _ _ dn) in Hs2 by apply L.
  rewrite <- Hb1, <- Hr1 in Hddc.
  destruct (collect_register_agree _ _ _ _ _ _ _ Hddc Hs2) as [Hb2 Hr2].
  unfold for_loop in Hs3.
  apply (collect_iterate_agree tdesc cn clen clen) in Hs3 as [Hb3 Hr3]; cycle 1.
  { intros i ?. rewrite Hb2, Hr2, Hb1, Hr1. apply Hcap. lia. }
  (* the plain pass *)
  rewrite (bind_lift_Ok _ _ _ zn) in Hpass2 by apply L.
  rewrite (bind_lift_Ok _ _ _ pn) in Hpass2 by apply L.
  apply bind_inv in Hpass2 as (? & w5 & Hs5 & Hs6).
  assert (buf w3 = buf w) as Hb by congruence.
  assert (registers w3 = registers w) as Hr by congruence.
  rewrite <- Hb, <- Hr in Hpc.
  destruct (collect_register_agree _ _ _ _ _ _ _ Hpc Hs5) as [Hb5 Hr5].
  unfold for_loop in Hs6.
  apply (collect_iterate_agree tdesc zn clen xlen) in Hs6 as [Hb6 _]; [congruence|].
  intros i ?. rewrite Hb5, Hr5, Hb, Hr. apply Hx. lia.
Qed.

(** X13. Supplying the cache from a buffer and then collecting the cache
    into that buffer returns and leaves the buffer byte for byte as it
    was: for the general-purpose bank without and with the capability
    extension, and for the floating-point bank. *)
Theorem supply_collect_keeps_buffer tdesc w :
  cache_wf tdesc w ->
  (forall zn pn xlen,
     plain_layout tdesc zn pn xlen ->
     (pn - zn) * xlen <= Z.of_nat (length (buf w)) ->
     exists w', gregset_supply_collect tdesc w = Ok (tt, w') /\ buf w' = buf w)
  /\ (forall cn pcn dn zn pn clen xlen,
        cheri_layout tdesc cn pcn dn zn pn clen xlen ->
        (pcn - cn + 1) * clen <= Z.of_nat (length (buf w)) ->
        exists w', gregset_supply_collect tdesc w = Ok (tt, w') /\ buf w' = buf w)
  /\ (forall fn cs flen wcs,
        fp_layout tdesc fn cs flen wcs ->
        (ELF_NFPREG - 1) * flen + wcs <= Z.of_nat (length (buf w)) ->
        exists w', fpregset_supply_collect tdesc w = Ok (tt, w') /\ buf w' = buf w).
Proof.
  intros Hc. split; [|split].
  - intros zn pn xlen L Hbuf.
    destruct (plain_store_spec tdesc zn pn xlen L w Hc Hbuf)
      as (w1 & Hstore & Hbuf1 & Hlen1 & _ & Hpc & _ & Hx & _).
    destruct (plain_fill_spec tdesc zn pn xlen L w1) as (w2 & Hfill & _).
    { unfold cache_wf in *. by rewrite Hlen1. }
    { by rewrite Hbuf1. }
    exists w2. split.
    { unfold gregset_supply_collect. by rewrite (bind_Ok _ _ _ _ _ Hstore). }
    rewrite <- Hbuf1. eapply plain_fill_agree; [done| | |done].
    + by rewrite Hbuf1.
    + intros i ?. rewrite Hbuf1. symmetry. by apply Hx.
  - intros cn pcn dn zn pn clen xlen L Hbuf.
    destruct (cheri_store_spec tdesc cn pcn dn zn pn clen xlen L w Hc Hbuf)
      as (w1 & Hstore & Hbuf1 & Hlen1 & _ & Hpcc & _ & Hddc & Hcap & Hpc & _ & Hx & _).
    destruct (cheri_fill_spec tdesc cn pcn dn zn pn clen xlen L w1) as (w2 & Hfill & _).
    { unfold cache_wf in *. by rewrite Hlen1. }
    { by rewrite Hbuf1. }
    exists w2. split.
    { unfold gregset_supply_collect. by rewrite (bind_Ok _ _ _ _ _ Hstore). }
    rewrite <- Hbuf1. eapply cheri_fill_agree; [done|..|done]; rewrite ?Hbuf1; try done.
    + intros i ?. symmetry. by apply Hcap.
    + intros i ?. symmetry. by apply Hx.
  - intros fn cs flen wcs L Hbuf.
    destruct (fp_store_spec tdesc fn cs flen wcs L w Hc Hbuf)
      as (w1 & Hstore & Hbuf1 & Hlen1 & _ & Hf & Hcs & _).
    destruct (fp_fill_spec tdesc fn cs flen wcs L w1) as (w2 & Hfill & _).
    { unfold cache_wf in *. by rewrite Hlen1. }
    { by rewrite Hbuf1. }
    exists w2. split.
    { unfold fpregset_supply_collect. by rewrite (bind_Ok _ _ _ _ _ Hstore). }
    rewrite <- Hbuf1. eapply fp_fill_agree; [done| | |done].
    + intros i ?. rewrite Hbuf1. symmetry. by apply Hf.
    + by rewrite Hbuf1.
Qed.

Lemma supply_collect_keeps_buffer_witness :
  (exists w', gregset_supply_collect rv64_tdesc (dirty_world rv64_tdesc) = Ok (tt, w')
              /\ buf w' = buf (dirty_world rv64_tdesc))
  /\ (exists w', gregset_supply_collect cheri_tdesc (dirty_world cheri_tdesc) = Ok (tt, w')
                 /\ buf w' = buf (dirty_world cheri_tdesc))
  /\ (exists w', fpregset_supply_collect rv64_tdesc (dirty_world rv64_tdesc) = Ok (tt, w')
                 /\ buf w' = buf (dirty_world rv64_tdesc)).
Proof.
  split; [|split].
  - destruct (supply_collect_keeps_buffer rv64_tdesc (dirty_world rv64_tdesc))
      as (Hplain & _); [vm_compute; reflexivity|].
    apply (Hplain 0 32 8).
    + split; try reflexivity; try lia; by_computation.
    + vm_compute; discriminate.
  - destruct (supply_collect_keeps_buffer cheri_tdesc (dirty_world cheri_tdesc))
      as (_ & Hcheri & _); [vm_compute; reflexivity|].
    apply (Hcheri 68 100 101 0 32 16 8).
    + split; try reflexivity; try lia; by_computation.
    + vm_compute; discriminate.
  - destruct (supply_collect_keeps_buffer rv64_tdesc (dirty_world rv64_tdesc))
      as (_ & _ & Hfp); [vm_compute; reflexivity|].
    apply (Hfp 33 67 8 4).
    + split; try reflexivity; try (unfold ELF_NFPREG; lia); by_computation.
    + vm_compute; discriminate.
Defined.

(** ** The pattern chosen for an address *)

(** X14. The pattern [sw_breakpoint_from_kind] hands out for the kind that
    [breakpoint_kind_from_pc] chose for an address has exactly the
    reported size in bytes; it is the standard trap when the two bytes at
    the address can be read and the compact trap when they cannot. *)
Theorem breakpoint_for_pc bo mem pc :
  let bp := sw_breakpoint_from_kind bo (breakpoint_kind_from_pc bo mem pc) in
  Z.of_nat (length (fst bp)) = snd bp
  /\ fst bp = match target_read_memory mem pc 2 with
              | Some _ => standard_trap bo
              | None => compact_trap bo
              end.
Proof.
  destruct (target_read_memory mem pc 2) as [bytes|] eqn:Hrd; simpl.
  - rewrite (breakpoint_kind_from_pc_read bo mem pc bytes Hrd). by destruct bo.
  - rewrite (breakpoint_kind_from_pc_failed bo mem pc Hrd). by destruct bo.
Qed.

(** ** The declared size of the general-purpose row *)

(** X15. The supply callback of the general-purpose row of the table
    returns on a buffer of the row's declared size, for every descriptor
    with contiguous banks of at most 33 slots of at most 16 bytes. *)
Theorem general_row_size_suffices q d f tdesc r store w :
  In r (riscv_regsets q d f) ->
  type r = GENERAL_REGS ->
  store_function r = Some store ->
  cache_wf tdesc w ->
  Z.of_nat (length (buf w)) = size r ->
  (forall zn pn xlen,
     plain_layout tdesc zn pn xlen ->
     pn - zn <= 33 -> xlen <= 16 ->
     exists w', store tdesc w = Ok (tt, w'))
  /\ (forall cn pcn dn zn pn clen xlen,
        cheri_layout tdesc cn pcn dn zn pn clen xlen ->
        pcn - cn + 1 <= 33 -> clen <= 16 ->
        exists w', store tdesc w = Ok (tt, w')).
Proof.
  intros Hin Hty Hst Hc Hlen.
  assert (store = riscv_store_gregset /\ size r = MAX_REGSET_SIZE) as [-> Hsz].
  { simpl in Hin. destruct Hin as [<-|[<-|[<-|[<-|[]]]]]; simpl in *;
      try discriminate. split; congruence. }
  rewrite Hsz in Hlen. unfold MAX_REGSET_SIZE in Hlen. split.
  - intros zn pn xlen L Hn Hx.
    destruct (plain_pc_reg _ _ _ _ L) as (rp & Hrp & Hwp).
    pose proof (reg_width_nonneg _ (plain_wf _ _ _ _ L) _ _ Hrp).
    pose proof (plain_order _ _ _ _ L).
    destruct (plain_store_spec tdesc zn pn xlen L w Hc) as (w' & ? & _); [nia|eauto].
  - intros cn pcn dn zn pn clen xlen L Hn Hx.
    destruct (pcc_reg _ _ _ _ _ _ _ _ L) as (rc & Hrc & Hwc).
    pose proof (reg_width_nonneg _ (cheri_wf _ _ _ _ _ _ _ _ L) _ _ Hrc).
    pose proof (cheri_cap_order _ _ _ _ _ _ _ _ L).
    destruct (cheri_store_spec tdesc cn pcn dn zn pn clen xlen L w Hc)
      as (w' & ? & _); [nia|eauto].
Qed.

Lemma general_row_size_suffices_witness :
  (exists w',
     riscv_store_gregset cheri_tdesc (sized_world cheri_tdesc 528) = Ok (tt, w'))
  /\ (exists w',
        riscv_store_gregset rv64_tdesc (sized_world rv64_tdesc 528) = Ok (tt, w')).
Proof.
  split.
  destruct (general_row_size_suffices 528 264 132 cheri_tdesc
              {| get_request := PTRACE_GETREGSET; set_request := PTRACE_SETREGSET;
                 nt_type := NT_PRSTATUS;
                 size := MAX_REGSET_SIZE; type := GENERAL_REGS;
                 fill_function := None;
                 store_function := Some riscv_store_gregset |}
              riscv_store_gregset (sized_world cheri_tdesc 528))
    as [_ Hcheri].
  - simpl. left. reflexivity.
  - reflexivity.
  - reflexivity.
  - vm_compute. reflexivity.
  - vm_compute. reflexivity.
  - apply (Hcheri 68 100 101 0 32 16 8); [|lia|lia].
    split; try reflexivity; try lia; by_computation.
  - destruct (general_row_size_suffices 528 264 132 rv64_tdesc
                {| get_request := PTRACE_GETREGSET; set_request := PTRACE_SETREGSET;
                   nt_type := NT_PRSTATUS;
                   size := MAX_REGSET_SIZE; type := GENERAL_REGS;
                   fill_function := None;
                   store_function := Some riscv_store_gregset |}
                riscv_store_gregset (sized_world rv64_tdesc 528))
      as [Hplain _];
      [simpl; left; reflexivity|reflexivity|reflexivity
      |vm_compute; reflexivity|vm_compute; reflexivity|].
    apply (Hplain 0 32 8); [|lia|lia].
    split; try reflexivity; try lia; by_computation.
Defined.
